(** * scripts/migrate-beads.py: the beads to Flow-Next migrator

    A shallow embedding of the migration script and the properties of its
    specification.  The script is sequential glue around two command-line
    tools, so the model is a state-and-exception monad over the observable
    effects (subprocess invocations, file writes, the two console streams),
    with the two tools supplied as oracles.

    Modelling conventions:
    - a Python [str] is a [string]; one [ascii] stands for one character;
    - a Python [int] is a [Z];
    - a Python [dict] keeps insertion order, which the script relies on when it
      iterates [epics] and [subtasks]; it is an association list without
      repeated keys (module [Dict]);
    - a bead is a record: [b['id']] and [b['title']] are indexed without a
      default by the script, the other fields are read through [.get];
    - [json.loads] is applied to the standard output of a tool; that output
      is either text that does not parse or the text of a value;
    - [subprocess.run] always returns a completed process and a file write
      always succeeds: a missing executable or directory is not modelled. *)

From Stdlib Require Import String Ascii List ZArith Lia Bool DecimalString.
From Stdlib Require Import Sorted Permutation.
Import ListNotations.
Open Scope string_scope.

(** ** Python strings *)

Module PyStr.

(** [c in s] for a one-character [c]. *)
Fixpoint contains (c : ascii) (s : string) : bool :=
  match s with
  | EmptyString => false
  | String a s' => Ascii.eqb a c || contains c s'
  end.

(** The two pieces of [s] around its last occurrence of [sep], if any. *)
Fixpoint rcut (sep : ascii) (s : string) : option (string * string) :=
  match s with
  | EmptyString => None
  | String a s' =>
      match rcut sep s' with
      | Some (p, q) => Some (String a p, q)
      | None => if Ascii.eqb a sep then Some (EmptyString, s') else None
      end
  end.

(** [s.rsplit(sep, 1)] for a one-character separator. *)
Definition rsplit1 (sep : ascii) (s : string) : list string :=
  match rcut sep s with
  | Some (p, q) => [p; q]
  | None => [s]
  end.

(** [s[:n]] *)
Definition take (n : nat) (s : string) : string := substring 0 n s.

(** [str(n)] for an [int]. *)
Definition str (n : Z) : string := NilZero.string_of_int (Z.to_int n).

Definition nl : string := String (ascii_of_nat 10) EmptyString.

(** *** [int(s)] in base 10

    A character is a code point below 256.  Leading and trailing
    whitespace is dropped, one sign is allowed, and digits may be grouped
    by single underscores.  The whitespace of [int] is narrower than that
    of [str.isspace]: the characters 9 to 13 and 32, and the two
    whitespace characters above 127, which are 133 and 160; the separators
    28 to 31 are not skipped.  A literal with more digits than
    [int_max_str_digits], the default of [sys.int_max_str_digits], is
    refused, leading zeros counted.  [None] stands for [ValueError]. *)

Definition is_digit (c : ascii) : bool :=
  let n := nat_of_ascii c in (48 <=? n)%nat && (n <=? 57)%nat.

Definition digit_val (c : ascii) : Z := Z.of_nat (nat_of_ascii c - 48).

Definition is_space (c : ascii) : bool :=
  let n := nat_of_ascii c in
  ((9 <=? n)%nat && (n <=? 13)%nat) || (n =? 32)%nat
  || (n =? 133)%nat || (n =? 160)%nat.

Fixpoint lstrip (s : string) : string :=
  match s with
  | String a s' => if is_space a then lstrip s' else s
  | EmptyString => EmptyString
  end.

Fixpoint all_space (s : string) : bool :=
  match s with
  | EmptyString => true
  | String a s' => is_space a && all_space s'
  end.

(** Digits after the first one: [acc] is the value read so far, [us] says
    that the previous character was an underscore. *)
Fixpoint digits (acc : Z) (us : bool) (s : string) : option Z :=
  match s with
  | EmptyString => if us then None else Some acc
  | String a s' =>
      if is_digit a then digits (10 * acc + digit_val a) false s'
      else if Ascii.eqb a "_" then (if us then None else digits acc true s')
      else if us then None
      else if all_space s then Some acc else None
  end.

Definition unsigned (s : string) : option Z :=
  match s with
  | String a s' => if is_digit a then digits (digit_val a) false s' else None
  | EmptyString => None
  end.

Definition int_max_str_digits : N := 4300.

Fixpoint count_digits (s : string) : N :=
  match s with
  | EmptyString => 0
  | String a s' => ((if is_digit a then 1 else 0) + count_digits s')%N
  end.

Definition int (s : string) : option Z :=
  if (int_max_str_digits <? count_digits s)%N then None
  else
    match lstrip s with
    | String "-" s' => option_map Z.opp (unsigned s')
    | String "+" s' => unsigned s'
    | s' => unsigned s'
    end.

End PyStr.

(** ** Python dictionaries with string keys *)

Module Dict.

Definition t (V : Type) : Type := list (string * V).

(** [d.get(k)] *)
Fixpoint get {V} (d : t V) (k : string) : option V :=
  match d with
  | [] => None
  | (k', v) :: d' => if k' =? k then Some v else get d' k
  end.

(** [k in d] *)
Definition mem {V} (d : t V) (k : string) : bool :=
  match get d k with Some _ => true | None => false end.

(** [d[k] = v]: an existing key keeps its place, a new one goes last. *)
Fixpoint set {V} (d : t V) (k : string) (v : V) : t V :=
  match d with
  | [] => [(k, v)]
  | (k', v') :: d' =>
      if k' =? k then (k', v) :: d' else (k', v') :: set d' k v
  end.

(** [list(d.keys())] and [d.items()] *)
Definition keys {V} (d : t V) : list string := map fst d.
Definition items {V} (d : t V) : list (string * V) := d.

End Dict.

(** ** Data *)

(** A source record.  [status] is never read by the script and is left out. *)
Record Bead : Type := mkBead {
  id : string;
  title : string;
  description : option string;
  issue_type : option string;
  priority : option Z
}.

(** The JSON object printed by the destination tool; either key may be
    missing. *)
Record FlowResult : Type := mkFlowResult {
  success : option bool;
  flow_id : option string
}.

(** What a tool printed on its standard output, as [json.loads] sees it. *)
Inductive Output (A : Type) : Type :=
| NotJson (raw : string)
| Json (v : A).
Arguments NotJson {A} raw.
Arguments Json {A} v.

(** [subprocess.CompletedProcess] *)
Record CompletedProcess (A : Type) : Type := mkCompleted {
  returncode : Z;
  stdout : Output A;
  stderr : string
}.
Arguments mkCompleted {A}.
Arguments returncode {A}.
Arguments stdout {A}.
Arguments stderr {A}.

Definition Cmd : Type := list string.

(** The two external tools.  Each answer may depend on every command run
    before it. *)
Record Env : Type := mkEnv {
  bd : list Cmd -> Cmd -> CompletedProcess (list Bead);
  flowctl_py : list Cmd -> Cmd -> CompletedProcess FlowResult
}.

(** What is written to a file: text, or [json.dumps(d, indent=2)] of a
    dictionary, kept as the dictionary. *)
Inductive Content : Type :=
| Text (s : string)
| JsonDump (d : Dict.t string).

(** The effects of a run, oldest first. *)
Record State : Type := mkState {
  calls : list Cmd;
  files : list (string * Content);
  out : list string;
  err : list string
}.

Definition initial : State := mkState [] [] [] [].

Inductive exn : Type :=
| KeyError (key : string)
| JSONDecodeError (doc : string)
| ValueError (literal : string)
| IndexError.

Inductive outcome (A : Type) : Type :=
| Ok (a : A)
| Raise (e : exn).
Arguments Ok {A} a.
Arguments Raise {A} e.

(** ** The monad of the script *)

Definition M (A : Type) : Type := State -> outcome A * State.

Definition ret {A} (a : A) : M A := fun st => (Ok a, st).

Definition raise {A} (e : exn) : M A := fun st => (Raise e, st).

Definition bind {A B} (m : M A) (k : A -> M B) : M B :=
  fun st =>
    match m st with
    | (Ok a, st') => k a st'
    | (Raise e, st') => (Raise e, st')
    end.

Declare Scope py_scope.
Delimit Scope py_scope with py.
Notation "x <- m ;; k" := (bind m (fun x => k))
  (at level 100, m at next level, right associativity) : py_scope.
Notation "' p <- m ;; k" := (bind m (fun x => match x with p => k end))
  (at level 100, p pattern, m at next level, right associativity) : py_scope.
Notation "m ;; k" := (bind m (fun _ => k))
  (at level 100, right associativity) : py_scope.
Open Scope py_scope.

Definition lift {A} (o : outcome A) : M A := fun st => (o, st).

(** [print(s)] and [print(s, file=sys.stderr)] *)
Definition print (s : string) : M unit :=
  fun st => (Ok tt, mkState (calls st) (files st) (out st ++ [s]) (err st)).

Definition eprint (s : string) : M unit :=
  fun st => (Ok tt, mkState (calls st) (files st) (out st) (err st ++ [s])).

(** [Path(path).write_text(c)] *)
Definition write_text (path : string) (c : Content) : M unit :=
  fun st => (Ok tt, mkState (calls st) (files st ++ [(path, c)]) (out st) (err st)).

(** [for x in l: acc = body(x, acc)] *)
Fixpoint for_each {X A} (body : X -> A -> M A) (l : list X) (acc : A) : M A :=
  match l with
  | [] => ret acc
  | x :: l' => acc' <- body x acc ;; for_each body l' acc'
  end.

(** [json.loads(result.stdout)] *)
Definition json_loads {A} (o : Output A) : outcome A :=
  match o with
  | Json v => Ok v
  | NotJson raw => Raise (JSONDecodeError raw)
  end.

(** ** The script *)

Definition FLOWCTL : string :=
  "/Users/gordon/work/gmickel-claude-marketplace/plugins/flow-next/scripts/flowctl.py".

Definition mapping_path : string := ".flow/bead-mapping.json".

(** [result and result.get('success')] as a condition, for the value
    returned by [flowctl] ([None] is Python's [None]). *)
Definition succeeded (result : option FlowResult) : bool :=
  match result with
  | Some r => match success r with Some true => true | _ => false end
  | None => false
  end.

(** [result['id']] *)
Definition result_id (r : FlowResult) : outcome string :=
  match flow_id r with
  | Some i => Ok i
  | None => Raise (KeyError "id")
  end.

(** [b.get('issue_type') == 'epic'] *)
Definition is_epic (b : Bead) : bool :=
  match issue_type b with
  | Some ty => ty =? "epic"
  | None => false
  end.

(** [b.get(field, default)] *)
Definition get_or {A} (field : option A) (default : A) : A :=
  match field with Some v => v | None => default end.

(** [bid.rsplit('.', 1)[0]]; the list returned by [rsplit] is never empty. *)
Definition parent_of (bid : string) : string :=
  hd bid (PyStr.rsplit1 "." bid).

(** Lines 53-63: one round of the categorising loop. *)
Definition classify_step
    (acc : Dict.t Bead * Dict.t (list Bead) * list Bead) (b : Bead)
    : Dict.t Bead * Dict.t (list Bead) * list Bead :=
  let '(epics, subtasks, standalone) := acc in
  let bid := id b in
  if PyStr.contains "." bid then
    let parent := parent_of bid in
    let subtasks :=
      if negb (Dict.mem subtasks parent) then Dict.set subtasks parent []
      else subtasks in
    let subtasks :=
      Dict.set subtasks parent (get_or (Dict.get subtasks parent) [] ++ [b])%list in
    (epics, subtasks, standalone)
  else if is_epic b then (Dict.set epics bid b, subtasks, standalone)
  else (epics, subtasks, (standalone ++ [b])%list).

Definition classify (beads : list Bead)
    : Dict.t Bead * Dict.t (list Bead) * list Bead :=
  fold_left classify_step beads ([], [], []).

(** Lines 78-82: the preferred order, then every other epic as discovered. *)
Definition preferred : list string := ["gno-ub9"; "gno-65x"; "gno-2yb"; "gno-b0n"].

Definition order_add (order : list string) (eid : string) : list string :=
  if negb (existsb (String.eqb eid) order) then (order ++ [eid])%list else order.

Definition epic_order_of (epics : Dict.t Bead) : list string :=
  fold_left order_add (Dict.keys epics) preferred.

(** Line 172: the key of the sort.  The list returned by [rsplit] is indexed
    at 1 and the piece is given to [int]. *)
Definition sort_key (t : Bead) : outcome Z :=
  if PyStr.contains "." (id t) then
    match nth_error (PyStr.rsplit1 "." (id t)) 1 with
    | Some suffix =>
        match PyStr.int suffix with
        | Some n => Ok n
        | None => Raise (ValueError suffix)
        end
    | None => Raise IndexError
    end
  else Ok 0%Z.

(** [list.sort(key=...)]: the keys are computed first, and an exception
    from the key function propagates; then the list is sorted by key,
    elements with equal keys keeping their order. *)
Fixpoint keyed (ts : list Bead) : outcome (list (Z * Bead)) :=
  match ts with
  | [] => Ok []
  | t :: ts' =>
      match sort_key t with
      | Ok k =>
          match keyed ts' with
          | Ok kts => Ok ((k, t) :: kts)
          | Raise e => Raise e
          end
      | Raise e => Raise e
      end
  end.

Fixpoint insert_keyed (x : Z * Bead) (l : list (Z * Bead)) : list (Z * Bead) :=
  match l with
  | [] => [x]
  | y :: l' => if (fst x <=? fst y)%Z then x :: l else y :: insert_keyed x l'
  end.

Definition sort_keyed (l : list (Z * Bead)) : list (Z * Bead) :=
  fold_right insert_keyed [] l.

Definition sort_tasks (ts : list Bead) : outcome (list Bead) :=
  match keyed ts with
  | Ok kts => Ok (map snd (sort_keyed kts))
  | Raise e => Raise e
  end.

(** The markdown files (lines 106-115, 130-139, 147-158, 191-204). *)
Definition epic_spec (ttl eid ty : string) (prio : Z) (desc : string) : string :=
  "# " ++ ttl ++ PyStr.nl ++ PyStr.nl
  ++ "**Migrated from:** " ++ eid ++ PyStr.nl
  ++ "**Original type:** " ++ ty ++ PyStr.nl
  ++ "**Priority:** P" ++ PyStr.str prio ++ PyStr.nl ++ PyStr.nl
  ++ "---" ++ PyStr.nl ++ PyStr.nl
  ++ desc ++ PyStr.nl.

Definition standalone_task_spec (ttl desc : string) : string :=
  "# " ++ ttl ++ PyStr.nl ++ PyStr.nl
  ++ "## Description" ++ PyStr.nl ++ PyStr.nl
  ++ desc ++ PyStr.nl ++ PyStr.nl
  ++ "## Acceptance Criteria" ++ PyStr.nl ++ PyStr.nl
  ++ "- [ ] Implementation complete" ++ PyStr.nl
  ++ "- [ ] Tests passing" ++ PyStr.nl
  ++ "- [ ] Documentation updated" ++ PyStr.nl.

Definition task_spec (ttl tid : string) (prio : Z) (desc : string) : string :=
  "# " ++ ttl ++ PyStr.nl ++ PyStr.nl
  ++ "**Migrated from:** " ++ tid ++ PyStr.nl
  ++ "**Priority:** P" ++ PyStr.str prio ++ PyStr.nl ++ PyStr.nl
  ++ "## Description" ++ PyStr.nl ++ PyStr.nl
  ++ desc ++ PyStr.nl ++ PyStr.nl
  ++ "## Acceptance Criteria" ++ PyStr.nl ++ PyStr.nl
  ++ "- [ ] Implementation complete" ++ PyStr.nl
  ++ "- [ ] Tests passing" ++ PyStr.nl.

(** The command lines. *)
Definition flowctl_cmd (args : list string) : Cmd :=
  (["python3"; FLOWCTL] ++ args ++ ["--json"])%list.

Definition bd_list_cmd : Cmd := ["bd"; "list"; "--status=open"; "--json"].

Definition bd_show_cmd (bid : string) : Cmd := ["bd"; "show"; bid; "--json"].

Definition epic_create_args (ttl : string) : list string :=
  ["epic"; "create"; "--title"; ttl].

Definition standalone_task_args (flow_epic ttl : string) : list string :=
  ["task"; "create"; "--epic"; flow_epic; "--title";
   "Implement: " ++ PyStr.take 50 ttl].

Definition task_create_args (flow_epic : string) (t : Bead) : list string :=
  ["task"; "create"; "--epic"; flow_epic; "--title"; title t;
   "--priority"; PyStr.str (get_or (priority t) 2 * 10)%Z].

Section Migrator.

Variable env : Env.

(** [subprocess.run(cmd, capture_output=True, text=True)] for each tool. *)
Definition run_bd (cmd : Cmd) : M (CompletedProcess (list Bead)) :=
  fun st =>
    (Ok (bd env (calls st) cmd),
     mkState (calls st ++ [cmd]) (files st) (out st) (err st)).

Definition run_flowctl (cmd : Cmd) : M (CompletedProcess FlowResult) :=
  fun st =>
    (Ok (flowctl_py env (calls st) cmd),
     mkState (calls st ++ [cmd]) (files st) (out st) (err st)).

(** Lines 11-22. *)
Definition flowctl (args : list string) : M (option FlowResult) :=
  result <- run_flowctl (flowctl_cmd args) ;;
  if negb (returncode result =? 0)%Z then
    eprint ("Error: " ++ stderr result) ;;
    ret None
  else
    match stdout result with
    | Json v => ret (Some v)
    | NotJson raw =>
        eprint ("Invalid JSON: " ++ raw) ;;
        ret None
    end.

(** Lines 24-30. *)
Definition get_beads : M (list Bead) :=
  result <- run_bd bd_list_cmd ;;
  lift (json_loads (stdout result)).

(** Lines 32-39. *)
Definition get_bead (bid : string) : M (option Bead) :=
  result <- run_bd (bd_show_cmd bid) ;;
  data <- lift (json_loads (stdout result)) ;;
  ret (hd_error data).

(** Lines 41-43. *)
Definition write_spec (path content : string) : M unit :=
  write_text path (Text content).

(** Lines 66-72: one round of the loop that finds implicit epics.  A bead
    is a non-empty dictionary, so [if parent_bead] tests for [None]. *)
Definition implicit_step (parent : string) (acc : Dict.t Bead * list Bead)
    : M (Dict.t Bead * list Bead) :=
  let '(epics, standalone) := acc in
  if negb (Dict.mem epics parent) then
    parent_bead <- get_bead parent ;;
    match parent_bead with
    | Some pb =>
        ret (Dict.set epics parent pb,
             filter (fun s => negb (id s =? parent)) standalone)
    | None => ret (epics, standalone)
    end
  else ret (epics, standalone).

Definition find_implicit_epics (subtasks : Dict.t (list Bead))
    (epics : Dict.t Bead) (standalone : list Bead)
    : M (Dict.t Bead * list Bead) :=
  for_each implicit_step (Dict.keys subtasks) (epics, standalone).

(** Lines 92-116: one round of the epic loop. *)
Definition epic_step (epics : Dict.t Bead) (eid : string)
    (bead_to_flow : Dict.t string) : M (Dict.t string) :=
  if eid =? "gno-ub9" then ret bead_to_flow
  else
    match Dict.get epics eid with
    | None => raise (KeyError eid)
    | Some epic =>
        result <- flowctl (epic_create_args (title epic)) ;;
        match result with
        | Some r =>
            if succeeded result then
              fid <- lift (result_id r) ;;
              let bead_to_flow := Dict.set bead_to_flow eid fid in
              print (eid ++ " -> " ++ fid ++ ": "
                     ++ PyStr.take 50 (title epic) ++ "...") ;;
              let spec_path := ".flow/specs/" ++ fid ++ ".md" in
              let desc :=
                get_or (description epic)
                  ("# " ++ title epic ++ PyStr.nl ++ PyStr.nl
                   ++ "Migrated from beads " ++ eid) in
              write_spec spec_path
                (epic_spec (title epic) eid (get_or (issue_type epic) "epic")
                   (get_or (priority epic) 2%Z) desc) ;;
              ret bead_to_flow
            else ret bead_to_flow
        | None => ret bead_to_flow
        end
    end.

Definition create_epics (epics : Dict.t Bead) (epic_order : list string)
    (bead_to_flow : Dict.t string) : M (Dict.t string) :=
  for_each (epic_step epics) epic_order bead_to_flow.

(** Lines 120-159: one round of the standalone loop. *)
Definition standalone_step (s : Bead) (bead_to_flow : Dict.t string)
    : M (Dict.t string) :=
  result <- flowctl (epic_create_args (title s)) ;;
  match result with
  | Some r =>
      if succeeded result then
        fid <- lift (result_id r) ;;
        let bead_to_flow := Dict.set bead_to_flow (id s) fid in
        print (id s ++ " -> " ++ fid ++ ": " ++ PyStr.take 50 (title s) ++ "...") ;;
        let spec_path := ".flow/specs/" ++ fid ++ ".md" in
        let desc := get_or (description s) ("# " ++ title s) in
        write_spec spec_path
          (epic_spec (title s) (id s) (get_or (issue_type s) "task")
             (get_or (priority s) 2%Z) desc) ;;
        task_result <- flowctl (standalone_task_args fid (title s)) ;;
        match task_result with
        | Some tr =>
            if succeeded task_result then
              task_id <- lift (result_id tr) ;;
              write_spec (".flow/tasks/" ++ task_id ++ ".md")
                (standalone_task_spec (title s) desc) ;;
              ret bead_to_flow
            else ret bead_to_flow
        | None => ret bead_to_flow
        end
      else ret bead_to_flow
  | None => ret bead_to_flow
  end.

Definition create_standalone (standalone : list Bead)
    (bead_to_flow : Dict.t string) : M (Dict.t string) :=
  for_each standalone_step standalone bead_to_flow.

(** Lines 174-205: one round of the loop over the tasks of an epic. *)
Definition task_step (flow_epic : string) (task : Bead)
    (bead_to_flow : Dict.t string) : M (Dict.t string) :=
  result <- flowctl (task_create_args flow_epic task) ;;
  match result with
  | Some r =>
      if succeeded result then
        task_flow_id <- lift (result_id r) ;;
        let bead_to_flow := Dict.set bead_to_flow (id task) task_flow_id in
        print ("  " ++ id task ++ " -> " ++ task_flow_id ++ ": "
               ++ PyStr.take 40 (title task) ++ "...") ;;
        let desc := get_or (description task) ("# " ++ title task) in
        write_spec (".flow/tasks/" ++ task_flow_id ++ ".md")
          (task_spec (title task) (id task) (get_or (priority task) 2%Z) desc) ;;
        ret bead_to_flow
      else ret bead_to_flow
  | None => ret bead_to_flow
  end.

(** Lines 163-205: one round of the loop over [subtasks.items()].  An
    absent or empty destination id is false in [if not flow_epic]. *)
Definition group_step (group : string * list Bead)
    (bead_to_flow : Dict.t string) : M (Dict.t string) :=
  let '(parent_id, tasks) := group in
  match Dict.get bead_to_flow parent_id with
  | None | Some EmptyString =>
      print ("Warning: No flow epic for " ++ parent_id) ;;
      ret bead_to_flow
  | Some flow_epic =>
      print (PyStr.nl ++ parent_id ++ " (" ++ flow_epic ++ "):") ;;
      tasks <- lift (sort_tasks tasks) ;;
      for_each (task_step flow_epic) tasks bead_to_flow
  end.

Definition create_tasks (subtasks : Dict.t (list Bead))
    (bead_to_flow : Dict.t string) : M (Dict.t string) :=
  for_each group_step (Dict.items subtasks) bead_to_flow.

(** Lines 46-72: fetch, categorise, find the implicit epics. *)
Definition discover : M (Dict.t Bead * Dict.t (list Bead) * list Bead) :=
  beads <- get_beads ;;
  let '(epics, subtasks, standalone) := classify beads in
  '(epics, standalone) <- find_implicit_epics subtasks epics standalone ;;
  ret (epics, subtasks, standalone).

Definition count_keys (p : string -> bool) (d : Dict.t string) : Z :=
  Z.of_nat (length (filter p (Dict.keys d))).

(** Lines 74-213: everything after discovery. *)
Definition migrate (found : Dict.t Bead * Dict.t (list Bead) * list Bead)
    : M unit :=
  let '(epics, subtasks, standalone) := found in
  let bead_to_flow : Dict.t string := [] in
  let epic_order := epic_order_of epics in
  print "=== Creating Epics ===" ;;
  let bead_to_flow := Dict.set bead_to_flow "gno-ub9" "fn-1" in
  print "gno-ub9 -> fn-1 (already created)" ;;
  bead_to_flow <- create_epics epics epic_order bead_to_flow ;;
  print (PyStr.nl ++ "=== Creating Standalone Epics ===") ;;
  bead_to_flow <- create_standalone standalone bead_to_flow ;;
  print (PyStr.nl ++ "=== Creating Tasks Under Epics ===") ;;
  bead_to_flow <- create_tasks subtasks bead_to_flow ;;
  write_text mapping_path (JsonDump bead_to_flow) ;;
  print (PyStr.nl ++ "=== Migration complete ===") ;;
  print ("Mapping saved to " ++ mapping_path) ;;
  print ("Epics: "
         ++ PyStr.str (count_keys (fun k => negb (PyStr.contains "." k)) bead_to_flow)) ;;
  print ("Tasks: " ++ PyStr.str (count_keys (PyStr.contains ".") bead_to_flow)).

(** Lines 45-213. *)
Definition main : M unit :=
  found <- discover ;;
  migrate found.

End Migrator.

(** ** Notions used by the statements *)

(** What the three collections hold after the beads [seen] were
    categorised. *)
Record classified (seen : list Bead)
    (acc : Dict.t Bead * Dict.t (list Bead) * list Bead) : Prop := {
  cl_epics_nodup : NoDup (Dict.keys (fst (fst acc)));
  cl_subtasks_nodup : NoDup (Dict.keys (snd (fst acc)));
  cl_cover : forall b, In b seen ->
    if PyStr.contains "." (id b) then
      exists ts, Dict.get (snd (fst acc)) (parent_of (id b)) = Some ts /\ In b ts
    else if is_epic b then In (id b) (Dict.keys (fst (fst acc)))
    else In b (snd acc);
  cl_subtasks : forall p ts t, Dict.get (snd (fst acc)) p = Some ts -> In t ts ->
    In t seen /\ PyStr.contains "." (id t) = true /\ parent_of (id t) = p;
  cl_epics : forall k b, Dict.get (fst (fst acc)) k = Some b ->
    In b seen /\ id b = k /\ PyStr.contains "." k = false /\ is_epic b = true;
  cl_standalone : forall s, In s (snd acc) ->
    In s seen /\ PyStr.contains "." (id s) = false /\ is_epic s = false;
  cl_nonempty : forall p, Dict.get (snd (fst acc)) p <> Some []
}.

(** What [flowctl] returns and what it reports on the error stream when the
    commands in [hist] were run before it. *)
Definition flowctl_returns (env : Env) (hist : list Cmd) (args : list string)
    : option FlowResult :=
  let result := flowctl_py env hist (flowctl_cmd args) in
  if negb (returncode result =? 0)%Z then None
  else match stdout result with Json v => Some v | NotJson _ => None end.

Definition flowctl_report (env : Env) (hist : list Cmd) (args : list string)
    : list string :=
  let result := flowctl_py env hist (flowctl_cmd args) in
  if negb (returncode result =? 0)%Z then ["Error: " ++ stderr result]
  else match stdout result with
       | Json _ => []
       | NotJson raw => ["Invalid JSON: " ++ raw]
       end.

(** The state after a call of [flowctl]. *)
Definition after_flowctl (env : Env) (args : list string) (st : State) : State :=
  mkState (calls st ++ [flowctl_cmd args]) (files st) (out st)
    (err st ++ flowctl_report env (calls st) args).

(** Every command run by [m] satisfies [P] and every file written by [m]
    satisfies [Q], whatever the outcome. *)
Definition logs {A} (P : Cmd -> Prop) (Q : string * Content -> Prop) (m : M A)
    : Prop :=
  forall st, exists cs fs,
    calls (snd (m st)) = (calls st ++ cs)%list
    /\ files (snd (m st)) = (files st ++ fs)%list
    /\ Forall P cs /\ Forall Q fs.

(** The state after lines 99-116 recorded the epic [epic] under [fid]. *)
Definition epic_recorded (eid : string) (epic : Bead) (fid : string) (st : State)
    : State :=
  mkState (calls st)
    (files st ++
       [(".flow/specs/" ++ fid ++ ".md",
         Text (epic_spec (title epic) eid (get_or (issue_type epic) "epic")
                 (get_or (priority epic) 2%Z)
                 (get_or (description epic)
                    ("# " ++ title epic ++ PyStr.nl ++ PyStr.nl
                     ++ "Migrated from beads " ++ eid))))])
    (out st ++ [eid ++ " -> " ++ fid ++ ": " ++ PyStr.take 50 (title epic) ++ "..."])
    (err st).

(** The state after lines 123-140 recorded the standalone bead [s]. *)
Definition standalone_recorded (s : Bead) (fid : string) (st : State) : State :=
  mkState (calls st)
    (files st ++
       [(".flow/specs/" ++ fid ++ ".md",
         Text (epic_spec (title s) (id s) (get_or (issue_type s) "task")
                 (get_or (priority s) 2%Z)
                 (get_or (description s) ("# " ++ title s))))])
    (out st ++ [id s ++ " -> " ++ fid ++ ": " ++ PyStr.take 50 (title s) ++ "..."])
    (err st).

(** The state after lines 184-205 recorded the task [t]. *)
Definition task_recorded (t : Bead) (fid : string) (st : State) : State :=
  mkState (calls st)
    (files st ++
       [(".flow/tasks/" ++ fid ++ ".md",
         Text (task_spec (title t) (id t) (get_or (priority t) 2%Z)
                 (get_or (description t) ("# " ++ title t))))])
    (out st ++ ["  " ++ id t ++ " -> " ++ fid ++ ": " ++ PyStr.take 40 (title t) ++ "..."])
    (err st).

(** The destination tool answered with a true [success] flag and the id
    [fid]. *)
Definition answered (result : option FlowResult) (fid : string) : Prop :=
  exists r, result = Some r /\ success r = Some true /\ flow_id r = Some fid.

(** The destination tool answered with a true [success] flag and no id. *)
Definition answered_without_id (result : option FlowResult) : Prop :=
  exists r, result = Some r /\ success r = Some true /\ flow_id r = None.

(** The commands that create a task, and the files that are not the
    mapping file. *)
Definition is_task_create (c : Cmd) : Prop :=
  exists rest, c = "python3" :: FLOWCTL :: "task" :: "create" :: rest.

Definition is_flowctl (c : Cmd) : Prop := exists args, c = flowctl_cmd args.

Definition is_bd (c : Cmd) : Prop :=
  c = bd_list_cmd \/ exists bid, c = bd_show_cmd bid.

Definition is_epic_cmd (c : Cmd) : Prop :=
  exists ttl, c = flowctl_cmd (epic_create_args ttl).

(** The commands that the run issues after discovery. *)
Definition is_standalone_task_cmd (standalone : list Bead) (c : Cmd) : Prop :=
  exists fe s, In s standalone /\ c = flowctl_cmd (standalone_task_args fe (title s)).

Definition is_subtask_cmd (subtasks : Dict.t (list Bead)) (c : Cmd) : Prop :=
  exists fe parent ts t,
    In (parent, ts) subtasks /\ In t ts /\ c = flowctl_cmd (task_create_args fe t).

Definition migrate_cmd (subtasks : Dict.t (list Bead)) (standalone : list Bead)
    (c : Cmd) : Prop :=
  is_epic_cmd c \/ is_standalone_task_cmd standalone c \/ is_subtask_cmd subtasks c.

(** The state after [subprocess.run] of a source command. *)
Definition after_bd (cmd : Cmd) (st : State) : State :=
  mkState (calls st ++ [cmd]) (files st) (out st) (err st).

Definition cmd_eq_dec : forall c c' : Cmd, {c = c'} + {c <> c'} :=
  list_eq_dec string_dec.

(** How many times the record [bid] was fetched in the log [h]. *)
Definition fetches (bid : string) (h : list Cmd) : nat :=
  count_occ cmd_eq_dec h (bd_show_cmd bid).

Definition not_mapping (f : string * Content) : Prop := fst f <> mapping_path.

(** The state after [print(s)], and after the two lines that open the epic
    phase. *)
Definition printed (s : string) (st : State) : State :=
  mkState (calls st) (files st) (out st ++ [s]) (err st).

Definition announced (st : State) : State :=
  printed "gno-ub9 -> fn-1 (already created)" (printed "=== Creating Epics ===" st).

(** The order of the sort on keyed tasks, and the tasks with key [k]. *)
Definition key_le (x y : Z * Bead) : Prop := (fst x <= fst y)%Z.

Definition with_key (k : Z) (l : list (Z * Bead)) : list (Z * Bead) :=
  filter (fun x => (fst x =? k)%Z) l.

(** The integer written after the last dot of the id of [t], if the id has
    a dot and the text after it reads as an integer. *)
Definition suffix_int (t : Bead) : option Z :=
  match PyStr.rcut "." (id t) with
  | Some (_, last) => PyStr.int last
  | None => None
  end.

Definition suffix_le (a b : Bead) : Prop :=
  exists ka kb, suffix_int a = Some ka /\ suffix_int b = Some kb /\ (ka <= kb)%Z.

Definition has_suffix (k : Z) (t : Bead) : bool :=
  match suffix_int t with Some k' => (k' =? k)%Z | None => false end.

(** The task-creation commands for the tasks [ts] under the epic [fe]. *)
Definition task_cmds (fe : string) (ts : list Bead) : list Cmd :=
  map (fun t => flowctl_cmd (task_create_args fe t)) ts.

(** The mapping [m'] has the keys of [m], in the same places, and then
    possibly more: no entry was removed, new ones went last. *)
Definition extends (m m' : Dict.t string) : Prop :=
  exists ks, Dict.keys m' = (Dict.keys m ++ ks)%list.

(** From [m] to [m'] no entry was removed, no key was repeated, and every
    new key satisfies [key]. *)
Definition grows (key : string -> Prop) (m m' : Dict.t string) : Prop :=
  extends m m'
  /\ (NoDup (Dict.keys m) -> NoDup (Dict.keys m'))
  /\ (forall k, In k (Dict.keys m') -> In k (Dict.keys m) \/ key k).

(** No entry of the mapping was removed or given another value. *)
Definition append_only (m m' : Dict.t string) : Prop :=
  forall k v, Dict.get m k = Some v -> Dict.get m' k = Some v.

(** One assignment [m[k] = fid] with the id that the destination answered
    to [args] after the commands [hist]. *)
Definition assigned (env : Env) (m : Dict.t string) (k : string)
    (hist : list Cmd) (args : list string) (m' : Dict.t string) : Prop :=
  exists fid, answered (flowctl_returns env hist args) fid /\ m' = Dict.set m k fid.

(** Every destination id of the mapping is a non-empty string. *)
Definition truthy (m : Dict.t string) : Prop :=
  forall k v, Dict.get m k = Some v -> v <> "".

(** The argument lists with which the script asks for an epic or a task. *)
Definition is_create (args : list string) : Prop :=
  (exists ttl, args = epic_create_args ttl)
  \/ (exists fe ttl, args = standalone_task_args fe ttl)
  \/ (exists fe t, args = task_create_args fe t).

(** The destination tool answers every such request with a true [success]
    flag and a non-empty id. *)
Definition dest_ok (env : Env) : Prop :=
  forall hist args, is_create args ->
    exists fid, answered (flowctl_returns env hist args) fid /\ fid <> "".

(** The source tool shows a record for [bid], and does so for the parent id
    of every subtask among [beads]. *)
Definition shows (env : Env) (bid : string) : Prop :=
  forall hist, exists b bs, stdout (bd env hist (bd_show_cmd bid)) = Json (b :: bs).

Definition show_ok (env : Env) (beads : list Bead) : Prop :=
  forall b, In b beads -> PyStr.contains "." (id b) = true ->
    shows env (parent_of (id b)).

(** The ids that the creation phases go through: the pre-mapped epic, the
    epics, the standalone beads, and the subtasks. *)
Definition is_subtask_id (subtasks : Dict.t (list Bead)) (k : string) : Prop :=
  exists parent ts t, In (parent, ts) subtasks /\ In t ts /\ id t = k.

Definition processed (epics : Dict.t Bead) (subtasks : Dict.t (list Bead))
    (standalone : list Bead) (k : string) : Prop :=
  k = "gno-ub9" \/ In k (Dict.keys epics) \/ In k (map id standalone)
  \/ is_subtask_id subtasks k.

(** Every parent of a group of subtasks is the pre-mapped epic, an epic or
    a standalone bead. *)
Definition parents_known (epics : Dict.t Bead) (subtasks : Dict.t (list Bead))
    (standalone : list Bead) : Prop :=
  forall parent, In parent (Dict.keys subtasks) ->
    parent = "gno-ub9" \/ In parent (Dict.keys epics) \/ In parent (map id standalone).

(** ** A simulated pair of tools

    The destination numbers epics from [fn-2] and the tasks of an epic from
    1; the source lists [open] and shows any bead of [all]. *)

Module Sim.

Definition is_epic_create (c : Cmd) : bool :=
  match c with
  | _ :: _ :: "epic" :: "create" :: _ => true
  | _ => false
  end.

Definition is_task_under (e : string) (c : Cmd) : bool :=
  match c with
  | _ :: _ :: "task" :: "create" :: "--epic" :: e' :: _ => e' =? e
  | _ => false
  end.

Definition count (p : Cmd -> bool) (h : list Cmd) : Z :=
  Z.of_nat (length (filter p h)).

Definition created (fid : string) : CompletedProcess FlowResult :=
  mkCompleted 0 (Json (mkFlowResult (Some true) (Some fid))) "".

Definition dest (h : list Cmd) (c : Cmd) : CompletedProcess FlowResult :=
  match c with
  | _ :: _ :: "epic" :: "create" :: _ =>
      created ("fn-" ++ PyStr.str (2 + count is_epic_create h))
  | _ :: _ :: "task" :: "create" :: "--epic" :: e :: _ =>
      created (e ++ "." ++ PyStr.str (1 + count (is_task_under e) h))
  | _ => mkCompleted 2 (NotJson "") "usage: flowctl"
  end.

(** A destination that refuses every creation. *)
Definition refusing (h : list Cmd) (c : Cmd) : CompletedProcess FlowResult :=
  mkCompleted 0 (Json (mkFlowResult (Some false) None)) "".

Definition source (open all : list Bead) (h : list Cmd) (c : Cmd)
    : CompletedProcess (list Bead) :=
  match c with
  | ["bd"; "list"; _; _] => mkCompleted 0 (Json open) ""
  | ["bd"; "show"; b; _] =>
      mkCompleted 0 (Json (filter (fun x => id x =? b) all)) ""
  | _ => mkCompleted 1 (NotJson "") "unknown command"
  end.

(** A source whose database cannot be opened. *)
Definition broken (h : list Cmd) (c : Cmd) : CompletedProcess (list Bead) :=
  mkCompleted 1 (NotJson "") "Error: no beads database found".

Definition env (open all : list Bead) : Env := mkEnv (source open all) dest.

Definition epic (i ttl : string) : Bead := mkBead i ttl None (Some "epic") None.

Definition task (i ttl : string) (prio : option Z) : Bead :=
  mkBead i ttl None (Some "task") prio.

(** The three epics that the preferred order names besides [gno-ub9]. *)
Definition named : list Bead :=
  [epic "gno-65x" "Search"; epic "gno-2yb" "Index"; epic "gno-b0n" "Sync"].

(** An epic, a subtask of it, and a subtask of that subtask. *)
Definition nested : list Bead :=
  (named ++ [epic "gno-a" "Parser"; task "gno-a.1" "Lexer" None;
             task "gno-a.1.1" "Tokens" None])%list.

(** A subtask whose parent is not among the beads. *)
Definition orphan : list Bead := (named ++ [task "gno-q.1" "Push" None])%list.

(** The scenario of the specification. *)
Definition auth : list Bead :=
  [mkBead "gno-ub9" "Auth" None (Some "epic") None;
   mkBead "gno-ub9.1" "Login" None None None;
   mkBead "gno-ub9.2" "Logout" None None None].

End Sim.

(** ** Notions used by the further properties *)

(** The three kinds of bead that the categorising loop tells apart. *)
Definition dotted (b : Bead) : bool := PyStr.contains "." (id b).

Definition goes_standalone (b : Bead) : bool := negb (dotted b) && negb (is_epic b).

Definition goes_under (parent : string) (b : Bead) : bool :=
  dotted b && (parent_of (id b) =? parent).

Definition goes_epic (k : string) (b : Bead) : bool :=
  negb (dotted b) && is_epic b && (id b =? k).

(** The last element of a list, if any. *)
Definition last_error {A} (l : list A) : option A :=
  fold_left (fun _ x => Some x) l None.

(** The strings of a list in the order of their first occurrence. *)
Definition firsts (l : list string) : list string := fold_left order_add l [].

(** The ids of the epic order that are not among the preferred ones. *)
Definition not_preferred (k : string) : bool :=
  negb (existsb (String.eqb k) preferred).

(** The epic-creation commands for the ids [order]: none for [gno-ub9],
    one with the title of the epic for any other id that is a key. *)
Definition epic_cmds (epics : Dict.t Bead) (order : list string) : list Cmd :=
  flat_map
    (fun eid =>
       if eid =? "gno-ub9" then []
       else match Dict.get epics eid with
            | Some epic => [flowctl_cmd (epic_create_args (title epic))]
            | None => []
            end)
    order.

(** From [m] to [m'] the entries whose key does not satisfy [key] are as
    they were. *)
Definition keeps (key : string -> Prop) (m m' : Dict.t string) : Prop :=
  forall k, ~ key k -> Dict.get m' k = Dict.get m k.

(** The files of the epics and of the tasks. *)
Definition is_spec_file (f : string * Content) : Prop :=
  exists fid s, f = (".flow/specs/" ++ fid ++ ".md", Text s).

Definition is_task_file (f : string * Content) : Prop :=
  exists fid s, f = (".flow/tasks/" ++ fid ++ ".md", Text s).


(** The shapes of the two kinds of task-creation command. *)
Definition is_standalone_task_form (c : Cmd) : Prop :=
  exists fe ttl, c = flowctl_cmd (standalone_task_args fe ttl).

Definition is_subtask_form (c : Cmd) : Prop :=
  exists fe t, fe <> "" /\ c = flowctl_cmd (task_create_args fe t).

(** The exceptions that the creation phases can raise: [KeyError] for a
    preferred id that is not an epic or for an answer without [id], and
    [ValueError] for a suffix that [int] rejects. *)
Definition raised_by_migrate (x : exn) : Prop :=
  x = KeyError "id"
  \/ (exists k, In k ["gno-65x"; "gno-2yb"; "gno-b0n"] /\ x = KeyError k)
  \/ (exists q, PyStr.int q = None /\ x = ValueError q).

Definition is_show (c : Cmd) : Prop := exists bid, c = bd_show_cmd bid.

(** The line that [flowctl] prints on the error stream for the answer
    [result] of the destination tool, if any (lines 15-22). *)
Definition report_of (result : CompletedProcess FlowResult) : list string :=
  if negb (returncode result =? 0)%Z then ["Error: " ++ stderr result]
  else match stdout result with
       | Json _ => []
       | NotJson raw => ["Invalid JSON: " ++ raw]
       end.

Definition is_source_cmd (c : Cmd) : bool :=
  match c with
  | "bd" :: _ => true
  | _ => false
  end.

(** The error stream that goes with the commands [cs], run in this order
    after the commands [hist]: nothing for a command of the source tool,
    the report of its answer for a command of the destination tool. *)
Fixpoint stderr_of (env : Env) (hist cs : list Cmd) : list string :=
  match cs with
  | [] => []
  | c :: cs' =>
      ((if is_source_cmd c then [] else report_of (flowctl_py env hist c))
       ++ stderr_of env (hist ++ [c]) cs')%list
  end.

(** The error stream of [m] is the one that goes with the commands it
    runs. *)
Definition tracked (env : Env) {A} (m : M A) : Prop :=
  forall st, exists cs,
    calls (snd (m st)) = (calls st ++ cs)%list
    /\ err (snd (m st)) = (err st ++ stderr_of env (calls st) cs)%list.

(** The log [log] holds the creation command with the arguments [args], and
    the destination tool answered it with a true [success] flag and the id
    [v]. *)
Definition answered_in (env : Env) (log : list Cmd) (args : list string)
    (v : string) : Prop :=
  exists hist later,
    log = (hist ++ flowctl_cmd args :: later)%list
    /\ answered (flowctl_returns env hist args) v.

(** The creation commands that the script issues for the bead id [k]: the
    creation of an epic with the title of the epic or of a standalone bead
    of that id, or the creation of a task with the title and priority of a
    subtask of that id. *)
Definition made_for (epics : Dict.t Bead) (subtasks : Dict.t (list Bead))
    (standalone : list Bead) (k : string) (args : list string) : Prop :=
  (exists b, (Dict.get epics k = Some b \/ In b standalone /\ id b = k)
             /\ args = epic_create_args (title b))
  \/ (exists parent ts t fe,
        In (parent, ts) subtasks /\ In t ts /\ id t = k
        /\ args = task_create_args fe t).

(** Every entry of [m] is the pre-mapped one or holds the answer to a
    creation command of [log] made for its key. *)
Definition sourced (env : Env) (made : string -> list string -> Prop)
    (m : Dict.t string) (log : list Cmd) : Prop :=
  forall k v, Dict.get m k = Some v ->
    k = "gno-ub9" /\ v = "fn-1"
    \/ exists args, made k args /\ answered_in env log args v.

(** The source tool showed the record [b] first when asked for [bid]. *)
Definition shown_first (env : Env) (bid : string) (b : Bead) : Prop :=
  exists hist data, stdout (bd env hist (bd_show_cmd bid)) = Json (b :: data).

(** Every command of [cs], run in this order after the commands [hist],
    satisfies [ok] with the commands run before it. *)
Fixpoint placed (ok : list Cmd -> Cmd -> Prop) (hist cs : list Cmd) : Prop :=
  match cs with
  | [] => True
  | c :: cs' => ok hist c /\ placed ok (hist ++ [c]) cs'
  end.

(** [fe] is the destination id that goes with the bead id [p] when the log
    is [log]: the pre-mapped one, or the answer to a creation command of
    the log made for [p]. *)
Definition parent_id_of (env : Env) (made : string -> list string -> Prop)
    (p fe : string) (log : list Cmd) : Prop :=
  p = "gno-ub9" /\ fe = "fn-1"
  \/ exists args, made p args /\ answered_in env log args fe.

(** What holds of a task-creation command [c] run after [hist]: the single
    task of a standalone bead comes right after the creation of an epic
    with that bead's title and goes under the id answered to it; the task
    of a subtask goes under the destination id of the parent of a subtask
    with that title and priority. *)
Definition task_placed (env : Env) (subtasks : Dict.t (list Bead))
    (made : string -> list string -> Prop) (hist : list Cmd) (c : Cmd) : Prop :=
  (forall fe ttl, c = flowctl_cmd (standalone_task_args fe ttl) ->
     exists hist0 ttl0,
       hist = (hist0 ++ [flowctl_cmd (epic_create_args ttl0)])%list
       /\ answered (flowctl_returns env hist0 (epic_create_args ttl0)) fe
       /\ PyStr.take 50 ttl = PyStr.take 50 ttl0)
  /\ (forall fe t, c = flowctl_cmd (task_create_args fe t) ->
     exists p ts t',
       In (p, ts) subtasks /\ In t' ts
       /\ task_create_args fe t' = task_create_args fe t
       /\ parent_id_of env made p fe hist).

(** The argument lists with which the script asks for a task. *)
Definition is_task_args (args : list string) : Prop :=
  (exists fe ttl, args = standalone_task_args fe ttl)
  \/ (exists fe t, args = task_create_args fe t).

(** The file [f] is the mapping, or is named after an id that the
    destination tool answered, with a true [success] flag, to a command of
    [log]: a spec after the answer to the creation of an epic, a task file
    after the answer to the creation of a task. *)
Definition file_from (env : Env) (log : list Cmd) (f : string * Content) : Prop :=
  (exists m, f = (mapping_path, JsonDump m))
  \/ (exists ttl fid s,
        answered_in env log (epic_create_args ttl) fid
        /\ f = (".flow/specs/" ++ fid ++ ".md", Text s))
  \/ (exists args fid s,
        is_task_args args /\ answered_in env log args fid
        /\ f = (".flow/tasks/" ++ fid ++ ".md", Text s)).

(** Every file that [m] writes is named as [file_from] says, by the log as
    it is when [m] ends. *)
Definition names (env : Env) {A} (m : M A) : Prop :=
  forall st, exists cs fs,
    calls (snd (m st)) = (calls st ++ cs)%list
    /\ files (snd (m st)) = (files st ++ fs)%list
    /\ Forall (file_from env (calls st ++ cs)) fs.

(** * Facts *)

(** ** Dictionaries *)

Module DictFacts.
Import Dict.

Section WithValues.
Context {V : Type}.
Implicit Types (d : Dict.t V) (k : string) (v : V).

Lemma get_set_same d k v : get (set d k v) k = Some v.
Proof.
  induction d as [|[k' v'] d IH]; simpl.
  - now rewrite String.eqb_refl.
  - destruct (k' =? k) eqn:E; simpl; rewrite E; auto.
Qed.

Lemma get_set_other d k k' v : k <> k' -> get (set d k v) k' = get d k'.
Proof.
  intros Hne. induction d as [|[k0 v0] d IH]; simpl.
  - destruct (String.eqb_spec k k'); congruence.
  - destruct (String.eqb_spec k0 k) as [->|Hk]; simpl.
    + destruct (String.eqb_spec k k'); congruence.
    + now rewrite IH.
Qed.

Lemma get_In_keys d k : get d k <> None <-> In k (keys d).
Proof.
  induction d as [|[k' v'] d IH]; simpl.
  - split; [congruence | tauto].
  - destruct (String.eqb_spec k' k) as [->|Hk].
    + split; [auto | congruence].
    + rewrite IH. split; [auto | intros [|]; congruence].
Qed.

Lemma mem_In_keys d k : mem d k = true <-> In k (keys d).
Proof.
  rewrite <- get_In_keys. unfold mem.
  destruct (get d k); split; congruence.
Qed.

Lemma mem_false d k : mem d k = false <-> ~ In k (keys d).
Proof.
  rewrite <- mem_In_keys. destruct (mem d k); split; congruence.
Qed.

Lemma get_In d k v : get d k = Some v -> In (k, v) d.
Proof.
  induction d as [|[k' v'] d IH]; simpl; [congruence|].
  destruct (String.eqb_spec k' k) as [->|Hk].
  - intros [= ->]. now left.
  - auto.
Qed.

Lemma In_get d k v : NoDup (keys d) -> In (k, v) d -> get d k = Some v.
Proof.
  induction d as [|[k' v'] d IH]; simpl; [tauto|].
  intros Hnd [[= -> ->]|Hin].
  - now rewrite String.eqb_refl.
  - inversion Hnd as [|? ? Hnotin Hnd']; subst.
    destruct (String.eqb_spec k' k) as [->|Hk]; auto.
    exfalso. apply Hnotin. change (In (fst (k, v)) (map fst d)).
    now apply in_map.
Qed.

(** A new key goes last; an old one keeps its place. *)
Lemma keys_set d k v :
  keys (set d k v) = if mem d k then keys d else (keys d ++ [k])%list.
Proof.
  unfold mem. induction d as [|[k' v'] d IH]; simpl; auto.
  destruct (String.eqb_spec k' k) as [->|Hk]; simpl; auto.
  fold (keys (set d k v)) (keys d). rewrite IH.
  now destruct (get d k).
Qed.

Lemma keys_set_extends d k v : exists ks, keys (set d k v) = (keys d ++ ks)%list.
Proof.
  rewrite keys_set. destruct (mem d k).
  - exists []. now rewrite app_nil_r.
  - now exists [k].
Qed.

Lemma In_keys_set d k v k' : In k' (keys (set d k v)) <-> k' = k \/ In k' (keys d).
Proof.
  rewrite keys_set. destruct (mem d k) eqn:E.
  - apply mem_In_keys in E. split; [auto | intros [->|]; auto].
  - rewrite in_app_iff. simpl. split; [intros [|[|[]]]; auto | intros [|]; auto].
Qed.

Lemma NoDup_keys_set d k v : NoDup (keys d) -> NoDup (keys (set d k v)).
Proof.
  intros Hnd. rewrite keys_set. destruct (mem d k) eqn:E; auto.
  apply mem_false in E.
  apply NoDup_rev in Hnd. rewrite <- (rev_involutive (keys d ++ [k])).
  apply NoDup_rev. rewrite rev_app_distr. simpl. constructor; auto.
  now rewrite <- in_rev.
Qed.

End WithValues.

End DictFacts.

(** ** Strings *)

Module PyStrFacts.
Import PyStr.

Lemma rcut_None sep s : rcut sep s = None <-> contains sep s = false.
Proof.
  induction s as [|a s IH]; simpl; [tauto|].
  destruct (rcut sep s) as [[p q]|].
  - destruct IH as [_ IH]. split; [discriminate|].
    intros H. apply orb_false_elim in H. destruct H as [_ H].
    now apply IH in H.
  - destruct IH as [IH _]. rewrite (IH eq_refl), orb_false_r.
    destruct (Ascii.eqb a sep); split; congruence.
Qed.

(** The cut is at a separator and nothing after it is one. *)
Lemma rcut_Some sep s p q :
  rcut sep s = Some (p, q) -> s = p ++ String sep q /\ contains sep q = false.
Proof.
  revert p q. induction s as [|a s IH]; simpl; [discriminate|].
  intros p q. destruct (rcut sep s) as [[p' q']|] eqn:E.
  - intros [= <- <-]. destruct (IH _ _ eq_refl) as [-> Hq]. auto.
  - destruct (Ascii.eqb_spec a sep) as [->|]; [|discriminate].
    intros [= <- <-]. split; auto. now apply rcut_None.
Qed.

Lemma rcut_app sep p q :
  contains sep q = false -> rcut sep (p ++ String sep q) = Some (p, q).
Proof.
  intros Hq. induction p as [|a p IH]; simpl.
  - apply rcut_None in Hq. now rewrite Hq, Ascii.eqb_refl.
  - now rewrite IH.
Qed.

Lemma contains_rcut sep s :
  contains sep s = true -> exists p q, rcut sep s = Some (p, q).
Proof.
  intros H. destruct (rcut sep s) as [[p q]|] eqn:E; eauto.
  apply rcut_None in E. congruence.
Qed.

Lemma rsplit1_not_nil sep s : rsplit1 sep s <> [].
Proof. unfold rsplit1. now destruct (rcut sep s) as [[p q]|]. Qed.

(** [int] at the edges of its grammar: signs, underscores, the whitespace
    that it skips and the separators that it does not, and the limit on
    the number of digits. *)
Example int_edges :
  int "7" = Some 7%Z /\ int " +1_0 " = Some 10%Z /\ int "-03" = Some (-3)%Z
  /\ int (String (ascii_of_nat 133) "1") = Some 1%Z
  /\ int (String (ascii_of_nat 160) "1") = Some 1%Z
  /\ int (String (ascii_of_nat 28) "1") = None
  /\ int (String "1" (String (ascii_of_nat 31) EmptyString)) = None
  /\ int "1__0" = None /\ int "_1" = None /\ int "1_" = None
  /\ int "+ 1" = None /\ int EmptyString = None /\ int "x" = None.
Proof. vm_compute. repeat split. Qed.

Example int_digit_limit :
  int (String.concat EmptyString (List.repeat "0" 4300)) = Some 0%Z
  /\ int (String.concat EmptyString (List.repeat "0" 4301)) = None
  /\ int (String.concat EmptyString ("1" :: List.repeat "0" 4300)) = None.
Proof. vm_compute. repeat split. Qed.

End PyStrFacts.

(** ** Categorising the fetched beads (lines 48-63) *)

Section Classify.
Import Dict DictFacts.

(** The effect of one round on the [subtasks] dictionary. *)
Lemma classify_step_subtasks e sub sa b :
  PyStr.contains "." (id b) = true ->
  classify_step (e, sub, sa) b =
    (e, set sub (parent_of (id b)) (get_or (get sub (parent_of (id b))) [] ++ [b])%list, sa)
  \/ classify_step (e, sub, sa) b =
    (e, set (set sub (parent_of (id b)) []) (parent_of (id b)) [b], sa)
     /\ get sub (parent_of (id b)) = None.
Proof.
  intros Hdot. unfold classify_step. rewrite Hdot.
  unfold mem. destruct (get sub (parent_of (id b))) eqn:E; simpl.
  - left. now rewrite E.
  - right. now rewrite get_set_same.
Qed.

Lemma classify_step_get e sub sa b :
  PyStr.contains "." (id b) = true ->
  exists sub',
    classify_step (e, sub, sa) b = (e, sub', sa)
    /\ get sub' (parent_of (id b))
       = Some (get_or (get sub (parent_of (id b))) [] ++ [b])%list
    /\ (forall p, p <> parent_of (id b) -> get sub' p = get sub p)
    /\ (NoDup (keys sub) -> NoDup (keys sub')).
Proof.
  intros Hdot.
  destruct (classify_step_subtasks e sub sa b Hdot) as [-> | [-> Hnone]];
    eexists; split; try reflexivity.
  - split; [apply get_set_same|]. split.
    + intros p Hp. now apply get_set_other.
    + apply NoDup_keys_set.
  - rewrite Hnone. split; [apply get_set_same|]. split.
    + intros p Hp. rewrite !get_set_other; auto.
    + intros H. now do 2 apply NoDup_keys_set.
Qed.

Lemma classified_nil : classified [] ([], [], []).
Proof.
  constructor; simpl; try constructor; try tauto; discriminate.
Qed.

Lemma classified_step seen acc b :
  classified seen acc -> classified (seen ++ [b]) (classify_step acc b).
Proof.
  destruct acc as [[e sub] sa]. intros [He Hs Hc Hsub Hep Hsa Hfull].
  simpl in He, Hs, Hc, Hsub, Hep, Hsa, Hfull.
  destruct (PyStr.contains "." (id b)) eqn:Hdot.
  - destruct (classify_step_get e sub sa b Hdot) as (sub' & -> & Hsame & Hother & Hnd).
    constructor; simpl; auto.
    + intros b' Hin. apply in_app_or in Hin. destruct Hin as [Hin|[<-|[]]].
      * specialize (Hc b' Hin). destruct (PyStr.contains "." (id b')); auto.
        destruct Hc as (ts & Hts & Hbts).
        destruct (string_dec (parent_of (id b')) (parent_of (id b))) as [Heq|Hne].
        -- rewrite Heq, Hsame. rewrite Heq in Hts. rewrite Hts. simpl.
           eexists; split; eauto. apply in_or_app; auto.
        -- rewrite Hother; eauto.
      * rewrite Hdot, Hsame. eexists; split; eauto. apply in_or_app; simpl; auto.
    + intros p ts t Hget Hin.
      destruct (string_dec p (parent_of (id b))) as [->|Hne].
      * rewrite Hsame in Hget. injection Hget as <-.
        apply in_app_or in Hin. destruct Hin as [Hin|[<-|[]]].
        -- destruct (get sub (parent_of (id b))) as [ts0|] eqn:E; simpl in Hin; [|tauto].
           destruct (Hsub _ _ _ E Hin) as (? & ? & ?).
           repeat split; auto. apply in_or_app; auto.
        -- repeat split; auto. apply in_or_app; simpl; auto.
      * rewrite Hother in Hget by auto.
        destruct (Hsub _ _ _ Hget Hin) as (? & ? & ?).
        repeat split; auto. apply in_or_app; auto.
    + intros k b' Hget. destruct (Hep _ _ Hget) as (? & ? & ? & ?).
      repeat split; auto. apply in_or_app; auto.
    + intros s Hin. destruct (Hsa _ Hin) as (? & ? & ?).
      repeat split; auto. apply in_or_app; auto.
    + intros p. destruct (string_dec p (parent_of (id b))) as [->|Hp].
      * rewrite Hsame. intros [= H]. now apply app_eq_nil in H as [_ H].
      * now rewrite Hother.
  - unfold classify_step. rewrite Hdot. destruct (is_epic b) eqn:Hepic.
    + constructor; simpl; auto.
      * now apply NoDup_keys_set.
      * intros b' Hin. apply in_app_or in Hin. destruct Hin as [Hin|[<-|[]]].
        -- specialize (Hc b' Hin). destruct (PyStr.contains "." (id b')); auto.
           destruct (is_epic b'); auto. apply In_keys_set; auto.
        -- rewrite Hdot, Hepic. apply In_keys_set; auto.
      * intros p ts t Hget Hin. destruct (Hsub _ _ _ Hget Hin) as (? & ? & ?).
        repeat split; auto. apply in_or_app; auto.
      * intros k b' Hget. destruct (string_dec (id b) k) as [<-|Hne].
        -- rewrite get_set_same in Hget. injection Hget as <-.
           repeat split; auto. apply in_or_app; simpl; auto.
        -- rewrite get_set_other in Hget by auto.
           destruct (Hep _ _ Hget) as (? & ? & ? & ?).
           repeat split; auto. apply in_or_app; auto.
      * intros s Hin. destruct (Hsa _ Hin) as (? & ? & ?).
        repeat split; auto. apply in_or_app; auto.
    + constructor; simpl; auto.
      * intros b' Hin. apply in_app_or in Hin. destruct Hin as [Hin|[<-|[]]].
        -- specialize (Hc b' Hin). destruct (PyStr.contains "." (id b')); auto.
           destruct (is_epic b'); auto. apply in_or_app; auto.
        -- rewrite Hdot, Hepic. apply in_or_app; simpl; auto.
      * intros p ts t Hget Hin. destruct (Hsub _ _ _ Hget Hin) as (? & ? & ?).
        repeat split; auto. apply in_or_app; auto.
      * intros k b' Hget. destruct (Hep _ _ Hget) as (? & ? & ? & ?).
        repeat split; auto. apply in_or_app; auto.
      * intros s Hin. apply in_app_or in Hin. destruct Hin as [Hin|[<-|[]]].
        -- destruct (Hsa _ Hin) as (? & ? & ?).
           repeat split; auto. apply in_or_app; auto.
        -- repeat split; auto. apply in_or_app; simpl; auto.
Qed.

Lemma classified_fold beads : forall seen acc,
  classified seen acc ->
  classified (seen ++ beads) (fold_left classify_step beads acc).
Proof.
  induction beads as [|b beads IH]; intros seen acc H; simpl.
  - now rewrite app_nil_r.
  - replace (seen ++ b :: beads)%list with ((seen ++ [b]) ++ beads)%list
      by now rewrite <- app_assoc.
    apply IH. now apply classified_step.
Qed.

Lemma classify_classified beads : classified beads (classify beads).
Proof. apply (classified_fold beads [] _ classified_nil). Qed.

End Classify.

(** ** The monad and its effects *)

Section MonadFacts.

Context {A B : Type}.

Lemma bind_Ok (m : M A) (k : A -> M B) st a st1 :
  m st = (Ok a, st1) -> bind m k st = k a st1.
Proof. unfold bind. now intros ->. Qed.

Lemma bind_inv (m : M A) (k : A -> M B) st r st' :
  bind m k st = (r, st') ->
  (exists a st1, m st = (Ok a, st1) /\ k a st1 = (r, st'))
  \/ (exists e, m st = (Raise e, st') /\ r = Raise e).
Proof.
  unfold bind. destruct (m st) as [[a|e] st1]; intros H.
  - left. eauto.
  - right. injection H as <- <-. eauto.
Qed.

Lemma bind_Ok_inv (m : M A) (k : A -> M B) st b st' :
  bind m k st = (Ok b, st') ->
  exists a st1, m st = (Ok a, st1) /\ k a st1 = (Ok b, st').
Proof.
  intros H. apply bind_inv in H. destruct H as [H|(e & _ & H)]; [auto|discriminate].
Qed.

End MonadFacts.

Section ForEach.

Context {X A : Type}.
Variable body : X -> A -> M A.

Lemma for_each_cons x l acc st :
  for_each body (x :: l) acc st
  = match body x acc st with
    | (Ok acc', st') => for_each body l acc' st'
    | (Raise e, st') => (Raise e, st')
    end.
Proof. reflexivity. Qed.

End ForEach.

Section Logs.

Variables (P : Cmd -> Prop) (Q : string * Content -> Prop).

Lemma logs_ret {A} (a : A) : logs P Q (ret a).
Proof. intros st. exists [], []. simpl. now rewrite !app_nil_r. Qed.

Lemma logs_raise {A} e : logs P Q (@raise A e).
Proof. intros st. exists [], []. simpl. now rewrite !app_nil_r. Qed.

Lemma logs_lift {A} (o : outcome A) : logs P Q (lift o).
Proof. intros st. exists [], []. simpl. now rewrite !app_nil_r. Qed.

Lemma logs_print s : logs P Q (print s).
Proof. intros st. exists [], []. simpl. now rewrite !app_nil_r. Qed.

Lemma logs_eprint s : logs P Q (eprint s).
Proof. intros st. exists [], []. simpl. now rewrite !app_nil_r. Qed.

Lemma logs_write_text path c : Q (path, c) -> logs P Q (write_text path c).
Proof. intros H st. exists [], [(path, c)]. simpl. rewrite app_nil_r. auto. Qed.

Lemma logs_bind {A B} (m : M A) (k : A -> M B) :
  logs P Q m -> (forall a, logs P Q (k a)) -> logs P Q (bind m k).
Proof.
  intros Hm Hk st. unfold bind.
  destruct (Hm st) as (cs & fs & Hc & Hf & HP & HQ).
  destruct (m st) as [[a|e] st1]; simpl in *.
  - destruct (Hk a st1) as (cs' & fs' & Hc' & Hf' & HP' & HQ').
    exists (cs ++ cs')%list, (fs ++ fs')%list.
    rewrite Hc', Hf', Hc, Hf, !app_assoc.
    repeat split; auto; apply Forall_app; auto.
  - exists cs, fs. auto.
Qed.

Lemma logs_for_each {X A} (body : X -> A -> M A) l :
  (forall x acc, In x l -> logs P Q (body x acc)) ->
  forall acc, logs P Q (for_each body l acc).
Proof.
  induction l as [|x l IH]; intros Hbody acc; simpl.
  - apply logs_ret.
  - apply logs_bind.
    + apply Hbody. now left.
    + intros a. apply IH. intros; apply Hbody. now right.
Qed.

Lemma logs_run_bd env cmd : P cmd -> logs P Q (run_bd env cmd).
Proof. intros H st. exists [cmd], []. simpl. rewrite app_nil_r. auto. Qed.

End Logs.

Lemma logs_weaken {A} (P P' : Cmd -> Prop) (Q Q' : string * Content -> Prop) (m : M A) :
  (forall c, P c -> P' c) -> (forall f, Q f -> Q' f) -> logs P Q m -> logs P' Q' m.
Proof.
  intros HP HQ H st. destruct (H st) as (cs & fs & Hc & Hf & H1 & H2).
  exists cs, fs. repeat split; auto; eapply Forall_impl; eauto.
Qed.

(** ** The destination tool *)

Section Flowctl.

Variable env : Env.

(** [flowctl] never raises: it returns [flowctl_returns] and leaves one
    command in the log. *)
Lemma flowctl_run args st :
  flowctl env args st
  = (Ok (flowctl_returns env (calls st) args), after_flowctl env args st).
Proof.
  unfold flowctl, after_flowctl, flowctl_returns, flowctl_report, bind, run_flowctl.
  simpl.
  destruct (negb (returncode (flowctl_py env (calls st) (flowctl_cmd args)) =? 0)%Z);
    simpl.
  - reflexivity.
  - destruct (stdout (flowctl_py env (calls st) (flowctl_cmd args))); simpl.
    + reflexivity.
    + now rewrite app_nil_r.
Qed.

Lemma logs_flowctl (P : Cmd -> Prop) Q args :
  P (flowctl_cmd args) -> logs P Q (flowctl env args).
Proof.
  intros H st. rewrite flowctl_run. exists [flowctl_cmd args], []. simpl.
  rewrite app_nil_r. auto.
Qed.

End Flowctl.

(** ** Sorting the tasks of an epic (line 172) *)

Section Sorting.

Lemma insert_keyed_perm x l : Permutation (x :: l) (insert_keyed x l).
Proof.
  induction l as [|y l IH]; simpl; auto.
  destruct (fst x <=? fst y)%Z; auto.
  etransitivity; [apply perm_swap|]. now apply perm_skip.
Qed.

Lemma sort_keyed_perm l : Permutation l (sort_keyed l).
Proof.
  induction l as [|x l IH]; simpl; auto.
  etransitivity; [|apply insert_keyed_perm]. now apply perm_skip.
Qed.

Lemma insert_keyed_sorted x l :
  StronglySorted key_le l -> StronglySorted key_le (insert_keyed x l).
Proof.
  induction 1 as [|y l Hs IH Hall]; simpl.
  - repeat constructor.
  - destruct (Z.leb_spec (fst x) (fst y)) as [Hle|Hlt].
    + constructor; [now constructor|]. constructor; auto.
      eapply Forall_impl; [|exact Hall]. unfold key_le. intros; lia.
    + constructor; auto.
      apply (Permutation_Forall (insert_keyed_perm x l)).
      constructor; auto. unfold key_le. lia.
Qed.

Lemma sort_keyed_sorted l : StronglySorted key_le (sort_keyed l).
Proof.
  induction l as [|x l IH]; simpl; [constructor|].
  now apply insert_keyed_sorted.
Qed.

(** Tasks with the same key keep the order they had. *)
Lemma with_key_insert k x l :
  StronglySorted key_le l ->
  with_key k (insert_keyed x l) = with_key k (x :: l).
Proof.
  induction 1 as [|y l Hs IH Hall]; simpl; auto.
  destruct (Z.leb_spec (fst x) (fst y)) as [Hle|Hlt]; auto.
  unfold with_key in *. simpl in *. rewrite IH.
  destruct (Z.eqb_spec (fst x) k) as [Hx|Hx]; auto.
  destruct (Z.eqb_spec (fst y) k) as [Hy|Hy]; auto.
  lia.
Qed.

Lemma sort_keyed_stable k l : with_key k (sort_keyed l) = with_key k l.
Proof.
  induction l as [|x l IH]; simpl; auto.
  rewrite with_key_insert by apply sort_keyed_sorted.
  unfold with_key in *. simpl. now rewrite IH.
Qed.

Lemma keyed_Ok ts kts :
  keyed ts = Ok kts ->
  map snd kts = ts /\ Forall (fun x => sort_key (snd x) = Ok (fst x)) kts.
Proof.
  revert kts. induction ts as [|t ts IH]; simpl; intros kts.
  - intros [= <-]. auto.
  - destruct (sort_key t) as [k|e] eqn:Hk; [|discriminate].
    destruct (keyed ts) as [kts'|e]; [|discriminate].
    intros [= <-]. destruct (IH _ eq_refl) as [Hm Hf]. simpl.
    split; [now rewrite Hm | constructor; auto].
Qed.

Lemma keyed_Raise ts e :
  keyed ts = Raise e -> exists t, In t ts /\ sort_key t = Raise e.
Proof.
  induction ts as [|t ts IH]; simpl; [discriminate|].
  destruct (sort_key t) as [k|e'] eqn:Hk.
  - destruct (keyed ts) as [kts'|e']; [discriminate|].
    intros [= <-]. destruct (IH eq_refl) as (t' & ? & ?). eauto.
  - intros [= <-]. eauto.
Qed.

Lemma sort_tasks_perm ts sorted :
  sort_tasks ts = Ok sorted -> Permutation ts sorted.
Proof.
  unfold sort_tasks. destruct (keyed ts) as [kts|e] eqn:E; [|discriminate].
  intros [= <-]. destruct (keyed_Ok _ _ E) as [<- _].
  apply Permutation_map, sort_keyed_perm.
Qed.

End Sorting.

(** ** The rounds of the three creation loops *)

Section Steps.

Variable env : Env.
Import Dict DictFacts.

Lemma succeeded_answered result :
  succeeded result = true ->
  (exists fid, answered result fid) \/ answered_without_id result.
Proof.
  destruct result as [[[[]|] [fid|]]|]; simpl; try discriminate; intros _.
  - left. exists fid, (mkFlowResult (Some true) (Some fid)). auto.
  - right. eexists; eauto.
Qed.

Lemma answered_without_id_succeeded result :
  answered_without_id result -> succeeded result = true.
Proof. intros (r & -> & Hs & _). simpl. now rewrite Hs. Qed.

Lemma answered_succeeded result fid : answered result fid -> succeeded result = true.
Proof. intros (r & -> & Hs & _). simpl. now rewrite Hs. Qed.

(** *** Epics *)

Lemma epic_step_premapped epics m st :
  epic_step env epics "gno-ub9" m st = (Ok m, st).
Proof. reflexivity. Qed.

Lemma epic_step_missing epics eid m st :
  eid <> "gno-ub9" -> get epics eid = None ->
  epic_step env epics eid m st = (Raise (KeyError eid), st).
Proof.
  intros Hne Hget. unfold epic_step.
  destruct (String.eqb_spec eid "gno-ub9"); [contradiction|].
  now rewrite Hget.
Qed.

Lemma epic_step_skip epics eid epic m st :
  eid <> "gno-ub9" -> get epics eid = Some epic ->
  succeeded (flowctl_returns env (calls st) (epic_create_args (title epic))) = false ->
  epic_step env epics eid m st
  = (Ok m, after_flowctl env (epic_create_args (title epic)) st).
Proof.
  intros Hne Hget Hres. unfold epic_step.
  destruct (String.eqb_spec eid "gno-ub9"); [contradiction|].
  rewrite Hget, (bind_Ok _ _ _ _ _ (flowctl_run env _ st)).
  destruct (flowctl_returns env (calls st) (epic_create_args (title epic))); auto.
  now rewrite Hres.
Qed.

Lemma epic_step_record epics eid epic m st fid :
  eid <> "gno-ub9" -> get epics eid = Some epic ->
  answered (flowctl_returns env (calls st) (epic_create_args (title epic))) fid ->
  epic_step env epics eid m st
  = (Ok (set m eid fid),
     epic_recorded eid epic fid (after_flowctl env (epic_create_args (title epic)) st)).
Proof.
  intros Hne Hget Hres. unfold epic_step.
  destruct (String.eqb_spec eid "gno-ub9"); [contradiction|].
  rewrite Hget, (bind_Ok _ _ _ _ _ (flowctl_run env _ st)).
  pose proof (answered_succeeded _ _ Hres) as Hs.
  destruct Hres as (r & Hr & _ & Hid). rewrite Hr in *. rewrite Hs.
  unfold result_id. rewrite Hid. reflexivity.
Qed.

Lemma epic_step_no_id epics eid epic m st :
  eid <> "gno-ub9" -> get epics eid = Some epic ->
  answered_without_id (flowctl_returns env (calls st) (epic_create_args (title epic))) ->
  epic_step env epics eid m st
  = (Raise (KeyError "id"), after_flowctl env (epic_create_args (title epic)) st).
Proof.
  intros Hne Hget Hres. unfold epic_step.
  destruct (String.eqb_spec eid "gno-ub9"); [contradiction|].
  rewrite Hget, (bind_Ok _ _ _ _ _ (flowctl_run env _ st)).
  pose proof (answered_without_id_succeeded _ Hres) as Hs.
  destruct Hres as (r & Hr & _ & Hid). rewrite Hr in *. rewrite Hs.
  unfold result_id. rewrite Hid. reflexivity.
Qed.

(** The four ways a round of the epic loop can go. *)
Lemma epic_step_cases epics eid m st :
  epic_step env epics eid m st = (Ok m, st) /\ eid = "gno-ub9"
  \/ epic_step env epics eid m st = (Raise (KeyError eid), st)
     /\ eid <> "gno-ub9" /\ get epics eid = None
  \/ exists epic, eid <> "gno-ub9" /\ get epics eid = Some epic /\
     let args := epic_create_args (title epic) in
     (epic_step env epics eid m st = (Ok m, after_flowctl env args st)
      /\ succeeded (flowctl_returns env (calls st) args) = false
      \/ epic_step env epics eid m st
         = (Raise (KeyError "id"), after_flowctl env args st)
         /\ answered_without_id (flowctl_returns env (calls st) args)
      \/ exists fid,
           answered (flowctl_returns env (calls st) args) fid
           /\ epic_step env epics eid m st
              = (Ok (set m eid fid),
                 epic_recorded eid epic fid (after_flowctl env args st))).
Proof.
  destruct (string_dec eid "gno-ub9") as [->|Hne]; [left; auto|right].
  destruct (get epics eid) as [epic|] eqn:Hget.
  - right. exists epic. repeat split; auto. simpl.
    destruct (succeeded (flowctl_returns env (calls st) (epic_create_args (title epic))))
      eqn:Hs.
    + right. destruct (succeeded_answered _ Hs) as [(fid & Hfid)|Hnoid].
      * right. exists fid. split; auto. now apply epic_step_record.
      * left. split; auto. now apply epic_step_no_id.
    + left. split; auto. now apply epic_step_skip.
  - left. split; auto. now apply epic_step_missing.
Qed.

(** *** Standalone beads *)

Lemma standalone_step_skip s m st :
  succeeded (flowctl_returns env (calls st) (epic_create_args (title s))) = false ->
  standalone_step env s m st
  = (Ok m, after_flowctl env (epic_create_args (title s)) st).
Proof.
  intros Hres. unfold standalone_step.
  rewrite (bind_Ok _ _ _ _ _ (flowctl_run env _ st)).
  destruct (flowctl_returns env (calls st) (epic_create_args (title s))); auto.
  now rewrite Hres.
Qed.

(** After the epic of a standalone bead was recorded, its single task is
    requested. *)
Lemma standalone_step_record s m st fid :
  answered (flowctl_returns env (calls st) (epic_create_args (title s))) fid ->
  let st1 := standalone_recorded s fid (after_flowctl env (epic_create_args (title s)) st) in
  let targs := standalone_task_args fid (title s) in
  let tres := flowctl_returns env (calls st1) targs in
  standalone_step env s m st
  = if succeeded tres then
      match tres with
      | Some tr =>
          match flow_id tr with
          | Some task_id =>
              (Ok (set m (id s) fid),
               let st2 := after_flowctl env targs st1 in
               mkState (calls st2)
                 (files st2 ++
                    [(".flow/tasks/" ++ task_id ++ ".md",
                      Text (standalone_task_spec (title s)
                              (get_or (description s) ("# " ++ title s))))])
                 (out st2) (err st2))
          | None => (Raise (KeyError "id"), after_flowctl env targs st1)
          end
      | None => (Ok (set m (id s) fid), after_flowctl env targs st1)
      end
    else (Ok (set m (id s) fid), after_flowctl env targs st1).
Proof.
  intros Hres st1 targs tres. unfold standalone_step.
  rewrite (bind_Ok _ _ _ _ _ (flowctl_run env _ st)).
  pose proof (answered_succeeded _ _ Hres) as Hs.
  destruct Hres as (r & Hr & _ & Hid). rewrite Hr in *. rewrite Hs.
  unfold result_id at 1. rewrite Hid.
  change (bind (lift (Ok fid)) ?k ?s) with (k fid s). cbv beta.
  unfold bind at 1. unfold print at 1. cbv iota beta.
  unfold bind at 1. unfold write_spec at 1, write_text at 1. cbv iota beta.
  fold st1.
  change (mkState _ _ _ _) with st1 at 1.
  rewrite (bind_Ok _ _ _ _ _ (flowctl_run env _ st1)). fold targs tres.
  destruct tres as [tr|] eqn:Etres; [|reflexivity].
  destruct (succeeded (Some tr)); [|reflexivity].
  unfold result_id. destruct (flow_id tr); reflexivity.
Qed.

(** *** Tasks *)

Lemma task_step_skip fe t m st :
  succeeded (flowctl_returns env (calls st) (task_create_args fe t)) = false ->
  task_step env fe t m st = (Ok m, after_flowctl env (task_create_args fe t) st).
Proof.
  intros Hres. unfold task_step.
  rewrite (bind_Ok _ _ _ _ _ (flowctl_run env _ st)).
  destruct (flowctl_returns env (calls st) (task_create_args fe t)); auto.
  now rewrite Hres.
Qed.

Lemma task_step_record fe t m st fid :
  answered (flowctl_returns env (calls st) (task_create_args fe t)) fid ->
  task_step env fe t m st
  = (Ok (set m (id t) fid),
     task_recorded t fid (after_flowctl env (task_create_args fe t) st)).
Proof.
  intros Hres. unfold task_step.
  rewrite (bind_Ok _ _ _ _ _ (flowctl_run env _ st)).
  pose proof (answered_succeeded _ _ Hres) as Hs.
  destruct Hres as (r & Hr & _ & Hid). rewrite Hr in *. rewrite Hs.
  unfold result_id. rewrite Hid. reflexivity.
Qed.

Lemma task_step_no_id fe t m st :
  answered_without_id (flowctl_returns env (calls st) (task_create_args fe t)) ->
  task_step env fe t m st
  = (Raise (KeyError "id"), after_flowctl env (task_create_args fe t) st).
Proof.
  intros Hres. unfold task_step.
  rewrite (bind_Ok _ _ _ _ _ (flowctl_run env _ st)).
  pose proof (answered_without_id_succeeded _ Hres) as Hs.
  destruct Hres as (r & Hr & _ & Hid). rewrite Hr in *. rewrite Hs.
  unfold result_id. rewrite Hid. reflexivity.
Qed.

(** The three ways a round of the task loop can go. *)
Lemma task_step_cases fe t m st :
  let args := task_create_args fe t in
  task_step env fe t m st = (Ok m, after_flowctl env args st)
  /\ succeeded (flowctl_returns env (calls st) args) = false
  \/ task_step env fe t m st = (Raise (KeyError "id"), after_flowctl env args st)
     /\ answered_without_id (flowctl_returns env (calls st) args)
  \/ exists fid,
       answered (flowctl_returns env (calls st) args) fid
       /\ task_step env fe t m st
          = (Ok (set m (id t) fid), task_recorded t fid (after_flowctl env args st)).
Proof.
  simpl.
  destruct (succeeded (flowctl_returns env (calls st) (task_create_args fe t))) eqn:Hs.
  - right. destruct (succeeded_answered _ Hs) as [(fid & Hfid)|Hnoid].
    + right. exists fid. split; auto. now apply task_step_record.
    + left. split; auto. now apply task_step_no_id.
  - left. split; auto. now apply task_step_skip.
Qed.

(** *** Groups of subtasks *)

Lemma group_step_warn parent tasks m st :
  get m parent = None \/ get m parent = Some "" ->
  group_step env (parent, tasks) m st
  = (Ok m, mkState (calls st) (files st)
             (out st ++ ["Warning: No flow epic for " ++ parent]) (err st)).
Proof. intros [H|H]; unfold group_step; rewrite H; reflexivity. Qed.

Lemma group_step_run parent tasks m st fe :
  get m parent = Some fe -> fe <> "" ->
  group_step env (parent, tasks) m st
  = let st1 := mkState (calls st) (files st)
                 (out st ++ [PyStr.nl ++ parent ++ " (" ++ fe ++ "):"]) (err st) in
    match sort_tasks tasks with
    | Ok sorted => for_each (task_step env fe) sorted m st1
    | Raise e => (Raise e, st1)
    end.
Proof.
  intros H Hne. unfold group_step. rewrite H.
  destruct fe as [|a fe]; [congruence|].
  unfold bind at 1. unfold print at 1. cbv iota beta.
  unfold bind at 1, lift at 1. destruct (sort_tasks tasks); reflexivity.
Qed.

End Steps.

(** ** The source tool *)

Section SourceFailures.

Variable env : Env.

(** [get_beads] gives the output to [json.loads] without looking at the
    exit status and without a handler. *)
Lemma get_beads_run st :
  get_beads env st
  = (json_loads (stdout (bd env (calls st) bd_list_cmd)),
     mkState (calls st ++ [bd_list_cmd]) (files st) (out st) (err st)).
Proof.
  unfold get_beads, bind, run_bd, lift. simpl.
  now destruct (json_loads (stdout (bd env (calls st) bd_list_cmd))).
Qed.

Lemma get_beads_Json st beads :
  stdout (bd env (calls st) bd_list_cmd) = Json beads ->
  get_beads env st
  = (Ok beads, mkState (calls st ++ [bd_list_cmd]) (files st) (out st) (err st)).
Proof. intros H. now rewrite get_beads_run, H. Qed.

Lemma get_beads_Ok_inv st beads st' :
  get_beads env st = (Ok beads, st') ->
  stdout (bd env (calls st) bd_list_cmd) = Json beads
  /\ st' = mkState (calls st ++ [bd_list_cmd]) (files st) (out st) (err st).
Proof.
  rewrite get_beads_run.
  destruct (stdout (bd env (calls st) bd_list_cmd)); simpl; [discriminate|].
  intros [= -> <-]. auto.
Qed.

Lemma get_bead_run bid st :
  get_bead env bid st
  = (match json_loads (stdout (bd env (calls st) (bd_show_cmd bid))) with
     | Ok data => Ok (hd_error data)
     | Raise e => Raise e
     end,
     mkState (calls st ++ [bd_show_cmd bid]) (files st) (out st) (err st)).
Proof.
  unfold get_bead, bind, run_bd, lift, ret. simpl.
  now destruct (json_loads (stdout (bd env (calls st) (bd_show_cmd bid)))).
Qed.

(** Discovery, when the listing parses. *)
Lemma discover_Json st beads :
  stdout (bd env (calls st) bd_list_cmd) = Json beads ->
  discover env st
  = match find_implicit_epics env (snd (fst (classify beads)))
            (fst (fst (classify beads))) (snd (classify beads))
            (mkState (calls st ++ [bd_list_cmd]) (files st) (out st) (err st)) with
    | (Ok (epics, standalone), st1) =>
        (Ok (epics, snd (fst (classify beads)), standalone), st1)
    | (Raise e, st1) => (Raise e, st1)
    end.
Proof.
  intros H. unfold discover.
  rewrite (bind_Ok _ _ _ _ _ (get_beads_Json st beads H)).
  destruct (classify beads) as [[e sub] sa]. simpl. unfold bind.
  destruct (find_implicit_epics env sub e sa _) as [[[e' sa']|x] st1]; reflexivity.
Qed.

Lemma discover_Ok_inv st epics subtasks standalone st1 :
  discover env st = (Ok (epics, subtasks, standalone), st1) ->
  exists beads,
    stdout (bd env (calls st) bd_list_cmd) = Json beads
    /\ subtasks = snd (fst (classify beads))
    /\ find_implicit_epics env subtasks
         (fst (fst (classify beads))) (snd (classify beads))
         (mkState (calls st ++ [bd_list_cmd]) (files st) (out st) (err st))
       = (Ok (epics, standalone), st1).
Proof.
  intros H. unfold discover in H. apply bind_Ok_inv in H.
  destruct H as (beads & st0 & Hget & H).
  apply get_beads_Ok_inv in Hget. destruct Hget as [Hjson ->].
  exists beads. split; auto.
  destruct (classify beads) as [[e sub] sa]. simpl.
  apply bind_Ok_inv in H. destruct H as ([e' sa'] & st2 & Hfind & H).
  injection H as <- <- <- <-. auto.
Qed.

End SourceFailures.


(** ** What the phases run and write *)

Ltac logs_step :=
  match goal with
  | |- logs _ _ (bind _ _) => apply logs_bind; [|intros ?]
  | |- logs _ _ (ret _) => apply logs_ret
  | |- logs _ _ (raise _) => apply logs_raise
  | |- logs _ _ (lift _) => apply logs_lift
  | |- logs _ _ (print _) => apply logs_print
  | |- logs _ _ (eprint _) => apply logs_eprint
  | |- logs _ _ (write_spec _ _) => apply logs_write_text
  | |- logs _ _ (write_text _ _) => apply logs_write_text
  | |- logs _ _ (flowctl _ _) => apply logs_flowctl
  | |- logs _ _ (match ?x with _ => _ end) => destruct x
  end.

Lemma spec_file_not_mapping fid c : not_mapping (".flow/specs/" ++ fid ++ ".md", c).
Proof. unfold not_mapping, mapping_path. simpl. discriminate. Qed.

Lemma task_file_not_mapping fid c : not_mapping (".flow/tasks/" ++ fid ++ ".md", c).
Proof. unfold not_mapping, mapping_path. simpl. discriminate. Qed.

#[local] Hint Resolve spec_file_not_mapping task_file_not_mapping : core.

Section PhaseLogs.

Variable env : Env.

Lemma logs_epic_step epics eid m :
  logs is_epic_cmd not_mapping (epic_step env epics eid m).
Proof.
  unfold epic_step. repeat logs_step; auto; now eexists.
Qed.

Lemma logs_create_epics epics order m :
  logs is_epic_cmd not_mapping (create_epics env epics order m).
Proof.
  apply logs_for_each. intros; apply logs_epic_step.
Qed.

Lemma logs_standalone_step s m :
  logs (fun c => is_epic_cmd c
                 \/ exists fe, c = flowctl_cmd (standalone_task_args fe (title s)))
    not_mapping (standalone_step env s m).
Proof.
  unfold standalone_step. repeat logs_step; auto.
  - left. now eexists.
  - right. now eexists.
Qed.

Lemma logs_task_step fe t m :
  logs (fun c => c = flowctl_cmd (task_create_args fe t)) not_mapping
    (task_step env fe t m).
Proof.
  unfold task_step. repeat logs_step; auto.
Qed.

End PhaseLogs.

(** ** The order of the epics (lines 78-82) *)

Section EpicOrder.

Variable epics : Dict.t Bead.

Lemma order_fold_incl l : forall init, incl init (fold_left order_add l init).
Proof.
  induction l as [|k l IH]; intros init x Hx; simpl; auto.
  apply IH. unfold order_add. destruct (negb _); auto. apply in_or_app; auto.
Qed.

Lemma order_fold_keys l : forall init k, In k l -> In k (fold_left order_add l init).
Proof.
  induction l as [|k' l IH]; intros init k Hk; [destruct Hk|].
  destruct Hk as [->|Hin]; simpl; auto.
  apply order_fold_incl. unfold order_add.
  destruct (existsb (String.eqb k) init) eqn:E; simpl.
  - apply existsb_exists in E. destruct E as (x & Hx & Heq).
    apply String.eqb_eq in Heq. now subst.
  - apply in_or_app; simpl; auto.
Qed.

Lemma order_fold_sound l : forall init k,
  In k (fold_left order_add l init) -> In k init \/ In k l.
Proof.
  induction l as [|k' l IH]; intros init k H; simpl in *; auto.
  apply IH in H. destruct H as [H|H]; auto.
  unfold order_add in H. destruct (negb _); auto.
  apply in_app_or in H. destruct H as [H|[<-|[]]]; auto.
Qed.

Lemma epic_order_preferred k : In k preferred -> In k (epic_order_of epics).
Proof. apply order_fold_incl. Qed.

Lemma epic_order_keys k : In k (Dict.keys epics) -> In k (epic_order_of epics).
Proof. apply order_fold_keys. Qed.

Lemma epic_order_sound k :
  In k (epic_order_of epics) -> In k preferred \/ In k (Dict.keys epics).
Proof. apply order_fold_sound. Qed.

End EpicOrder.

(** ** The run after discovery, phase by phase *)

Section Migrate.

Variable env : Env.
Import Dict.

Lemma bind_print {A} s (k : unit -> M A) st :
  bind (print s) k st = k tt (printed s st).
Proof. reflexivity. Qed.

Lemma migrate_unfold epics subtasks standalone st :
  migrate env (epics, subtasks, standalone) st
  = match create_epics env epics (epic_order_of epics)
            (set [] "gno-ub9" "fn-1") (announced st) with
    | (Raise e, st1) => (Raise e, st1)
    | (Ok m1, st1) =>
        match create_standalone env standalone m1
                (printed (PyStr.nl ++ "=== Creating Standalone Epics ===") st1) with
        | (Raise e, st2) => (Raise e, st2)
        | (Ok m2, st2) =>
            match create_tasks env subtasks m2
                    (printed (PyStr.nl ++ "=== Creating Tasks Under Epics ===") st2) with
            | (Raise e, st3) => (Raise e, st3)
            | (Ok m3, st3) =>
                (Ok tt,
                 mkState (calls st3)
                   (files st3 ++ [(mapping_path, JsonDump m3)])
                   (out st3 ++
                      [PyStr.nl ++ "=== Migration complete ===";
                       "Mapping saved to " ++ mapping_path;
                       "Epics: " ++ PyStr.str
                          (count_keys (fun k => negb (PyStr.contains "." k)) m3);
                       "Tasks: " ++ PyStr.str (count_keys (PyStr.contains ".") m3)])
                   (err st3))
            end
        end
    end.
Proof.
  unfold migrate. rewrite !bind_print. fold (announced st).
  unfold bind at 1.
  destruct (create_epics env epics (epic_order_of epics) _ (announced st))
    as [[m1|e] st1]; [|reflexivity].
  rewrite bind_print. unfold bind at 1.
  destruct (create_standalone env standalone m1 _) as [[m2|e] st2]; [|reflexivity].
  rewrite bind_print. unfold bind at 1.
  destruct (create_tasks env subtasks m2 _) as [[m3|e] st3]; [|reflexivity].
  unfold bind, write_text, print. simpl.
  now rewrite <- !app_assoc.
Qed.

Lemma create_epics_aborts epics order : forall m st,
  (exists p, In p order /\ p <> "gno-ub9" /\ get epics p = None) ->
  exists k st',
    create_epics env epics order m st = (Raise (KeyError k), st')
    /\ (k = "id"
          /\ (exists hist args, answered_without_id (flowctl_returns env hist args))
        \/ In k order /\ k <> "gno-ub9" /\ get epics k = None).
Proof.
  unfold create_epics.
  induction order as [|eid rest IH]; intros m st (p & Hin & Hne & Hget);
    [destruct Hin|].
  rewrite for_each_cons.
  destruct (epic_step_cases env epics eid m st)
    as [[Hstep ->] | [(Hstep & Hne' & Hget') | (epic & Hne' & Hget' & Hcases)]].
  - rewrite Hstep. destruct Hin as [<-|Hin]; [congruence|].
    destruct (IH m st) as (k & st' & Hrun & Hk); [eauto|].
    exists k, st'. split; auto. destruct Hk as [|(? & ? & ?)]; auto.
    right. repeat split; auto. now right.
  - rewrite Hstep. exists eid, st. split; auto. right. repeat split; auto. now left.
  - assert (Hrest : exists p, In p rest /\ p <> "gno-ub9" /\ get epics p = None).
    { exists p. repeat split; auto. destruct Hin as [<-|]; [congruence|auto]. }
    simpl in Hcases.
    destruct Hcases as [[Hstep _] | [[Hstep Hnoid] | (fid & _ & Hstep)]]; rewrite Hstep.
    + destruct (IH m (after_flowctl env (epic_create_args (title epic)) st) Hrest)
        as (k & st' & Hrun & Hk).
      exists k, st'. split; eauto. destruct Hk as [|(? & ? & ?)]; auto.
      right. repeat split; auto. now right.
    + eexists _, _. split; eauto 6.
    + destruct (IH (set m eid fid)
                  (epic_recorded eid epic fid
                     (after_flowctl env (epic_create_args (title epic)) st)) Hrest)
        as (k & st' & Hrun & Hk).
      exists k, st'. split; eauto. destruct Hk as [|(? & ? & ?)]; auto.
      right. repeat split; auto. now right.
Qed.

(** Discovery runs the source tool only and writes nothing. *)
Lemma logs_get_bead bid : logs is_bd (fun _ => False) (get_bead env bid).
Proof.
  unfold get_bead. repeat logs_step. apply logs_run_bd. right. now eexists.
Qed.

Lemma logs_discover : logs is_bd (fun _ => False) (discover env).
Proof.
  unfold discover. logs_step.
  - unfold get_beads. repeat logs_step. apply logs_run_bd. now left.
  - destruct (classify a) as [[e sub] sa]. logs_step; [|repeat logs_step].
    unfold find_implicit_epics. apply logs_for_each.
    intros parent [e' sa'] _. unfold implicit_step.
    destruct (negb (mem e' parent)); [|apply logs_ret].
    logs_step; [apply logs_get_bead|]. repeat logs_step.
Qed.

Lemma discover_files st : files (snd (discover env st)) = files st.
Proof.
  destruct (logs_discover st) as (cs & fs & _ & Hf & _ & HQ).
  rewrite Hf. destruct fs as [|f fs]; [apply app_nil_r|].
  inversion HQ; contradiction.
Qed.

End Migrate.

(** ** Finding the implicit epics (lines 65-72) *)

Section Implicit.

Variable env : Env.
Import Dict DictFacts.

Lemma implicit_step_known parent e sa st :
  mem e parent = true -> implicit_step env parent (e, sa) st = (Ok (e, sa), st).
Proof. intros H. unfold implicit_step. now rewrite H. Qed.

Lemma implicit_step_fetch parent e sa st :
  mem e parent = false ->
  implicit_step env parent (e, sa) st
  = (match stdout (bd env (calls st) (bd_show_cmd parent)) with
     | NotJson raw => Raise (JSONDecodeError raw)
     | Json [] => Ok (e, sa)
     | Json (pb :: _) =>
         Ok (set e parent pb, filter (fun s => negb (id s =? parent)) sa)
     end,
     after_bd (bd_show_cmd parent) st).
Proof.
  intros H. unfold implicit_step. rewrite H. simpl.
  unfold bind. rewrite get_bead_run. fold (after_bd (bd_show_cmd parent) st).
  destruct (stdout (bd env (calls st) (bd_show_cmd parent))) as [raw|[|pb data]];
    reflexivity.
Qed.

(** A round keeps the epics it had, adds at most [parent], and only
    removes beads named [parent] from [standalone]. *)
Lemma implicit_step_Ok parent e sa st e' sa' st' :
  implicit_step env parent (e, sa) st = (Ok (e', sa'), st') ->
  (forall k, In k (keys e) -> In k (keys e'))
  /\ (forall k, In k (keys e') -> k = parent \/ In k (keys e))
  /\ (forall k, k <> parent -> get e' k = get e k)
  /\ (NoDup (keys e) -> NoDup (keys e'))
  /\ (forall s, In s sa' -> In s sa)
  /\ (forall s, In s sa -> In s sa' \/ id s = parent /\ In parent (keys e'))
  /\ (In parent (keys e') -> In parent (keys e) \/ ~ In parent (map id sa')).
Proof.
  destruct (mem e parent) eqn:Hmem.
  - rewrite implicit_step_known by auto. intros [= <- <- <-].
    apply mem_In_keys in Hmem. repeat split; auto.
  - rewrite implicit_step_fetch by auto.
    destruct (stdout (bd env (calls st) (bd_show_cmd parent))) as [raw|[|pb data]];
      intros [= <- <- <-].
    + repeat split; auto.
    + repeat split.
      * intros k Hk. apply In_keys_set; auto.
      * intros k Hk. now apply In_keys_set in Hk.
      * intros k Hk. apply get_set_other; auto.
      * apply NoDup_keys_set.
      * intros s Hs. now apply filter_In in Hs.
      * intros s Hs. destruct (String.eqb_spec (id s) parent) as [Heq|Hne].
        -- right. split; auto. apply In_keys_set; auto.
        -- left. apply filter_In. split; auto.
           now destruct (String.eqb_spec (id s) parent).
      * intros _. right. intros Hin. apply in_map_iff in Hin.
        destruct Hin as (s & Hid & Hs). apply filter_In in Hs.
        destruct Hs as [_ Hs]. rewrite Hid, String.eqb_refl in Hs. discriminate.
Qed.

(** The whole loop, over parents without repetition: the commands run are
    the fetches of the parents that were not epics at the start. *)
Lemma find_implicit_Ok l : forall e sa st e' sa' st',
  NoDup l ->
  for_each (implicit_step env) l (e, sa) st = (Ok (e', sa'), st') ->
  calls st' = (calls st
               ++ map bd_show_cmd (filter (fun p => negb (mem e p)) l))%list
  /\ files st' = files st
  /\ (forall k, In k (keys e) -> In k (keys e'))
  /\ (forall k, In k (keys e') -> In k l \/ In k (keys e))
  /\ (NoDup (keys e) -> NoDup (keys e'))
  /\ (forall s, In s sa' -> In s sa)
  /\ (forall s, In s sa -> In s sa' \/ In (id s) (keys e'))
  /\ (forall p, In p l -> In p (keys e') ->
        In p (keys e) \/ ~ In p (map id sa')).
Proof.
  induction l as [|p l IH]; intros e sa st e' sa' st' Hnd Hrun.
  - injection Hrun as <- <- <-. simpl. rewrite app_nil_r.
    repeat split; auto.
  - inversion Hnd as [|? ? Hnotin Hnd']; subst.
    rewrite for_each_cons in Hrun.
    destruct (implicit_step env p (e, sa) st) as [[[e1 sa1]|x] st1] eqn:Hstep;
      [|discriminate].
    destruct (implicit_step_Ok _ _ _ _ _ _ _ Hstep)
      as (Hk1 & Hk2 & Hk3 & Hk4 & Hs1 & Hs2 & Hs3).
    destruct (IH _ _ _ _ _ _ Hnd' Hrun)
      as (Hc & Hf & Hi1 & Hi2 & Hi3 & Hi4 & Hi5 & Hi6).
    assert (Hfilter : filter (fun q => negb (mem e1 q)) l
                      = filter (fun q => negb (mem e q)) l).
    { apply filter_ext_in. intros q Hq. unfold mem.
      rewrite Hk3; auto. intros ->. contradiction. }
    assert (Hst1 : calls st1
                   = (calls st ++ map bd_show_cmd
                                    (if negb (mem e p) then [p] else []))%list
                   /\ files st1 = files st).
    { destruct (mem e p) eqn:Hmem.
      - rewrite implicit_step_known in Hstep by auto.
        injection Hstep as <- <- <-. simpl. now rewrite app_nil_r.
      - rewrite implicit_step_fetch in Hstep by auto.
        injection Hstep as _ <-. simpl. auto. }
    destruct Hst1 as [Hc1 Hf1].
    split; [|split; [|split; [|split; [|split; [|split; [|split]]]]]].
    + rewrite Hc, Hc1, Hfilter, <- app_assoc, <- map_app. simpl.
      now destruct (negb (mem e p)).
    + congruence.
    + auto.
    + intros k Hk. apply Hi2 in Hk. destruct Hk as [Hk|Hk]; [left; now right|].
      apply Hk2 in Hk. destruct Hk as [->|Hk]; [left; now left|now right].
    + auto.
    + auto.
    + intros s Hs. apply Hs2 in Hs. destruct Hs as [Hs|[Hid Hp]].
      * apply Hi5 in Hs. auto.
      * right. rewrite Hid. auto.
    + intros q [<-|Hq] Hin.
      * destruct (mem e p) eqn:Hmem; [left; now apply mem_In_keys|].
        right. intros Hsa'. apply in_map_iff in Hsa'.
        destruct Hsa' as (s & Hid & Hs). apply Hi4 in Hs.
        assert (Hp1 : In p (keys e1)).
        { destruct (in_dec string_dec p (keys e1)) as [|Hno]; auto.
          exfalso. apply Hi2 in Hin. destruct Hin; contradiction. }
        destruct (Hs3 Hp1) as [Hold|Hnew].
        -- apply mem_false in Hmem. contradiction.
        -- apply Hnew. apply in_map_iff. eauto.
      * destruct (Hi6 q Hq Hin) as [Hq1|Hno]; auto.
        left. apply Hk2 in Hq1. destruct Hq1 as [->|]; [contradiction|auto].
Qed.

End Implicit.

Section Resolved.

Variable env : Env.
Import Dict DictFacts.

(** When the source shows a record for every parent, every parent is an
    epic after the loop. *)
Lemma find_implicit_resolved l : forall e sa st e' sa' st',
  NoDup l -> (forall p, In p l -> shows env p) ->
  for_each (implicit_step env) l (e, sa) st = (Ok (e', sa'), st') ->
  forall p, In p l -> In p (keys e').
Proof.
  induction l as [|q l IH]; intros e sa st e' sa' st' Hnd Hshow Hrun p Hp;
    [destruct Hp|].
  inversion Hnd as [|? ? Hnotin Hnd']; subst.
  rewrite for_each_cons in Hrun.
  destruct (implicit_step env q (e, sa) st) as [[[e1 sa1]|x] st1] eqn:Hstep;
    [|discriminate].
  destruct Hp as [<-|Hp].
  - destruct (find_implicit_Ok env _ _ _ _ _ _ _ Hnd' Hrun) as (_ & _ & Hmono & _).
    apply Hmono. destruct (mem e q) eqn:Hmem.
    + rewrite implicit_step_known in Hstep by auto. injection Hstep as <- _ _.
      now apply mem_In_keys.
    + rewrite implicit_step_fetch in Hstep by auto.
      destruct (Hshow q (or_introl eq_refl) (calls st)) as (b & bs & Hout).
      rewrite Hout in Hstep. injection Hstep as <- _ _.
      apply In_keys_set. auto.
  - eapply IH; eauto. intros; apply Hshow. now right.
Qed.

End Resolved.

Section Found.

Variable env : Env.
Import Dict DictFacts.

Lemma filter_filter {A} (f g : A -> bool) l :
  filter f (filter g l) = filter (fun x => g x && f x) l.
Proof.
  induction l as [|x l IH]; simpl; auto.
  destruct (g x); simpl; [destruct (f x)|]; now rewrite IH.
Qed.

Lemma mem_set_other {V} (d : Dict.t V) k k' v :
  k <> k' -> mem (set d k v) k' = mem d k'.
Proof. intros H. unfold mem. now rewrite get_set_other. Qed.

(** The loop keeps the epics it had at the start, adds first records shown
    for parents, and drops from [standalone] the beads whose id it added. *)
Lemma find_implicit_result l : forall e sa st e' sa' st',
  for_each (implicit_step env) l (e, sa) st = (Ok (e', sa'), st') ->
  (forall k, mem e k = true -> get e' k = get e k)
  /\ (forall k b, get e' k = Some b -> mem e k = false ->
        In k l /\ shown_first env k b)
  /\ sa' = filter (fun s => negb (mem e' (id s)) || mem e (id s)) sa.
Proof.
  induction l as [|p l IH]; intros e sa st e' sa' st' Hrun.
  - injection Hrun as <- <- <-. split; [auto|split].
    + intros k b Hget Hmem. unfold mem in Hmem. rewrite Hget in Hmem. discriminate.
    + symmetry. apply forallb_filter_id. apply forallb_forall. intros s _.
      now destruct (mem e (id s)).
  - rewrite for_each_cons in Hrun.
    destruct (mem e p) eqn:Hmem.
    + rewrite implicit_step_known in Hrun by auto.
      destruct (IH _ _ _ _ _ _ Hrun) as (Ha & Hb & Hc).
      split; [auto|split; [|auto]].
      intros k b Hget Hk. destruct (Hb k b Hget Hk). split; auto. now right.
    + rewrite implicit_step_fetch in Hrun by auto.
      destruct (stdout (bd env (calls st) (bd_show_cmd p))) as [raw|[|pb data]] eqn:Hout;
        [discriminate| |].
      * destruct (IH _ _ _ _ _ _ Hrun) as (Ha & Hb & Hc).
        split; [auto|split; [|auto]].
        intros k b Hget Hk. destruct (Hb k b Hget Hk). split; auto. now right.
      * destruct (IH _ _ _ _ _ _ Hrun) as (Ha & Hb & Hc).
        assert (Hp : get e' p = Some pb).
        { rewrite Ha; [apply get_set_same|]. unfold mem. now rewrite get_set_same. }
        split; [|split].
        -- intros k Hk. assert (Hne : p <> k) by (intros ->; congruence).
           rewrite Ha; [now apply get_set_other|]. now rewrite mem_set_other.
        -- intros k b Hget Hk. destruct (string_dec p k) as [<-|Hne].
           ++ rewrite Hp in Hget. injection Hget as <-. split; [now left|].
              now exists (calls st), data.
           ++ rewrite <- (mem_set_other e p k pb Hne) in Hk.
              destruct (Hb k b Hget Hk). split; auto. now right.
        -- rewrite Hc, filter_filter. apply filter_ext. intros s.
           destruct (String.eqb_spec (id s) p) as [->|Hne]; simpl.
           ++ unfold mem at 1. now rewrite Hp, Hmem.
           ++ rewrite mem_set_other; auto.
Qed.

(** A parent for which the source shows a record is an epic after the
    loop. *)
Lemma find_implicit_shown l : forall e sa st e' sa' st' p,
  for_each (implicit_step env) l (e, sa) st = (Ok (e', sa'), st') ->
  In p l -> shows env p -> In p (keys e').
Proof.
  induction l as [|q l IH]; intros e sa st e' sa' st' p Hrun Hp Hshow;
    [destruct Hp|].
  rewrite for_each_cons in Hrun.
  destruct (implicit_step env q (e, sa) st) as [[[e1 sa1]|x] st1] eqn:Hstep;
    [|discriminate].
  destruct (string_dec q p) as [->|Hne].
  - destruct (find_implicit_result _ _ _ _ _ _ _ Hrun) as (Hkeep & _).
    assert (Hmem1 : mem e1 p = true).
    { destruct (mem e p) eqn:Hmem.
      - rewrite implicit_step_known in Hstep by auto. now injection Hstep as <- _ _.
      - rewrite implicit_step_fetch in Hstep by auto.
        destruct (Hshow (calls st)) as (b & bs & Hout).
        rewrite Hout in Hstep. injection Hstep as <- _ _.
        unfold mem. now rewrite get_set_same. }
    apply get_In_keys. rewrite (Hkeep p Hmem1).
    unfold mem in Hmem1. destruct (get e1 p); [discriminate|discriminate Hmem1].
  - destruct Hp as [Hp|Hp]; [contradiction|]. eapply IH; eauto.
Qed.

End Found.

(** ** The commands of the creation phases *)

Section MigrateLogs.

Variable env : Env.
Import Dict DictFacts.

Lemma logs_group_step parent ts m :
  logs (fun c => exists fe t, In t ts /\ c = flowctl_cmd (task_create_args fe t))
    not_mapping (group_step env (parent, ts) m).
Proof.
  intros st.
  destruct (get m parent) as [fe|] eqn:Hget.
  - destruct (string_dec fe "") as [->|Hne].
    + rewrite group_step_warn by auto. exists [], []. simpl.
      now rewrite !app_nil_r.
    + rewrite (group_step_run env _ _ _ _ _ Hget Hne). cbv zeta.
      destruct (sort_tasks ts) as [sorted|x] eqn:Hsort.
      * pose proof (sort_tasks_perm _ _ Hsort) as Hperm.
        match goal with
        | |- context [for_each _ sorted m ?s] =>
            destruct (logs_for_each
                        (fun c => exists fe t, In t ts
                                    /\ c = flowctl_cmd (task_create_args fe t))
                        not_mapping (task_step env fe) sorted
                        (fun t acc Hin =>
                           logs_weaken _ _ _ _ _
                             (fun c (Hc : c = flowctl_cmd (task_create_args fe t)) =>
                                ex_intro _ fe
                                  (ex_intro _ t
                                     (conj (Permutation_in _ (Permutation_sym Hperm) Hin) Hc)))
                             (fun f Hf => Hf)
                             (logs_task_step env fe t acc))
                        m s)
              as (cs & fs & Hc & Hf & HP & HQ)
        end.
        exists cs, fs. auto.
      * exists [], []. simpl. now rewrite !app_nil_r.
  - rewrite group_step_warn by auto. exists [], []. simpl. now rewrite !app_nil_r.
Qed.

Lemma logs_create_tasks subtasks m :
  logs (is_subtask_cmd subtasks) not_mapping (create_tasks env subtasks m).
Proof.
  unfold create_tasks, items. apply logs_for_each.
  intros [parent ts] acc Hin.
  eapply logs_weaken; [| |apply logs_group_step]; auto.
  intros c (fe & t & Ht & ->). exists fe, parent, ts, t. auto.
Qed.

Lemma logs_create_standalone standalone m :
  logs (fun c => is_epic_cmd c \/ is_standalone_task_cmd standalone c) not_mapping
    (create_standalone env standalone m).
Proof.
  unfold create_standalone. apply logs_for_each.
  intros s acc Hin.
  eapply logs_weaken; [| |apply logs_standalone_step]; auto.
  intros c [Hc|(fe & ->)]; [now left|right]. exists fe, s. auto.
Qed.

(** Before the mapping file, the creation phases write spec files only. *)
Lemma logs_migrate epics subtasks standalone :
  logs (migrate_cmd subtasks standalone) (fun _ => True)
    (migrate env (epics, subtasks, standalone)).
Proof.
  unfold migrate. unfold migrate_cmd.
  repeat match goal with
         | |- logs _ _ (bind (create_epics _ _ _ _) _) =>
             apply logs_bind;
             [eapply logs_weaken; [| |apply logs_create_epics]; auto|intros ?]
         | |- logs _ _ (bind (create_standalone _ _ _) _) =>
             apply logs_bind;
             [eapply logs_weaken; [| |apply logs_create_standalone];
              cbv beta; intros; tauto|intros ?]
         | |- logs _ _ (bind (create_tasks _ _ _) _) =>
             apply logs_bind;
             [eapply logs_weaken; [| |apply logs_create_tasks]; auto|intros ?]
         | |- _ => logs_step
         end; try exact I.
Qed.

Lemma bd_not_flowctl c : is_bd c -> is_flowctl c -> False.
Proof.
  intros [->|(bid & ->)] (args & H); discriminate.
Qed.

Lemma migrate_cmd_flowctl subtasks standalone c :
  migrate_cmd subtasks standalone c -> is_flowctl c.
Proof.
  intros [(ttl & ->)|[(fe & s & _ & ->)|(fe & p & ts & t & _ & _ & ->)]];
    eexists; reflexivity.
Qed.

Lemma epic_cmd_not_task c : is_epic_cmd c -> is_task_create c -> False.
Proof. intros (ttl & ->) (rest & H). discriminate. Qed.

Lemma bd_not_task c : is_bd c -> is_task_create c -> False.
Proof. intros [->|(bid & ->)] (rest & H); discriminate. Qed.

(** The log of a whole run: the commands of discovery, then those of
    the creation phases. *)
Lemma main_calls r st :
  main env initial = (r, st) ->
  (exists x, discover env initial = (Raise x, st) /\ Forall is_bd (calls st))
  \/ exists epics subtasks standalone st1 cs,
       discover env initial = (Ok (epics, subtasks, standalone), st1)
       /\ migrate env (epics, subtasks, standalone) st1 = (r, st)
       /\ Forall is_bd (calls st1)
       /\ calls st = (calls st1 ++ cs)%list
       /\ Forall (migrate_cmd subtasks standalone) cs.
Proof.
  intros Hmain. unfold main in Hmain. apply bind_inv in Hmain.
  destruct (logs_discover env initial) as (cs0 & fs0 & Hc0 & _ & HP0 & _).
  simpl in Hc0.
  destruct Hmain as [([[e sub] sa] & st1 & Hdisc & Hmig)|(x & Hdisc & ->)].
  - right. rewrite Hdisc in Hc0. simpl in Hc0.
    destruct (logs_migrate e sub sa st1) as (cs & fs & Hc & _ & HP & _).
    rewrite Hmig in Hc. simpl in Hc.
    exists e, sub, sa, st1, cs. rewrite Hc, Hc0. auto.
  - left. exists x. split; auto. rewrite Hdisc in Hc0. simpl in Hc0. now rewrite Hc0.
Qed.

End MigrateLogs.

(** ** The mapping through the creation loops *)

Section Mapping.

Variable env : Env.
Import Dict DictFacts.

Lemma extends_refl m : extends m m.
Proof. exists []. now rewrite app_nil_r. Qed.

Lemma extends_trans m1 m2 m3 : extends m1 m2 -> extends m2 m3 -> extends m1 m3.
Proof.
  intros (k1 & H1) (k2 & H2). exists (k1 ++ k2)%list. now rewrite H2, H1, app_assoc.
Qed.

Lemma extends_set m k v : extends m (set m k v).
Proof. apply keys_set_extends. Qed.

Lemma extends_incl m m' k : extends m m' -> In k (keys m) -> In k (keys m').
Proof. intros (ks & H) Hin. rewrite H. apply in_or_app. auto. Qed.

Lemma truthy_set m k v : truthy m -> v <> "" -> truthy (set m k v).
Proof.
  intros Hm Hv k' v' Hget. destruct (string_dec k k') as [<-|Hne].
  - rewrite get_set_same in Hget. congruence.
  - rewrite get_set_other in Hget by auto. eauto.
Qed.

Lemma answered_unique result fid fid' :
  answered result fid -> answered result fid' -> fid = fid'.
Proof. intros (r & -> & _ & H) (r' & [= <-] & _ & H'). congruence. Qed.

Lemma is_create_epic ttl : is_create (epic_create_args ttl).
Proof. left. now eexists. Qed.

Lemma is_create_standalone_task fe ttl : is_create (standalone_task_args fe ttl).
Proof. right. left. now eexists _, _. Qed.

Lemma is_create_task fe t : is_create (task_create_args fe t).
Proof. right. right. now eexists _, _. Qed.

Lemma dest_ok_succeeded hist args :
  dest_ok env -> is_create args ->
  succeeded (flowctl_returns env hist args) = false -> False.
Proof.
  intros Hok Hc Hs. destruct (Hok hist args Hc) as (fid & Ha & _).
  apply answered_succeeded in Ha. congruence.
Qed.

Lemma epic_step_Ok epics eid m st m' st' :
  epic_step env epics eid m st = (Ok m', st') ->
  (m' = m /\ eid = "gno-ub9")
  \/ exists epic, eid <> "gno-ub9" /\ get epics eid = Some epic
     /\ (m' = m
         /\ succeeded (flowctl_returns env (calls st) (epic_create_args (title epic)))
            = false
         \/ assigned env m eid (calls st) (epic_create_args (title epic)) m').
Proof.
  intros Hrun.
  destruct (epic_step_cases env epics eid m st)
    as [[Hstep ->] | [(Hstep & _) | (epic & Hne & Hget & Hcases)]].
  - left. rewrite Hstep in Hrun. injection Hrun as <- _. auto.
  - rewrite Hstep in Hrun. discriminate.
  - right. exists epic. repeat split; auto. simpl in Hcases.
    destruct Hcases as [[Hstep Hs] | [[Hstep _] | (fid & Hfid & Hstep)]];
      rewrite Hstep in Hrun.
    + left. injection Hrun as <- _. auto.
    + discriminate.
    + right. injection Hrun as <- _. exists fid. auto.
Qed.

Lemma standalone_step_Ok s m st m' st' :
  standalone_step env s m st = (Ok m', st') ->
  m' = m
  /\ succeeded (flowctl_returns env (calls st) (epic_create_args (title s))) = false
  \/ assigned env m (id s) (calls st) (epic_create_args (title s)) m'.
Proof.
  intros Hrun.
  destruct (succeeded (flowctl_returns env (calls st) (epic_create_args (title s))))
    eqn:Hs.
  - right. destruct (succeeded_answered _ Hs) as [(fid & Hfid)|(r & Hr & Hsu & Hid)].
    + exists fid. split; auto.
      pose proof (standalone_step_record env s m st fid Hfid) as Hstep.
      cbv zeta in Hstep. rewrite Hstep in Hrun.
      repeat match type of Hrun with
             | (if ?b then _ else _) = _ => destruct b
             | match ?x with _ => _ end = _ => destruct x
             end; try discriminate; now injection Hrun as <- _.
    + exfalso. unfold standalone_step in Hrun.
      rewrite (bind_Ok _ _ _ _ _ (flowctl_run env _ st)), Hr in Hrun.
      rewrite Hr in Hs. rewrite Hs in Hrun. unfold result_id in Hrun.
      rewrite Hid in Hrun. discriminate.
  - left. rewrite standalone_step_skip in Hrun by auto. injection Hrun as <- _. auto.
Qed.

Lemma task_step_Ok fe t m st m' st' :
  task_step env fe t m st = (Ok m', st') ->
  m' = m
  /\ succeeded (flowctl_returns env (calls st) (task_create_args fe t)) = false
  \/ assigned env m (id t) (calls st) (task_create_args fe t) m'.
Proof.
  intros Hrun.
  destruct (task_step_cases env fe t m st)
    as [[Hstep Hs]|[[Hstep _]|(fid & Hfid & Hstep)]]; simpl in Hstep;
    rewrite Hstep in Hrun.
  - left. injection Hrun as <- _. auto.
  - discriminate.
  - right. injection Hrun as <- _. exists fid. auto.
Qed.

(** *** Loops of rounds *)

Lemma grows_refl key m : grows key m m.
Proof. repeat split; auto. apply extends_refl. Qed.

Lemma grows_set (key : string -> Prop) m k v : key k -> grows key m (set m k v).
Proof.
  intros Hk. repeat split.
  - apply extends_set.
  - apply NoDup_keys_set.
  - intros k' Hin. apply In_keys_set in Hin. destruct Hin as [->|]; auto.
Qed.

Lemma grows_trans (key : string -> Prop) m1 m2 m3 :
  grows key m1 m2 -> grows key m2 m3 -> grows key m1 m3.
Proof.
  intros (He & Hn & Hk) (He' & Hn' & Hk'). repeat split; auto.
  - eapply extends_trans; eauto.
  - intros k Hin. apply Hk' in Hin. destruct Hin; auto.
Qed.

Lemma grows_weaken (key key' : string -> Prop) m m' :
  (forall k, key k -> key' k) -> grows key m m' -> grows key' m m'.
Proof.
  intros H (He & Hn & Hk). repeat split; auto.
  intros k Hin. apply Hk in Hin. destruct Hin; auto.
Qed.

Lemma assigned_grows (key : string -> Prop) m k hist args m' :
  key k -> assigned env m k hist args m' -> grows key m m'.
Proof. intros Hk (fid & _ & ->). now apply grows_set. Qed.

Section Rounds.

Context {X : Type}.
Variable body : X -> Dict.t string -> M (Dict.t string).
Variable key : X -> string -> Prop.

Lemma rounds_grow l :
  (forall x m st m' st', In x l -> body x m st = (Ok m', st') -> grows (key x) m m') ->
  forall m st m' st',
    for_each body l m st = (Ok m', st') ->
    grows (fun k => exists x, In x l /\ key x k) m m'.
Proof.
  induction l as [|x l IH]; intros Hround m st m' st' Hrun.
  - injection Hrun as <- _. apply grows_refl.
  - simpl in Hrun. apply bind_Ok_inv in Hrun. destruct Hrun as (m1 & st1 & H1 & H2).
    eapply grows_trans.
    + eapply grows_weaken; [|eapply Hround; [now left|exact H1]].
      intros k Hk. exists x. split; auto. now left.
    + eapply grows_weaken; [|eapply IH; [|exact H2]].
      * intros k (y & Hy & Hk). exists y. split; auto. now right.
      * intros; eapply Hround; eauto. now right.
Qed.

Lemma rounds_extend l :
  (forall x m st m' st', In x l -> body x m st = (Ok m', st') -> extends m m') ->
  forall m st m' st', for_each body l m st = (Ok m', st') -> extends m m'.
Proof.
  induction l as [|x l IH]; intros Hround m st m' st' Hrun.
  - injection Hrun as <- _. apply extends_refl.
  - simpl in Hrun. apply bind_Ok_inv in Hrun. destruct Hrun as (m1 & st1 & H1 & H2).
    eapply extends_trans; [eapply Hround; [now left|exact H1]|].
    eapply IH; [|exact H2]. intros; eapply Hround; eauto. now right.
Qed.

(** When each round records its keys and keeps [Inv], all the keys are in
    the mapping at the end. *)
Lemma rounds_cover (Inv : Dict.t string -> Prop) l :
  (forall x m st m' st', In x l -> body x m st = (Ok m', st') -> extends m m') ->
  (forall x m st m' st', In x l -> body x m st = (Ok m', st') -> Inv m ->
     Inv m' /\ forall k, key x k -> In k (keys m')) ->
  forall m st m' st',
    for_each body l m st = (Ok m', st') -> Inv m ->
    Inv m' /\ forall x k, In x l -> key x k -> In k (keys m').
Proof.
  induction l as [|x l IH]; intros Hround Hok m st m' st' Hrun HI.
  - injection Hrun as <- _. split; auto. intros x k [].
  - simpl in Hrun. apply bind_Ok_inv in Hrun. destruct Hrun as (m1 & st1 & H1 & H2).
    destruct (Hok _ _ _ _ _ (or_introl eq_refl) H1 HI) as [HI1 Hk1].
    assert (Hround' : forall y m st m' st', In y l ->
              body y m st = (Ok m', st') -> extends m m').
    { intros; eapply Hround; eauto. now right. }
    destruct (IH Hround' (fun y m st m' st' Hy => Hok y m st m' st' (or_intror Hy))
                _ _ _ _ H2 HI1) as [HI' Hk'].
    split; auto. intros y k [<-|Hy] Hkey; eauto.
    eapply extends_incl; [eapply rounds_extend; eauto|]. auto.
Qed.

End Rounds.

(** *** The three loops *)

Lemma epic_step_grows epics eid m st m' st' :
  epic_step env epics eid m st = (Ok m', st') ->
  grows (fun k => k = eid /\ eid <> "gno-ub9" /\ In eid (keys epics)) m m'.
Proof.
  intros H. apply epic_step_Ok in H.
  destruct H as [[-> _]|(epic & Hne & Hget & [[-> _]|Ha])]; try apply grows_refl.
  eapply assigned_grows; [|exact Ha]. repeat split; auto.
  apply get_In_keys. congruence.
Qed.

Lemma create_epics_grows epics order m st m' st' :
  create_epics env epics order m st = (Ok m', st') ->
  grows (fun k => In k order /\ k <> "gno-ub9" /\ In k (keys epics)) m m'.
Proof.
  intros H. unfold create_epics in H.
  pose proof (rounds_grow (epic_step env epics)
                (fun eid k => k = eid /\ eid <> "gno-ub9" /\ In eid (keys epics)) order
                (fun x m0 st0 m1 st1 _ Hs => epic_step_grows epics x m0 st0 m1 st1 Hs)
                _ _ _ _ H) as Hg.
  eapply grows_weaken; [|exact Hg].
  intros k (x & Hx & -> & ? & ?). auto.
Qed.

Lemma standalone_step_grows s m st m' st' :
  standalone_step env s m st = (Ok m', st') -> grows (fun k => k = id s) m m'.
Proof.
  intros H. apply standalone_step_Ok in H. destruct H as [[-> _]|Ha].
  - apply grows_refl.
  - eapply assigned_grows; [|exact Ha]. reflexivity.
Qed.

Lemma create_standalone_grows standalone m st m' st' :
  create_standalone env standalone m st = (Ok m', st') ->
  grows (fun k => In k (map id standalone)) m m'.
Proof.
  intros H. unfold create_standalone in H.
  pose proof (rounds_grow (standalone_step env) (fun s k => k = id s) standalone
                (fun x m0 st0 m1 st1 _ Hs => standalone_step_grows x m0 st0 m1 st1 Hs)
                _ _ _ _ H) as Hg.
  eapply grows_weaken; [|exact Hg].
  intros k (s & Hs & ->). now apply in_map.
Qed.

Lemma task_step_grows fe t m st m' st' :
  task_step env fe t m st = (Ok m', st') -> grows (fun k => k = id t) m m'.
Proof.
  intros H. apply task_step_Ok in H. destruct H as [[-> _]|Ha].
  - apply grows_refl.
  - eapply assigned_grows; [|exact Ha]. reflexivity.
Qed.

Lemma task_loop_grows fe l m st m' st' :
  for_each (task_step env fe) l m st = (Ok m', st') ->
  grows (fun k => exists t, In t l /\ id t = k) m m'.
Proof.
  intros H.
  pose proof (rounds_grow (task_step env fe) (fun t k => k = id t) l
                (fun x m0 st0 m1 st1 _ Hs => task_step_grows fe x m0 st0 m1 st1 Hs)
                _ _ _ _ H) as Hg.
  eapply grows_weaken; [|exact Hg].
  intros k (t & Ht & ->). eauto.
Qed.

Lemma group_step_Ok parent ts m st m' st' :
  group_step env (parent, ts) m st = (Ok m', st') ->
  m' = m /\ (get m parent = None \/ get m parent = Some "")
  \/ exists fe sorted st1,
       get m parent = Some fe /\ fe <> "" /\ sort_tasks ts = Ok sorted
       /\ for_each (task_step env fe) sorted m st1 = (Ok m', st').
Proof.
  intros Hrun. destruct (get m parent) as [fe|] eqn:Hget.
  - destruct (string_dec fe "") as [->|Hne].
    + rewrite group_step_warn in Hrun by auto. injection Hrun as <- _. auto.
    + rewrite (group_step_run env _ _ _ _ _ Hget Hne) in Hrun. cbv zeta in Hrun.
      destruct (sort_tasks ts) as [sorted|x]; [|discriminate].
      right. eauto 8.
  - rewrite group_step_warn in Hrun by auto. injection Hrun as <- _. auto.
Qed.

Lemma group_step_grows parent ts m st m' st' :
  group_step env (parent, ts) m st = (Ok m', st') ->
  grows (fun k => exists t, In t ts /\ id t = k) m m'.
Proof.
  intros H. apply group_step_Ok in H.
  destruct H as [[-> _]|(fe & sorted & st1 & _ & _ & Hsort & Hloop)].
  - apply grows_refl.
  - apply task_loop_grows in Hloop. eapply grows_weaken; [|exact Hloop].
    intros k (t & Ht & <-). exists t. split; auto.
    eapply Permutation_in; [|exact Ht]. apply Permutation_sym.
    now apply sort_tasks_perm.
Qed.

Lemma create_tasks_grows subtasks m st m' st' :
  create_tasks env subtasks m st = (Ok m', st') ->
  grows (is_subtask_id subtasks) m m'.
Proof.
  intros H. unfold create_tasks, items in H.
  pose proof (rounds_grow (group_step env)
                (fun g k => exists t, In t (snd g) /\ id t = k) subtasks
                (fun g m0 st0 m1 st1 _ =>
                   match g with
                   | (p, ts) => group_step_grows p ts m0 st0 m1 st1
                   end)
                _ _ _ _ H) as Hg.
  eapply grows_weaken; [|exact Hg].
  intros k ([p ts] & Hin & t & Ht & <-). exists p, ts, t. auto.
Qed.

(** *** With a destination that always answers *)

Section Answering.

Hypothesis Hdest : dest_ok env.

Lemma assigned_truthy m k hist args m' :
  is_create args ->
  assigned env m k hist args m' -> truthy m -> truthy m' /\ In k (keys m').
Proof.
  intros Hc (fid & Ha & ->) Ht. destruct (Hdest hist args Hc) as (fid' & Ha' & Hne).
  rewrite (answered_unique _ _ _ Ha Ha'). split.
  - now apply truthy_set.
  - apply In_keys_set. auto.
Qed.

Lemma create_epics_cover epics order m st m' st' :
  create_epics env epics order m st = (Ok m', st') -> truthy m ->
  truthy m' /\ forall k, In k order -> k <> "gno-ub9" -> In k (keys m').
Proof.
  intros H Ht. unfold create_epics in H.
  assert (Hext : forall x m0 st0 m1 st1, In x order ->
            epic_step env epics x m0 st0 = (Ok m1, st1) -> extends m0 m1).
  { intros x m0 st0 m1 st1 _ Hstep. now apply epic_step_grows in Hstep as (? & _). }
  assert (Hok : forall x m0 st0 m1 st1, In x order ->
            epic_step env epics x m0 st0 = (Ok m1, st1) -> truthy m0 ->
            truthy m1 /\ forall k, k = x /\ x <> "gno-ub9" -> In k (keys m1)).
  { intros x m0 st0 m1 st1 _ Hstep Ht0. apply epic_step_Ok in Hstep.
    destruct Hstep as [[-> ->]|(epic & Hne & Hget & [[_ Hs]|Ha])].
    - split; auto. intros k (_ & Hne). congruence.
    - exfalso. eapply dest_ok_succeeded; eauto using is_create_epic.
    - destruct (assigned_truthy _ _ _ _ _ (is_create_epic _) Ha Ht0). split; auto.
      intros k (-> & _). auto. }
  destruct (rounds_cover _ (fun eid k => k = eid /\ eid <> "gno-ub9") truthy order
              Hext Hok _ _ _ _ H Ht) as [Ht' Hk].
  split; auto. intros k Hin Hne. apply (Hk k k); auto.
Qed.

Lemma create_standalone_cover standalone m st m' st' :
  create_standalone env standalone m st = (Ok m', st') -> truthy m ->
  truthy m' /\ forall s, In s standalone -> In (id s) (keys m').
Proof.
  intros H Ht. unfold create_standalone in H.
  assert (Hext : forall x m0 st0 m1 st1, In x standalone ->
            standalone_step env x m0 st0 = (Ok m1, st1) -> extends m0 m1).
  { intros x m0 st0 m1 st1 _ Hstep. now apply standalone_step_grows in Hstep as (? & _). }
  assert (Hok : forall x m0 st0 m1 st1, In x standalone ->
            standalone_step env x m0 st0 = (Ok m1, st1) -> truthy m0 ->
            truthy m1 /\ forall k, k = id x -> In k (keys m1)).
  { intros x m0 st0 m1 st1 _ Hstep Ht0. apply standalone_step_Ok in Hstep.
    destruct Hstep as [[_ Hs]|Ha].
    - exfalso. eapply dest_ok_succeeded; eauto using is_create_epic.
    - destruct (assigned_truthy _ _ _ _ _ (is_create_epic _) Ha Ht0).
      split; auto. now intros k ->. }
  destruct (rounds_cover _ (fun s k => k = id s) truthy standalone
              Hext Hok _ _ _ _ H Ht) as [Ht' Hk].
  split; auto. intros s Hin. apply (Hk s (id s)); auto.
Qed.

Lemma task_loop_cover fe l m st m' st' :
  for_each (task_step env fe) l m st = (Ok m', st') -> truthy m ->
  truthy m' /\ forall t, In t l -> In (id t) (keys m').
Proof.
  intros H Ht.
  assert (Hext : forall x m0 st0 m1 st1, In x l ->
            task_step env fe x m0 st0 = (Ok m1, st1) -> extends m0 m1).
  { intros x m0 st0 m1 st1 _ Hstep. now apply task_step_grows in Hstep as (? & _). }
  assert (Hok : forall x m0 st0 m1 st1, In x l ->
            task_step env fe x m0 st0 = (Ok m1, st1) -> truthy m0 ->
            truthy m1 /\ forall k, k = id x -> In k (keys m1)).
  { intros x m0 st0 m1 st1 _ Hstep Ht0. apply task_step_Ok in Hstep.
    destruct Hstep as [[_ Hs]|Ha].
    - exfalso. eapply dest_ok_succeeded; eauto using is_create_task.
    - destruct (assigned_truthy _ _ _ _ _ (is_create_task _ _) Ha Ht0).
      split; auto. now intros k ->. }
  destruct (rounds_cover _ (fun t k => k = id t) truthy l
              Hext Hok _ _ _ _ H Ht) as [Ht' Hk].
  split; auto. intros t Hin. apply (Hk t (id t)); auto.
Qed.

(** The groups whose parent has an entry when the task phase starts are
    gone through entirely. *)
Lemma create_tasks_cover subtasks m st m' st' :
  create_tasks env subtasks m st = (Ok m', st') -> truthy m ->
  truthy m'
  /\ forall parent ts t,
       In (parent, ts) subtasks -> In parent (keys m) -> In t ts -> In (id t) (keys m').
Proof.
  intros H Ht. unfold create_tasks, items in H.
  set (Inv := fun m0 : Dict.t string => truthy m0 /\ extends m m0).
  set (key := fun (g : string * list Bead) (k : string) =>
                In (fst g) (keys m) /\ exists t, In t (snd g) /\ id t = k).
  assert (Hext : forall x m0 st0 m1 st1, In x subtasks ->
            group_step env x m0 st0 = (Ok m1, st1) -> extends m0 m1).
  { intros [p ts] m0 st0 m1 st1 _ Hstep.
    now apply group_step_grows in Hstep as (? & _). }
  assert (Hok : forall x m0 st0 m1 st1, In x subtasks ->
            group_step env x m0 st0 = (Ok m1, st1) -> Inv m0 ->
            Inv m1 /\ forall k, key x k -> In k (keys m1)).
  { intros [p ts] m0 st0 m1 st1 _ Hstep [Ht0 He0].
    pose proof (group_step_grows _ _ _ _ _ _ Hstep) as (He1 & _).
    apply group_step_Ok in Hstep.
    destruct Hstep as [[-> Hwarn]|(fe & sorted & s1 & Hget & Hne & Hsort & Hloop)].
    - split; [split; auto|]. unfold key. simpl. intros k (Hp & _).
      exfalso. apply (extends_incl _ _ _ He0) in Hp. apply get_In_keys in Hp.
      destruct Hwarn as [Hnone|Hempty]; [congruence|].
      now apply (Ht0 _ _ Hempty).
    - destruct (task_loop_cover _ _ _ _ _ _ Hloop Ht0) as [Ht1 Hk1].
      split; [split; auto; eapply extends_trans; eauto|].
      unfold key. simpl. intros k (_ & t & Hin & <-). apply Hk1.
      eapply Permutation_in; [|exact Hin]. now apply sort_tasks_perm. }
  destruct (rounds_cover _ key Inv subtasks Hext Hok _ _ _ _ H
              (conj Ht (extends_refl m))) as [[Ht' _] Hk].
  split; auto. intros p ts t Hg Hp Hin. apply (Hk (p, ts) (id t)); auto.
  unfold key. simpl. eauto.
Qed.

End Answering.

End Mapping.

(** ** A run that ends normally *)

Section Summary.

Variable env : Env.
Import Dict DictFacts.

Lemma migrate_Ok_inv epics subtasks standalone st st' :
  migrate env (epics, subtasks, standalone) st = (Ok tt, st') ->
  exists m1 s1 m2 s2 m3 s3,
    create_epics env epics (epic_order_of epics) [("gno-ub9", "fn-1")] (announced st)
      = (Ok m1, s1)
    /\ create_standalone env standalone m1
         (printed (PyStr.nl ++ "=== Creating Standalone Epics ===") s1) = (Ok m2, s2)
    /\ create_tasks env subtasks m2
         (printed (PyStr.nl ++ "=== Creating Tasks Under Epics ===") s2) = (Ok m3, s3)
    /\ files st' = (files s3 ++ [(mapping_path, JsonDump m3)])%list
    /\ calls st' = calls s3.
Proof.
  rewrite migrate_unfold. change (set [] "gno-ub9" "fn-1") with [("gno-ub9", "fn-1")].
  destruct (create_epics env epics _ _ (announced st)) as [[m1|x] s1] eqn:E1;
    [|discriminate].
  destruct (create_standalone env standalone m1 _) as [[m2|x] s2] eqn:E2;
    [|discriminate].
  destruct (create_tasks env subtasks m2 _) as [[m3|x] s3] eqn:E3; [|discriminate].
  intros [= <-]. exists m1, s1, m2, s2, m3, s3. repeat split; auto.
Qed.

(** The files written by the three loops, none of which is the mapping
    file. *)
Lemma loops_files epics subtasks standalone st m1 s1 m2 s2 m3 s3 :
  create_epics env epics (epic_order_of epics) [("gno-ub9", "fn-1")] (announced st)
    = (Ok m1, s1) ->
  create_standalone env standalone m1
    (printed (PyStr.nl ++ "=== Creating Standalone Epics ===") s1) = (Ok m2, s2) ->
  create_tasks env subtasks m2
    (printed (PyStr.nl ++ "=== Creating Tasks Under Epics ===") s2) = (Ok m3, s3) ->
  exists fs, files s3 = (files st ++ fs)%list /\ Forall not_mapping fs.
Proof.
  intros H1 H2 H3.
  destruct (logs_create_epics env epics (epic_order_of epics) [("gno-ub9", "fn-1")]
              (announced st)) as (c1 & f1 & _ & Hf1 & _ & HQ1).
  destruct (logs_create_standalone env standalone m1
              (printed (PyStr.nl ++ "=== Creating Standalone Epics ===") s1))
    as (c2 & f2 & _ & Hf2 & _ & HQ2).
  destruct (logs_create_tasks env subtasks m2
              (printed (PyStr.nl ++ "=== Creating Tasks Under Epics ===") s2))
    as (c3 & f3 & _ & Hf3 & _ & HQ3).
  rewrite H1 in Hf1. rewrite H2 in Hf2. rewrite H3 in Hf3. simpl in *.
  exists (f1 ++ f2 ++ f3)%list. split.
  - rewrite Hf3, Hf2, Hf1. now rewrite !app_assoc.
  - repeat (apply Forall_app; split); auto.
Qed.

Lemma truthy_premapped : truthy [("gno-ub9", "fn-1")].
Proof.
  intros k v H.
  change (get [("gno-ub9", "fn-1")] k)
    with (if "gno-ub9" =? k then Some "fn-1" else None) in H.
  destruct ("gno-ub9" =? k); [|discriminate].
  injection H as <-. discriminate.
Qed.

(** The phases of a run that ends normally. *)
Lemma main_Ok_inv st :
  main env initial = (Ok tt, st) ->
  exists beads epics subtasks standalone st1 m1 s1 m2 s2 m s3 earlier,
    stdout (bd env [] bd_list_cmd) = Json beads
    /\ subtasks = snd (fst (classify beads))
    /\ find_implicit_epics env subtasks (fst (fst (classify beads)))
         (snd (classify beads)) (after_bd bd_list_cmd initial)
       = (Ok (epics, standalone), st1)
    /\ discover env initial = (Ok (epics, subtasks, standalone), st1)
    /\ create_epics env epics (epic_order_of epics) [("gno-ub9", "fn-1")]
         (announced st1) = (Ok m1, s1)
    /\ create_standalone env standalone m1
         (printed (PyStr.nl ++ "=== Creating Standalone Epics ===") s1) = (Ok m2, s2)
    /\ create_tasks env subtasks m2
         (printed (PyStr.nl ++ "=== Creating Tasks Under Epics ===") s2) = (Ok m, s3)
    /\ files st = (earlier ++ [(mapping_path, JsonDump m)])%list
    /\ Forall not_mapping earlier.
Proof.
  intros Hmain. unfold main in Hmain. apply bind_Ok_inv in Hmain.
  destruct Hmain as ([[e sub] sa] & st1 & Hdisc & Hmig).
  destruct (discover_Ok_inv env _ _ _ _ _ Hdisc) as (beads & Hjson & Hsub & Hfind).
  destruct (migrate_Ok_inv _ _ _ _ _ Hmig)
    as (m1 & s1 & m2 & s2 & m3 & s3 & H1 & H2 & H3 & Hfiles & _).
  destruct (loops_files _ _ _ _ _ _ _ _ _ _ H1 H2 H3) as (fs & Hfs & Hnm).
  pose proof (discover_files env initial) as Hf0. rewrite Hdisc in Hf0. simpl in Hf0.
  exists beads, e, sub, sa, st1, m1, s1, m2, s2, m3, s3, fs.
  repeat split; auto.
  rewrite Hfiles, Hfs. simpl. now rewrite Hf0.
Qed.

(** The keys of the mapping after the three loops: those it had, then ids
    that the loops went through. *)
Lemma loops_grow epics subtasks standalone order m0 a1 m1 s1 a2 m2 s2 a3 m3 s3 :
  create_epics env epics order m0 a1 = (Ok m1, s1) ->
  create_standalone env standalone m1 a2 = (Ok m2, s2) ->
  create_tasks env subtasks m2 a3 = (Ok m3, s3) ->
  extends m0 m1 /\ extends m1 m2 /\ extends m2 m3
  /\ grows (processed epics subtasks standalone) m0 m3.
Proof.
  intros H1 H2 H3.
  apply create_epics_grows in H1. apply create_standalone_grows in H2.
  apply create_tasks_grows in H3.
  split; [apply H1|split; [apply H2|split; [apply H3|]]].
  eapply grows_trans; [|eapply grows_trans].
  - eapply grows_weaken; [|exact H1]. intros k (_ & _ & ?). right. now left.
  - eapply grows_weaken; [|exact H2]. intros k ?. right. right. now left.
  - eapply grows_weaken; [|exact H3]. intros k ?. right. right. now right.
Qed.

Lemma loops_cover epics subtasks standalone a1 m1 s1 a2 m2 s2 a3 m3 s3 :
  dest_ok env ->
  parents_known epics subtasks standalone ->
  create_epics env epics (epic_order_of epics) [("gno-ub9", "fn-1")] a1 = (Ok m1, s1) ->
  create_standalone env standalone m1 a2 = (Ok m2, s2) ->
  create_tasks env subtasks m2 a3 = (Ok m3, s3) ->
  forall k, processed epics subtasks standalone k -> In k (keys m3).
Proof.
  intros Hdest Hknown H1 H2 H3.
  destruct (loops_grow _ _ _ _ _ _ _ _ _ _ _ _ _ _ H1 H2 H3) as (E1 & E2 & E3 & _).
  destruct (create_epics_cover env Hdest _ _ _ _ _ _ H1 truthy_premapped) as [T1 C1].
  destruct (create_standalone_cover env Hdest _ _ _ _ _ H2 T1) as [T2 C2].
  destruct (create_tasks_cover env Hdest _ _ _ _ _ H3 T2) as [T3 C3].
  assert (Hub : In "gno-ub9" (keys m2)).
  { apply (extends_incl _ _ _ E2), (extends_incl _ _ _ E1). simpl. auto. }
  assert (Hep : forall k, In k (keys epics) -> In k (keys m2)).
  { intros k Hk. destruct (string_dec k "gno-ub9") as [->|Hne]; auto.
    apply (extends_incl _ _ _ E2). apply C1; auto. now apply epic_order_keys. }
  assert (Hsa : forall k, In k (map id standalone) -> In k (keys m2)).
  { intros k Hk. apply in_map_iff in Hk. destruct Hk as (s & <- & Hs). auto. }
  intros k [->|[Hk|[Hk|(p & ts & t & Hg & Ht & <-)]]].
  - now apply (extends_incl _ _ _ E3).
  - apply (extends_incl _ _ _ E3). auto.
  - apply (extends_incl _ _ _ E3). auto.
  - apply (C3 p ts t); auto.
    assert (Hp : In p (keys subtasks)).
    { change p with (fst (p, ts)). now apply in_map. }
    destruct (Hknown p Hp) as [->|[|]]; auto.
Qed.

End Summary.

(** * The properties of the specification *)

(** ** Parent ids *)

Lemma parent_of_spec bid :
  PyStr.contains "." bid = true ->
  exists last, bid = parent_of bid ++ "." ++ last /\ PyStr.contains "." last = false.
Proof.
  intros H. destruct (PyStrFacts.contains_rcut _ _ H) as (p & q & E).
  unfold parent_of, PyStr.rsplit1. rewrite E. simpl.
  exists q. now apply PyStrFacts.rcut_Some.
Qed.

Lemma parent_of_unique parent last :
  PyStr.contains "." last = false -> parent_of (parent ++ "." ++ last) = parent.
Proof.
  intros H. unfold parent_of, PyStr.rsplit1.
  change (parent ++ "." ++ last) with (parent ++ String "." last).
  now rewrite PyStrFacts.rcut_app.
Qed.

(** C9.  A bead whose id contains a dot is filed, during categorisation,
    under the parent id obtained by removing the last dot-delimited segment
    of its id: the id is [parent ++ "." ++ last] where [last] has no dot,
    which determines [parent], and the bead is in [subtasks[parent]]. *)
Theorem subtask_parent_drops_last_segment (beads : list Bead) (b : Bead) :
  In b beads ->
  PyStr.contains "." (id b) = true ->
  exists parent last tasks,
    id b = parent ++ "." ++ last
    /\ PyStr.contains "." last = false
    /\ (forall p q, id b = p ++ "." ++ q -> PyStr.contains "." q = false -> p = parent)
    /\ parent_of (id b) = parent
    /\ Dict.get (snd (fst (classify beads))) parent = Some tasks
    /\ In b tasks.
Proof.
  intros Hin Hdot.
  destruct (parent_of_spec _ Hdot) as (last & Hid & Hlast).
  pose proof (cl_cover _ _ (classify_classified beads) b Hin) as Hc.
  rewrite Hdot in Hc. destruct Hc as (ts & Hget & Hts).
  exists (parent_of (id b)), last, ts. repeat split; auto.
  intros p q Hpq Hq. rewrite Hpq. symmetry. now apply parent_of_unique.
Qed.

Lemma subtask_parent_drops_last_segment_witness :
  exists parent last tasks,
    "gno-a.1.2" = parent ++ "." ++ last
    /\ PyStr.contains "." last = false
    /\ (forall p q, "gno-a.1.2" = p ++ "." ++ q -> PyStr.contains "." q = false ->
        p = parent)
    /\ parent_of "gno-a.1.2" = parent
    /\ Dict.get
         (snd (fst (classify [Sim.epic "gno-a" "A"; Sim.task "gno-a.1.2" "T" None])))
         parent = Some tasks
    /\ In (Sim.task "gno-a.1.2" "T" None) tasks.
Proof.
  apply (subtask_parent_drops_last_segment
           [Sim.epic "gno-a" "A"; Sim.task "gno-a.1.2" "T" None]
           (Sim.task "gno-a.1.2" "T" None)).
  - simpl. auto.
  - reflexivity.
Defined.

(** ** Failures of the source tool *)

(** C2 (the code departs from the claim).  When the source tool exits with
    status 1 and prints nothing, [get_beads] and [get_bead] raise
    [JSONDecodeError] and report nothing on the error stream, and the
    whole run ends with that exception; [flowctl], on a failing
    destination call, reports the failure and returns [None]. *)
Theorem source_failure_raises :
  let env := mkEnv Sim.broken Sim.dest in
  get_beads env initial
    = (Raise (JSONDecodeError ""), mkState [bd_list_cmd] [] [] [])
  /\ get_bead env "gno-q" initial
    = (Raise (JSONDecodeError ""), mkState [bd_show_cmd "gno-q"] [] [] [])
  /\ main env initial
    = (Raise (JSONDecodeError ""), mkState [bd_list_cmd] [] [] [])
  /\ flowctl env ["status"] initial
    = (Ok None,
       mkState [flowctl_cmd ["status"]] [] [] ["Error: usage: flowctl"]).
Proof. repeat split. Qed.

(** ** Creation calls that fail *)

(** C7.  When the answer to a creation call is absent or has no true
    [success] flag, the round leaves the mapping as it was, writes no file,
    and the loop goes on with the next record.  This holds at the four
    places where the script creates something: an epic, the epic of a
    standalone bead, the single task of a standalone bead (whose epic has
    been recorded by then) and a task under an epic. *)
Theorem failed_creation_is_skipped (env : Env) :
  (forall epics eid epic rest m st,
     eid <> "gno-ub9" -> Dict.get epics eid = Some epic ->
     succeeded (flowctl_returns env (calls st) (epic_create_args (title epic))) = false ->
     exists st1,
       epic_step env epics eid m st = (Ok m, st1)
       /\ files st1 = files st
       /\ create_epics env epics (eid :: rest) m st = create_epics env epics rest m st1)
  /\ (forall s rest m st,
     succeeded (flowctl_returns env (calls st) (epic_create_args (title s))) = false ->
     exists st1,
       standalone_step env s m st = (Ok m, st1)
       /\ files st1 = files st
       /\ create_standalone env (s :: rest) m st = create_standalone env rest m st1)
  /\ (forall s rest m st fid,
     answered (flowctl_returns env (calls st) (epic_create_args (title s))) fid ->
     let st1 := standalone_recorded s fid
                  (after_flowctl env (epic_create_args (title s)) st) in
     succeeded (flowctl_returns env (calls st1) (standalone_task_args fid (title s)))
       = false ->
     exists st2,
       standalone_step env s m st = (Ok (Dict.set m (id s) fid), st2)
       /\ files st2 = files st1
       /\ create_standalone env (s :: rest) m st
          = create_standalone env rest (Dict.set m (id s) fid) st2)
  /\ (forall fe t rest m st,
     succeeded (flowctl_returns env (calls st) (task_create_args fe t)) = false ->
     exists st1,
       task_step env fe t m st = (Ok m, st1)
       /\ files st1 = files st
       /\ for_each (task_step env fe) (t :: rest) m st
          = for_each (task_step env fe) rest m st1).
Proof.
  repeat split.
  - intros epics eid epic rest m st Hne Hget Hres.
    eexists. rewrite (epic_step_skip env _ _ _ _ _ Hne Hget Hres).
    repeat split. unfold create_epics. simpl.
    now rewrite (bind_Ok _ _ _ _ _ (epic_step_skip env _ _ _ _ _ Hne Hget Hres)).
  - intros s rest m st Hres.
    eexists. rewrite (standalone_step_skip env _ _ _ Hres).
    repeat split. unfold create_standalone. simpl.
    now rewrite (bind_Ok _ _ _ _ _ (standalone_step_skip env _ _ _ Hres)).
  - intros s rest m st fid Hres st1 Htask.
    pose proof (standalone_step_record env s m st fid Hres) as Hstep.
    cbv zeta in Hstep. fold st1 in Hstep. rewrite Htask in Hstep.
    eexists. rewrite Hstep. repeat split.
    unfold create_standalone. simpl. now rewrite (bind_Ok _ _ _ _ _ Hstep).
  - intros fe t rest m st Hres.
    eexists. rewrite (task_step_skip env _ _ _ _ Hres).
    repeat split. simpl.
    now rewrite (bind_Ok _ _ _ _ _ (task_step_skip env _ _ _ _ Hres)).
Qed.

Lemma failed_creation_is_skipped_witness :
  let env := mkEnv (Sim.source [] []) Sim.refusing in
  let partial := mkEnv (Sim.source [] [])
                   (fun h c => if Sim.is_epic_create c then Sim.dest h c
                               else Sim.refusing h c) in
  let b := Sim.task "gno-s" "Solo" None in
  (exists st1,
     epic_step env [("gno-s", b)] "gno-s" [] initial = (Ok [], st1)
     /\ files st1 = files initial
     /\ create_epics env [("gno-s", b)] ["gno-s"] [] initial
        = create_epics env [("gno-s", b)] [] [] st1)
  /\ (exists st1,
     standalone_step env b [] initial = (Ok [], st1)
     /\ files st1 = files initial
     /\ create_standalone env [b] [] initial = create_standalone env [] [] st1)
  /\ (exists st2,
     standalone_step partial b [] initial = (Ok (Dict.set [] "gno-s" "fn-2"), st2)
     /\ files st2
        = files (standalone_recorded b "fn-2"
                   (after_flowctl partial (epic_create_args "Solo") initial))
     /\ create_standalone partial [b] [] initial
        = create_standalone partial [] (Dict.set [] "gno-s" "fn-2") st2)
  /\ (exists st1,
     task_step env "fn-1" b [] initial = (Ok [], st1)
     /\ files st1 = files initial
     /\ for_each (task_step env "fn-1") [b] [] initial
        = for_each (task_step env "fn-1") [] [] st1).
Proof.
  intros env partial b.
  split; [|split; [|split]].
  - apply (proj1 (failed_creation_is_skipped env) [("gno-s", b)] "gno-s" b [] [] initial).
    + discriminate.
    + reflexivity.
    + reflexivity.
  - apply (proj1 (proj2 (failed_creation_is_skipped env)) b [] [] initial).
    reflexivity.
  - apply (proj1 (proj2 (proj2 (failed_creation_is_skipped partial))) b [] [] initial "fn-2").
    + exists (mkFlowResult (Some true) (Some "fn-2")). repeat split.
    + reflexivity.
  - apply (proj2 (proj2 (proj2 (failed_creation_is_skipped env))) "fn-1" b [] [] initial).
    reflexivity.
Defined.

(** ** The preferred epics *)

(** C10.  When discovery ends and one of the ids [gno-65x], [gno-2yb],
    [gno-b0n] is not a key of the epics found, the run ends with an
    unhandled [KeyError] and the mapping file is not written.  The key of
    the error is such a missing id, raised by [epics[eid]], unless the
    destination tool answered an earlier creation with a true [success]
    flag and no id, in which case [result['id']] has raised first. *)
Theorem missing_preferred_epic_aborts
    (env : Env) (epics : Dict.t Bead) (subtasks : Dict.t (list Bead))
    (standalone : list Bead) (st1 : State) (p : string) :
  discover env initial = (Ok (epics, subtasks, standalone), st1) ->
  In p ["gno-65x"; "gno-2yb"; "gno-b0n"] ->
  Dict.get epics p = None ->
  exists k st',
    main env initial = (Raise (KeyError k), st')
    /\ (k = "id"
          /\ (exists hist args, answered_without_id (flowctl_returns env hist args))
        \/ In k ["gno-65x"; "gno-2yb"; "gno-b0n"] /\ Dict.get epics k = None)
    /\ Forall not_mapping (files st').
Proof.
  intros Hdisc Hp Hget.
  assert (Hex : exists q, In q (epic_order_of epics) /\ q <> "gno-ub9"
                          /\ Dict.get epics q = None).
  { exists p. repeat split; auto.
    - apply epic_order_preferred. simpl in *. tauto.
    - simpl in Hp. intuition (subst; discriminate). }
  destruct (create_epics_aborts env epics (epic_order_of epics)
              (Dict.set [] "gno-ub9" "fn-1") (announced st1) Hex)
    as (k & st' & Hrun & Hk).
  exists k, st'. split; [|split].
  - unfold main. rewrite (bind_Ok _ _ _ _ _ Hdisc), migrate_unfold. now rewrite Hrun.
  - destruct Hk as [Hk|(Hin & Hne & Hnone)]; [now left|right]. split; auto.
    apply epic_order_sound in Hin. destruct Hin as [Hin|Hin].
    + simpl in Hin. simpl. intuition congruence.
    + apply DictFacts.get_In_keys in Hin. congruence.
  - pose proof (discover_files env initial) as Hf. rewrite Hdisc in Hf. simpl in Hf.
    destruct (logs_create_epics env epics (epic_order_of epics)
                (Dict.set [] "gno-ub9" "fn-1") (announced st1))
      as (cs & fs & _ & Hfs & _ & HQ).
    rewrite Hrun in Hfs. simpl in Hfs. rewrite Hfs, Hf. exact HQ.
Qed.

Lemma missing_preferred_epic_aborts_witness :
  exists k st',
    main (Sim.env [Sim.epic "gno-65x" "Search"; Sim.epic "gno-a" "A"] []) initial
      = (Raise (KeyError k), st')
    /\ (k = "id"
          /\ (exists hist args,
                answered_without_id
                  (flowctl_returns
                     (Sim.env [Sim.epic "gno-65x" "Search"; Sim.epic "gno-a" "A"] [])
                     hist args))
        \/ In k ["gno-65x"; "gno-2yb"; "gno-b0n"]
           /\ Dict.get [("gno-65x", Sim.epic "gno-65x" "Search");
                        ("gno-a", Sim.epic "gno-a" "A")] k = None)
    /\ Forall not_mapping (files st').
Proof.
  apply (missing_preferred_epic_aborts
           (Sim.env [Sim.epic "gno-65x" "Search"; Sim.epic "gno-a" "A"] [])
           [("gno-65x", Sim.epic "gno-65x" "Search"); ("gno-a", Sim.epic "gno-a" "A")]
           [] [] (mkState [bd_list_cmd] [] [] []) "gno-2yb").
  - reflexivity.
  - simpl. auto.
  - reflexivity.
Defined.

(** ** The scenario of the specification *)

(** C8 (the code departs from the claim).  When the source lists the three
    beads of the scenario, [gno-ub9] is announced as mapped to [fn-1]
    without any call of the destination tool, and then the lookup of
    [gno-65x] in the epics raises [KeyError]: no task is created and
    nothing is written. *)
Theorem auth_scenario_aborts (env : Env) :
  stdout (bd env [] bd_list_cmd) = Json Sim.auth ->
  main env initial
  = (Raise (KeyError "gno-65x"),
     mkState [bd_list_cmd] []
       ["=== Creating Epics ==="; "gno-ub9 -> fn-1 (already created)"] []).
Proof.
  intros H. unfold main, bind at 1.
  rewrite (discover_Json env initial _ H). reflexivity.
Qed.

Lemma auth_scenario_aborts_witness :
  main (Sim.env Sim.auth Sim.auth) initial
  = (Raise (KeyError "gno-65x"),
     mkState [bd_list_cmd] []
       ["=== Creating Epics ==="; "gno-ub9 -> fn-1 (already created)"] []).
Proof.
  apply (auth_scenario_aborts (Sim.env Sim.auth Sim.auth)). reflexivity.
Defined.

(** With the three named epics among the beads the same scenario goes
    through: [gno-ub9] keeps [fn-1], no epic is requested for it, and the
    task of [gno-ub9.1] is requested before that of [gno-ub9.2]. *)
Example auth_scenario_with_named_epics :
  let st := snd (main (Sim.env (Sim.named ++ Sim.auth) []) initial) in
  calls st
  = [bd_list_cmd;
     flowctl_cmd (epic_create_args "Search");
     flowctl_cmd (epic_create_args "Index");
     flowctl_cmd (epic_create_args "Sync");
     flowctl_cmd ["task"; "create"; "--epic"; "fn-1"; "--title"; "Login";
                  "--priority"; "20"];
     flowctl_cmd ["task"; "create"; "--epic"; "fn-1"; "--title"; "Logout";
                  "--priority"; "20"]]
  /\ last (files st) ("", Text "")
     = (mapping_path,
        JsonDump [("gno-ub9", "fn-1"); ("gno-65x", "fn-2"); ("gno-2yb", "fn-3");
                  ("gno-b0n", "fn-4"); ("gno-ub9.1", "fn-1.1");
                  ("gno-ub9.2", "fn-1.2")]).
Proof. split; vm_compute; reflexivity. Qed.

(** ** Priorities *)

(** C3, amended.  Every task-creation command of a run is of one of two
    forms.  For a fetched bead whose id contains a dot it carries
    [--priority] followed by the bead's priority (2 when the field is
    missing) times 10.  For a fetched bead without a dot that was treated as
    standalone it is the [Implement:] task, which carries no priority. *)
Theorem task_priority_is_ten_times_source
    (env : Env) (r : outcome unit) (st : State) (c : Cmd) :
  main env initial = (r, st) ->
  In c (calls st) ->
  is_task_create c ->
  exists beads,
    stdout (bd env [] bd_list_cmd) = Json beads
    /\ ((exists fe t,
           In t beads /\ PyStr.contains "." (id t) = true
           /\ c = flowctl_cmd
                    ["task"; "create"; "--epic"; fe; "--title"; title t;
                     "--priority"; PyStr.str (get_or (priority t) 2 * 10)%Z])
        \/ (exists fe s,
              In s beads /\ PyStr.contains "." (id s) = false
              /\ c = flowctl_cmd
                       ["task"; "create"; "--epic"; fe; "--title";
                        "Implement: " ++ PyStr.take 50 (title s)])).
Proof.
  intros Hmain Hin Htask.
  destruct (main_calls env r st Hmain)
    as [(x & _ & Hbd)|(e & sub & sa & st1 & cs & Hdisc & _ & Hbd & Hcalls & Hcs)].
  - exfalso. rewrite Forall_forall in Hbd. eapply bd_not_task; eauto.
  - rewrite Hcalls in Hin. apply in_app_or in Hin. destruct Hin as [Hin|Hin].
    + exfalso. rewrite Forall_forall in Hbd. eapply bd_not_task; eauto.
    + destruct (discover_Ok_inv env _ _ _ _ _ Hdisc) as (beads & Hjson & -> & Hfind).
      exists beads. split; [exact Hjson|].
      pose proof (classify_classified beads) as Hcl.
      rewrite Forall_forall in Hcs.
      destruct (Hcs c Hin) as [Hepic|[(fe & s & Hs & ->)|(fe & p & ts & t & Hp & Ht & ->)]].
      * exfalso. eapply epic_cmd_not_task; eauto.
      * right. exists fe, s.
        unfold find_implicit_epics in Hfind.
        apply find_implicit_Ok in Hfind; [|apply (cl_subtasks_nodup _ _ Hcl)].
        destruct Hfind as (_ & _ & _ & _ & _ & Hsa & _).
        destruct (cl_standalone _ _ Hcl s (Hsa s Hs)) as (? & ? & _). auto.
      * left. exists fe, t.
        apply DictFacts.In_get in Hp; [|apply (cl_subtasks_nodup _ _ Hcl)].
        destruct (cl_subtasks _ _ Hcl _ _ _ Hp Ht) as (? & ? & _). auto.
Qed.

Lemma task_priority_is_ten_times_source_witness :
  exists beads,
    stdout (bd (Sim.env (Sim.named ++ Sim.auth) []) [] bd_list_cmd) = Json beads
    /\ ((exists fe t,
           In t beads /\ PyStr.contains "." (id t) = true
           /\ flowctl_cmd ["task"; "create"; "--epic"; "fn-1"; "--title"; "Login";
                           "--priority"; "20"]
              = flowctl_cmd
                  ["task"; "create"; "--epic"; fe; "--title"; title t;
                   "--priority"; PyStr.str (get_or (priority t) 2 * 10)%Z])
        \/ (exists fe s,
              In s beads /\ PyStr.contains "." (id s) = false
              /\ flowctl_cmd ["task"; "create"; "--epic"; "fn-1"; "--title"; "Login";
                              "--priority"; "20"]
                 = flowctl_cmd
                     ["task"; "create"; "--epic"; fe; "--title";
                      "Implement: " ++ PyStr.take 50 (title s)])).
Proof.
  apply (task_priority_is_ten_times_source
           (Sim.env (Sim.named ++ Sim.auth) [])
           (fst (main (Sim.env (Sim.named ++ Sim.auth) []) initial))
           (snd (main (Sim.env (Sim.named ++ Sim.auth) []) initial))).
  - vm_compute. reflexivity.
  - vm_compute. tauto.
  - eexists. reflexivity.
Defined.

(** The claim as first stated fails: the task created for a standalone
    bead of priority 3 is requested without any priority. *)
Lemma standalone_task_has_no_priority :
  let s := Sim.task "gno-s" "Solo" (Some 3%Z) in
  let st := snd (main (Sim.env (Sim.named ++ [s]) []) initial) in
  let c := flowctl_cmd ["task"; "create"; "--epic"; "fn-5"; "--title"; "Implement: Solo"] in
  fst (main (Sim.env (Sim.named ++ [s]) []) initial) = Ok tt
  /\ In c (calls st)
  /\ is_task_create c
  /\ ~ In "--priority" c
  /\ ~ In (PyStr.str (get_or (priority s) 2 * 10)%Z) c.
Proof.
  vm_compute. repeat split.
  - tauto.
  - eexists. reflexivity.
  - intros H. repeat (destruct H as [H|H]; [discriminate|]). exact H.
  - intros H. repeat (destruct H as [H|H]; [discriminate|]). exact H.
Qed.

(** ** The order of the tasks of an epic *)

Section TaskOrder.

Variable env : Env.

Lemma sort_key_suffix t k : suffix_int t = Some k -> sort_key t = Ok k.
Proof.
  unfold suffix_int, sort_key, PyStr.rsplit1.
  destruct (PyStr.rcut "." (id t)) as [[p q]|] eqn:E; [|discriminate].
  intros Hk.
  assert (Hdot : PyStr.contains "." (id t) = true).
  { destruct (PyStr.contains "." (id t)) eqn:Hc; auto.
    apply PyStrFacts.rcut_None in Hc. congruence. }
  rewrite Hdot. simpl. now rewrite Hk.
Qed.

Lemma keyed_suffixes ts :
  (forall t, In t ts -> exists k, suffix_int t = Some k) ->
  exists kts,
    keyed ts = Ok kts /\ map snd kts = ts
    /\ Forall (fun x => suffix_int (snd x) = Some (fst x)) kts.
Proof.
  induction ts as [|t ts IH]; intros H; simpl.
  - exists []. auto.
  - destruct (H t (or_introl eq_refl)) as (k & Hk).
    destruct IH as (kts & Hkeyed & Hmap & Hall); [intros; apply H; now right|].
    rewrite (sort_key_suffix _ _ Hk), Hkeyed.
    exists ((k, t) :: kts). simpl. rewrite Hmap. auto.
Qed.

Lemma sorted_by_suffix l :
  Forall (fun x => suffix_int (snd x) = Some (fst x)) l ->
  StronglySorted key_le l -> StronglySorted suffix_le (map snd l).
Proof.
  intros Hall Hs. induction Hs as [|x l Hs IH Hx]; simpl; constructor.
  - inversion Hall; auto.
  - inversion Hall as [|? ? Hkx Hl]; subst.
    rewrite Forall_forall in *. intros b Hb. apply in_map_iff in Hb.
    destruct Hb as (y & <- & Hy). exists (fst x), (fst y).
    repeat split; auto. apply (Hx y Hy).
Qed.

Lemma has_suffix_with_key k l :
  Forall (fun x => suffix_int (snd x) = Some (fst x)) l ->
  filter (has_suffix k) (map snd l) = map snd (with_key k l).
Proof.
  unfold with_key. induction 1 as [|x l Hx Hl IH]; simpl; auto.
  unfold has_suffix at 1. rewrite Hx, IH. now destruct (fst x =? k)%Z.
Qed.

(** The task loop issues one command per task, in the order of the list,
    and stops early only on a [KeyError] for [result['id']]. *)
Lemma task_loop_calls fe l : forall m st r st',
  for_each (task_step env fe) l m st = (r, st') ->
  exists emitted rest,
    l = (emitted ++ rest)%list
    /\ calls st' = (calls st ++ task_cmds fe emitted)%list
    /\ (rest = [] \/ r = Raise (KeyError "id")).
Proof.
  induction l as [|t l IH]; intros m st r st' Hrun.
  - injection Hrun as <- <-. exists [], []. simpl. rewrite app_nil_r. auto.
  - rewrite for_each_cons in Hrun.
    destruct (task_step_cases env fe t m st)
      as [[Hstep _]|[[Hstep _]|(fid & _ & Hstep)]]; simpl in Hstep;
      rewrite Hstep in Hrun.
    + apply IH in Hrun. destruct Hrun as (em & rest & -> & Hc & Hr).
      exists (t :: em), rest. simpl in *. rewrite Hc, <- app_assoc. auto.
    + injection Hrun as <- <-. exists [t], l. simpl. auto.
    + apply IH in Hrun. destruct Hrun as (em & rest & -> & Hc & Hr).
      exists (t :: em), rest. simpl in *. rewrite Hc, <- app_assoc. auto.
Qed.

(** The key of a subtask is the integer after its last dot, or the sort
    raises [ValueError] with the text found there. *)
Lemma sort_key_dotted t :
  PyStr.contains "." (id t) = true ->
  exists p q,
    PyStr.rcut "." (id t) = Some (p, q)
    /\ sort_key t = match PyStr.int q with
                    | Some n => Ok n
                    | None => Raise (ValueError q)
                    end.
Proof.
  intros Hdot. destruct (PyStrFacts.contains_rcut _ _ Hdot) as (p & q & E).
  exists p, q. split; auto.
  unfold sort_key, PyStr.rsplit1. now rewrite Hdot, E.
Qed.

Lemma group_step_unparsable parent tasks m st fe :
  Dict.get m parent = Some fe -> fe <> "" ->
  (forall t, In t tasks -> PyStr.contains "." (id t) = true) ->
  (exists t, In t tasks /\ suffix_int t = None) ->
  exists q,
    PyStr.int q = None
    /\ group_step env (parent, tasks) m st
       = (Raise (ValueError q),
          printed (PyStr.nl ++ parent ++ " (" ++ fe ++ "):") st).
Proof.
  intros Hget Hne Hdots (t & Hin & Hnone).
  rewrite (group_step_run env _ _ _ _ _ Hget Hne). cbv zeta. unfold sort_tasks.
  destruct (keyed tasks) as [kts|e] eqn:Hk.
  - exfalso. destruct (keyed_Ok _ _ Hk) as [Hmap Hall].
    rewrite <- Hmap in Hin. apply in_map_iff in Hin. destruct Hin as ([k t'] & <- & Hin).
    rewrite Forall_forall in Hall. specialize (Hall _ Hin). simpl in *.
    destruct (sort_key_dotted t') as (p & q & E & Hkey).
    { apply Hdots. rewrite <- Hmap. change t' with (snd (k, t')). now apply in_map. }
    unfold suffix_int in Hnone. rewrite E in Hnone. rewrite Hnone in Hkey. congruence.
  - apply keyed_Raise in Hk. destruct Hk as (t' & Hin' & Hraise).
    destruct (sort_key_dotted t' (Hdots _ Hin')) as (p & q & E & Hkey).
    rewrite Hkey in Hraise. destruct (PyStr.int q) eqn:Hq; [discriminate|].
    injection Hraise as <-. exists q. split; auto.
Qed.

End TaskOrder.

(** C4, amended.  When the epic of [parent] has a destination id and the
    id of each of its subtasks ends, after its last dot, in text that reads
    as an integer, the task-creation commands are issued in non-decreasing
    order of that integer, subtasks with the same integer in the order in
    which they were fetched.  The loop stops before the end of the list only
    when the destination answers with a true [success] flag and no id. *)
Theorem subtasks_emitted_in_suffix_order
    (env : Env) (parent : string) (tasks : list Bead) (m : Dict.t string)
    (st : State) (fe : string) (r : outcome (Dict.t string)) (st' : State) :
  Dict.get m parent = Some fe ->
  fe <> "" ->
  (forall t, In t tasks -> exists k, suffix_int t = Some k) ->
  group_step env (parent, tasks) m st = (r, st') ->
  exists sorted emitted rest,
    Permutation tasks sorted
    /\ StronglySorted suffix_le sorted
    /\ (forall k, filter (has_suffix k) sorted = filter (has_suffix k) tasks)
    /\ sorted = (emitted ++ rest)%list
    /\ calls st' = (calls st ++ task_cmds fe emitted)%list
    /\ (rest = [] \/ r = Raise (KeyError "id")).
Proof.
  intros Hget Hne Hsuf Hrun.
  rewrite (group_step_run env _ _ _ _ _ Hget Hne) in Hrun. cbv zeta in Hrun.
  destruct (keyed_suffixes tasks Hsuf) as (kts & Hkeyed & Hmap & Hall).
  unfold sort_tasks in Hrun. rewrite Hkeyed in Hrun.
  apply task_loop_calls in Hrun. destruct Hrun as (emitted & rest & Hsplit & Hcalls & Hr).
  exists (map snd (sort_keyed kts)), emitted, rest.
  assert (Hall' : Forall (fun x => suffix_int (snd x) = Some (fst x)) (sort_keyed kts)).
  { apply (Permutation_Forall (sort_keyed_perm kts) Hall). }
  repeat split; auto.
  - rewrite <- Hmap. apply Permutation_map, sort_keyed_perm.
  - apply sorted_by_suffix; auto. apply sort_keyed_sorted.
  - intros k. rewrite has_suffix_with_key by auto.
    rewrite sort_keyed_stable, <- has_suffix_with_key by auto. now rewrite Hmap.
Qed.

Lemma subtasks_emitted_in_suffix_order_witness :
  let a := Sim.task "gno-q.10" "Ten" None in
  let b := Sim.task "gno-q.9" "Nine" None in
  let run := group_step (Sim.env [] []) ("gno-q", [a; b]) [("gno-q", "fn-5")] initial in
  exists sorted emitted rest,
    Permutation [a; b] sorted
    /\ StronglySorted suffix_le sorted
    /\ (forall k, filter (has_suffix k) sorted = filter (has_suffix k) [a; b])
    /\ sorted = (emitted ++ rest)%list
    /\ calls (snd run) = (calls initial ++ task_cmds "fn-5" emitted)%list
    /\ (rest = [] \/ fst run = Raise (KeyError "id")).
Proof.
  intros a b run.
  apply (subtasks_emitted_in_suffix_order (Sim.env [] []) "gno-q" [a; b]
           [("gno-q", "fn-5")] initial "fn-5" (fst run) (snd run)).
  - reflexivity.
  - discriminate.
  - intros t [<-|[<-|[]]]; eexists; reflexivity.
  - vm_compute. reflexivity.
Defined.

(** The claim as first stated fails twice.  Two subtasks whose suffixes read
    as the same integer are both emitted, so the order is not strict; and a
    suffix that does not read as an integer makes the sort raise
    [ValueError] instead of counting as 0, so that no task of the epic is
    created. *)
Lemma suffix_order_not_strict_nor_defaulted :
  let a := Sim.task "gno-q.1" "One" None in
  let b := Sim.task "gno-q.01" "One again" None in
  let x := Sim.task "gno-q.x" "No number" None in
  let m := [("gno-q", "fn-5")] in
  (calls (snd (group_step (Sim.env [] []) ("gno-q", [a; b]) m initial))
     = task_cmds "fn-5" [a; b]
   /\ suffix_int a = Some 1%Z /\ suffix_int b = Some 1%Z /\ ~ (1 < 1)%Z)
  /\ (group_step (Sim.env [] []) ("gno-q", [a; x]) m initial
      = (Raise (ValueError "x"), printed (PyStr.nl ++ "gno-q (fn-5):") initial)
      /\ calls (printed (PyStr.nl ++ "gno-q (fn-5):") initial) = []).
Proof.
  intros a b x m. repeat split; try (vm_compute; reflexivity). lia.
Qed.

(** ** Fetching the implicit epics *)

Lemma fetches_shows parent l :
  NoDup l -> In parent l -> fetches parent (map bd_show_cmd l) = 1.
Proof.
  intros Hnd Hin. unfold fetches.
  rewrite <- (count_occ_map bd_show_cmd string_dec cmd_eq_dec).
  - now apply NoDup_count_occ'.
  - intros x y [= ->]. reflexivity.
Qed.

Lemma fetches_none parent h :
  Forall (fun c => c <> bd_show_cmd parent) h -> fetches parent h = 0.
Proof.
  intros H. apply count_occ_not_In. rewrite Forall_forall in H.
  intros Hin. now apply (H _ Hin).
Qed.

(** C6.  Take a run whose discovery ends, a fetched bead [b] whose id has a
    dot, and its parent id, not a key of the epics found among the open
    beads.  Then the record of that parent is fetched exactly once, both in
    the log of discovery and in the log of the whole run.  If the parent is
    an epic after discovery, its epic is the first record that the source
    showed for it, and no standalone bead has that id.  When the source
    shows a record for the parent, the parent is an epic after
    discovery. *)
Theorem implicit_epic_fetched_once
    (env : Env) (beads : list Bead) (epics : Dict.t Bead)
    (subtasks : Dict.t (list Bead)) (standalone : list Bead)
    (st1 : State) (r : outcome unit) (st : State) (b : Bead) :
  stdout (bd env [] bd_list_cmd) = Json beads ->
  discover env initial = (Ok (epics, subtasks, standalone), st1) ->
  main env initial = (r, st) ->
  In b beads ->
  PyStr.contains "." (id b) = true ->
  Dict.mem (fst (fst (classify beads))) (parent_of (id b)) = false ->
  fetches (parent_of (id b)) (calls st1) = 1
  /\ fetches (parent_of (id b)) (calls st) = 1
  /\ (In (parent_of (id b)) (Dict.keys epics) ->
      ~ In (parent_of (id b)) (map id standalone))
  /\ (forall pb, Dict.get epics (parent_of (id b)) = Some pb ->
        shown_first env (parent_of (id b)) pb)
  /\ (shows env (parent_of (id b)) ->
      In (parent_of (id b)) (Dict.keys epics)
      /\ ~ In (parent_of (id b)) (map id standalone)).
Proof.
  intros Hjson Hdisc Hmain Hb Hdot Hmem.
  set (parent := parent_of (id b)) in *.
  destruct (discover_Ok_inv env _ _ _ _ _ Hdisc) as (beads' & Hjson' & -> & Hfind).
  simpl in Hjson'. rewrite Hjson in Hjson'. injection Hjson' as <-.
  pose proof (classify_classified beads) as Hcl.
  assert (Hkey : In parent (Dict.keys (snd (fst (classify beads))))).
  { pose proof (cl_cover _ _ Hcl b Hb) as Hc. rewrite Hdot in Hc.
    destruct Hc as (ts & Hget & _). apply DictFacts.get_In_keys.
    fold parent in Hget. congruence. }
  unfold find_implicit_epics in Hfind.
  pose proof (find_implicit_result env _ _ _ _ _ _ _ Hfind) as (_ & Hshown & _).
  pose proof (fun H => find_implicit_shown env _ _ _ _ _ _ _ parent Hfind Hkey H)
    as Hpromoted.
  apply find_implicit_Ok in Hfind; [|apply (cl_subtasks_nodup _ _ Hcl)].
  destruct Hfind as (Hcalls & _ & _ & _ & _ & _ & _ & Hsa). simpl in Hcalls.
  assert (H1 : fetches parent (calls st1) = 1).
  { rewrite Hcalls. unfold fetches. simpl.
    destruct (cmd_eq_dec bd_list_cmd (bd_show_cmd parent)) as [Heq|_];
      [discriminate|].
    apply fetches_shows.
    - apply NoDup_filter, (cl_subtasks_nodup _ _ Hcl).
    - apply filter_In. split; auto. now rewrite Hmem. }
  assert (H3 : In parent (Dict.keys epics) -> ~ In parent (map id standalone)).
  { intros Hin. destruct (Hsa parent Hkey Hin) as [Hold|Hno]; auto.
    apply DictFacts.mem_false in Hmem. contradiction. }
  split; [exact H1|split; [|split; [exact H3|split]]].
  - destruct (main_calls env r st Hmain)
      as [(x & Hx & _)|(e & sub & sa & st1' & cs & Hdisc' & _ & _ & Hst & Hcs)].
    + rewrite Hdisc in Hx. discriminate.
    + rewrite Hdisc in Hdisc'. injection Hdisc' as <- <- <- <-.
      rewrite Hst. unfold fetches. rewrite count_occ_app. fold (fetches parent (calls st1)).
      rewrite H1. fold (fetches parent cs). rewrite fetches_none; auto.
      eapply Forall_impl; [|exact Hcs].
      intros c Hc ->. apply migrate_cmd_flowctl in Hc.
      eapply bd_not_flowctl; eauto. right. now eexists.
  - intros pb Hget. now apply (Hshown parent pb Hget Hmem).
  - intros Hshows. split; auto.
Qed.

Lemma implicit_epic_fetched_once_witness :
  let q := Sim.task "gno-q" "Queue" None in
  let other := Sim.task "gno-r" "Other" None in
  let q1 := Sim.task "gno-q.1" "Push" None in
  let beads := (Sim.named ++ [q; other; q1])%list in
  let env := Sim.env beads beads in
  let epics := (map (fun e => (id e, e)) Sim.named ++ [("gno-q", q)])%list in
  let st1 := mkState [bd_list_cmd; bd_show_cmd "gno-q"] [] [] [] in
  fetches "gno-q" (calls st1) = 1
  /\ fetches "gno-q" (calls (snd (main env initial))) = 1
  /\ shown_first env "gno-q" q
  /\ In "gno-q" (Dict.keys epics)
  /\ ~ In "gno-q" (map id [other]).
Proof.
  intros q other q1 beads env epics st1.
  destruct (implicit_epic_fetched_once env beads epics
              [("gno-q", [q1])] [other] st1
              (fst (main env initial)) (snd (main env initial)) q1)
    as (H1 & H2 & _ & H4 & H5).
  - reflexivity.
  - vm_compute. reflexivity.
  - vm_compute. reflexivity.
  - simpl. tauto.
  - reflexivity.
  - reflexivity.
  - destruct H5 as [H5 H6].
    + intros hist. exists q, []. reflexivity.
    + repeat split; auto.
Defined.

(** ** The mapping file *)

(** C5, amended.  In a run that ends normally the mapping is written once,
    as the last file, and no two of its entries have the same key.  Every
    key is [gno-ub9] or an id that the creation loops went through (an
    epic, a standalone bead, a subtask); when the destination answers every
    creation with a non-empty id and the parent of every group of subtasks
    is [gno-ub9], an epic or a standalone bead, every such id is a key.
    From one loop to the next the mapping keeps its keys in place and adds
    new ones at the end: no entry is removed. *)
Theorem mapping_written_once_keys_unique (env : Env) (st : State) :
  main env initial = (Ok tt, st) ->
  exists epics subtasks standalone st1 m1 s1 m2 s2 m s3 earlier,
    discover env initial = (Ok (epics, subtasks, standalone), st1)
    /\ create_epics env epics (epic_order_of epics) [("gno-ub9", "fn-1")]
         (announced st1) = (Ok m1, s1)
    /\ create_standalone env standalone m1
         (printed (PyStr.nl ++ "=== Creating Standalone Epics ===") s1) = (Ok m2, s2)
    /\ create_tasks env subtasks m2
         (printed (PyStr.nl ++ "=== Creating Tasks Under Epics ===") s2) = (Ok m, s3)
    /\ extends [("gno-ub9", "fn-1")] m1 /\ extends m1 m2 /\ extends m2 m
    /\ files st = (earlier ++ [(mapping_path, JsonDump m)])%list
    /\ Forall not_mapping earlier
    /\ NoDup (Dict.keys m)
    /\ (forall k, In k (Dict.keys m) -> processed epics subtasks standalone k)
    /\ (dest_ok env -> parents_known epics subtasks standalone ->
        forall k, processed epics subtasks standalone k -> In k (Dict.keys m)).
Proof.
  intros Hmain.
  destruct (main_Ok_inv env st Hmain)
    as (beads & e & sub & sa & st1 & m1 & s1 & m2 & s2 & m & s3 & earlier
        & _ & _ & _ & Hdisc & H1 & H2 & H3 & Hfiles & Hnm).
  destruct (loops_grow env _ _ _ _ _ _ _ _ _ _ _ _ _ _ H1 H2 H3)
    as (E1 & E2 & E3 & (_ & Hnd & Hkeys)).
  exists e, sub, sa, st1, m1, s1, m2, s2, m, s3, earlier.
  repeat split; auto.
  - apply Hnd. simpl. repeat constructor. intros [].
  - intros k Hk. apply Hkeys in Hk. destruct Hk as [[<-|[]]|Hk]; auto. now left.
  - intros Hdest Hknown. eapply loops_cover; eauto.
Qed.

Lemma mapping_written_once_keys_unique_witness :
  let env := Sim.env (Sim.named ++ Sim.auth) [] in
  exists epics subtasks standalone st1 m1 s1 m2 s2 m s3 earlier,
    discover env initial = (Ok (epics, subtasks, standalone), st1)
    /\ create_epics env epics (epic_order_of epics) [("gno-ub9", "fn-1")]
         (announced st1) = (Ok m1, s1)
    /\ create_standalone env standalone m1
         (printed (PyStr.nl ++ "=== Creating Standalone Epics ===") s1) = (Ok m2, s2)
    /\ create_tasks env subtasks m2
         (printed (PyStr.nl ++ "=== Creating Tasks Under Epics ===") s2) = (Ok m, s3)
    /\ extends [("gno-ub9", "fn-1")] m1 /\ extends m1 m2 /\ extends m2 m
    /\ files (snd (main env initial)) = (earlier ++ [(mapping_path, JsonDump m)])%list
    /\ Forall not_mapping earlier
    /\ NoDup (Dict.keys m)
    /\ (forall k, In k (Dict.keys m) -> processed epics subtasks standalone k)
    /\ (dest_ok env -> parents_known epics subtasks standalone ->
        forall k, processed epics subtasks standalone k -> In k (Dict.keys m)).
Proof.
  intros env.
  apply (mapping_written_once_keys_unique env (snd (main env initial))).
  vm_compute. reflexivity.
Defined.

(** The claim as first stated fails: an entry can be overwritten.  With an
    epic [gno-a], its subtask [gno-a.1] and the subtask [gno-a.1.1] of
    that, [gno-a.1] is fetched as the parent of [gno-a.1.1] and recorded as
    the epic [fn-6] by the epic loop; the task loop then records it again as
    the task [fn-5.1] of [gno-a], and this is what the file holds. *)
Lemma mapping_entry_overwritten :
  let env := Sim.env Sim.nested Sim.nested in
  exists epics subtasks standalone st1 m1 s1 m2 s2 m s3,
    discover env initial = (Ok (epics, subtasks, standalone), st1)
    /\ create_epics env epics (epic_order_of epics) [("gno-ub9", "fn-1")]
         (announced st1) = (Ok m1, s1)
    /\ create_standalone env standalone m1
         (printed (PyStr.nl ++ "=== Creating Standalone Epics ===") s1) = (Ok m2, s2)
    /\ create_tasks env subtasks m2
         (printed (PyStr.nl ++ "=== Creating Tasks Under Epics ===") s2) = (Ok m, s3)
    /\ main env initial = (Ok tt, snd (main env initial))
    /\ last (files (snd (main env initial))) ("", Text "") = (mapping_path, JsonDump m)
    /\ Dict.get m1 "gno-a.1" = Some "fn-6"
    /\ Dict.get m "gno-a.1" = Some "fn-5.1"
    /\ ~ append_only m1 m.
Proof.
  intros env. do 10 eexists.
  repeat match goal with |- _ /\ _ => split end;
    try (lazy; reflexivity).
  intros H. specialize (H "gno-a.1" "fn-6" eq_refl). discriminate H.
Qed.

(** ** Every bead is represented *)

Lemma sim_dest_ok open all : dest_ok (Sim.env open all).
Proof.
  intros hist args [(ttl & ->)|[(fe & ttl & ->)|(fe & t & ->)]].
  - eexists. split; [eexists; repeat split|]. discriminate.
  - eexists. split; [eexists; repeat split|]. simpl. destruct fe; discriminate.
  - eexists. split; [eexists; repeat split|]. simpl. destruct fe; discriminate.
Qed.

(** C1, amended.  Take a run that ends normally, with a destination that
    answers every creation with a non-empty id and a source that shows a
    record for the parent id of every fetched subtask.  Then every fetched
    bead has an entry in the mapping that is written; and for every fetched
    bead whose id contains a dot, the parent id is a key of the epics and of
    the mapping, and when it was not an epic among the fetched beads its
    record was fetched by [bd show]. *)
Theorem every_bead_is_recorded (env : Env) (beads : list Bead) (st : State) :
  dest_ok env ->
  show_ok env beads ->
  stdout (bd env [] bd_list_cmd) = Json beads ->
  main env initial = (Ok tt, st) ->
  exists epics subtasks standalone st1 m earlier,
    discover env initial = (Ok (epics, subtasks, standalone), st1)
    /\ files st = (earlier ++ [(mapping_path, JsonDump m)])%list
    /\ (forall b, In b beads -> In (id b) (Dict.keys m))
    /\ (forall b, In b beads -> PyStr.contains "." (id b) = true ->
          In (parent_of (id b)) (Dict.keys epics)
          /\ In (parent_of (id b)) (Dict.keys m)
          /\ (Dict.mem (fst (fst (classify beads))) (parent_of (id b)) = false ->
              In (bd_show_cmd (parent_of (id b))) (calls st))).
Proof.
  intros Hdest Hshow Hjson Hmain.
  destruct (main_Ok_inv env st Hmain)
    as (beads' & e & sub & sa & st1 & m1 & s1 & m2 & s2 & m & s3 & earlier
        & Hjson' & -> & Hfind & Hdisc & H1 & H2 & H3 & Hfiles & _).
  rewrite Hjson in Hjson'. injection Hjson' as <-.
  pose proof (classify_classified beads) as Hcl.
  pose proof (cl_subtasks_nodup _ _ Hcl) as Hnd.
  unfold find_implicit_epics in Hfind.
  pose proof (find_implicit_Ok env _ _ _ _ _ _ _ Hnd Hfind)
    as (Hcalls & _ & Hmono & _ & _ & _ & Hsa & _).
  assert (Hparent : forall b, In b beads -> PyStr.contains "." (id b) = true ->
            In (parent_of (id b)) (Dict.keys (snd (fst (classify beads))))).
  { intros b Hb Hdot. pose proof (cl_cover _ _ Hcl b Hb) as Hc. rewrite Hdot in Hc.
    destruct Hc as (ts & Hget & _). apply DictFacts.get_In_keys. congruence. }
  assert (Hres : forall p, In p (Dict.keys (snd (fst (classify beads)))) ->
            In p (Dict.keys e)).
  { eapply find_implicit_resolved; eauto.
    intros p Hp. apply in_map_iff in Hp. destruct Hp as ([p' ts] & <- & Hg).
    apply DictFacts.In_get in Hg; auto.
    destruct ts as [|t ts].
    - exfalso. exact (cl_nonempty _ _ Hcl _ Hg).
    - destruct (cl_subtasks _ _ Hcl _ _ t Hg (or_introl eq_refl)) as (Ht & Hdot & <-).
      now apply Hshow. }
  assert (Hknown : parents_known e (snd (fst (classify beads))) sa).
  { intros p Hp. right. left. auto. }
  pose proof (loops_cover env _ _ _ _ _ _ _ _ _ _ _ _ Hdest Hknown H1 H2 H3) as Hcover.
  exists e, (snd (fst (classify beads))), sa, st1, m, earlier.
  repeat split; auto.
  - intros b Hb. apply Hcover. pose proof (cl_cover _ _ Hcl b Hb) as Hc.
    destruct (PyStr.contains "." (id b)).
    + destruct Hc as (ts & Hget & Hin). right. right. right.
      exists (parent_of (id b)), ts, b. repeat split; auto.
      now apply DictFacts.get_In.
    + destruct (is_epic b).
      * right. left. auto.
      * destruct (Hsa b Hc) as [Hs|He].
        -- right. right. left. now apply in_map.
        -- right. left. auto.
  - apply Hcover. right. left. auto.
  - intros Hmem.
    destruct (main_calls env _ _ Hmain)
      as [(x & Hx & _)|(e' & sub' & sa' & st1' & cs & Hdisc' & _ & _ & Hst & _)].
    + rewrite Hdisc in Hx. discriminate.
    + rewrite Hdisc in Hdisc'. injection Hdisc' as <- <- <- <-.
      rewrite Hst, Hcalls. apply in_or_app. left. apply in_or_app. right.
      apply in_map, filter_In. split; auto. now rewrite Hmem.
Qed.

Lemma every_bead_is_recorded_witness :
  let q := Sim.task "gno-q" "Queue" None in
  let q1 := Sim.task "gno-q.1" "Push" None in
  let beads := (Sim.named ++ [q; q1])%list in
  let env := Sim.env beads beads in
  exists epics subtasks standalone st1 m earlier,
    discover env initial = (Ok (epics, subtasks, standalone), st1)
    /\ files (snd (main env initial)) = (earlier ++ [(mapping_path, JsonDump m)])%list
    /\ (forall b, In b beads -> In (id b) (Dict.keys m))
    /\ (forall b, In b beads -> PyStr.contains "." (id b) = true ->
          In (parent_of (id b)) (Dict.keys epics)
          /\ In (parent_of (id b)) (Dict.keys m)
          /\ (Dict.mem (fst (fst (classify beads))) (parent_of (id b)) = false ->
              In (bd_show_cmd (parent_of (id b))) (calls (snd (main env initial))))).
Proof.
  intros q q1 beads env.
  apply (every_bead_is_recorded env beads (snd (main env initial))).
  - apply sim_dest_ok.
  - intros b Hin Hdot hist. simpl in Hin.
    repeat (destruct Hin as [<-|Hin]; [try discriminate Hdot|]); [|destruct Hin].
    exists q, []. reflexivity.
  - reflexivity.
  - vm_compute. reflexivity.
Defined.

(** The claim as first stated fails: with a destination that creates
    whatever it is asked, the subtask [gno-q.1] whose parent [gno-q] the
    source does not show is left out.  The run ends normally with the
    warning of line 166, no task is requested, and the mapping has no entry
    for the bead. *)
Lemma orphan_subtask_is_left_out :
  let env := Sim.env Sim.orphan Sim.orphan in
  let st := snd (main env initial) in
  main env initial = (Ok tt, st)
  /\ In (Sim.task "gno-q.1" "Push" None) Sim.orphan
  /\ stdout (bd env [bd_list_cmd] (bd_show_cmd "gno-q")) = Json []
  /\ In "Warning: No flow epic for gno-q" (out st)
  /\ (forall c, In c (calls st) -> ~ is_task_create c)
  /\ exists m,
       last (files st) ("", Text "") = (mapping_path, JsonDump m)
       /\ ~ In "gno-q.1" (Dict.keys m)
       /\ ~ In "gno-q" (Dict.keys m).
Proof.
  intros env st. split; [vm_compute; reflexivity|].
  split; [simpl; tauto|]. split; [reflexivity|].
  split; [vm_compute; tauto|]. split.
  - intros c Hin (rest & ->). vm_compute in Hin.
    repeat (destruct Hin as [Hin|Hin]; [discriminate Hin|]). exact Hin.
  - eexists. split; [vm_compute; reflexivity|].
    split; intros Hin; vm_compute in Hin;
      repeat (destruct Hin as [Hin|Hin]; [discriminate Hin|]); exact Hin.
Qed.

(** * Further properties of the script *)

(** ** The three collections (lines 48-63) *)

Section Collections.

Import Dict DictFacts.

Lemma existsb_keys {V} (d : Dict.t V) k : existsb (String.eqb k) (keys d) = mem d k.
Proof.
  unfold mem. induction d as [|[k' v] d IH]; simpl; auto.
  rewrite String.eqb_sym. destruct (k' =? k); auto.
Qed.

Lemma keys_set_order_add {V} (d : Dict.t V) k v :
  keys (set d k v) = order_add (keys d) k.
Proof.
  rewrite keys_set. unfold order_add. rewrite existsb_keys.
  now destruct (mem d k).
Qed.

Lemma order_add_idem order k : order_add (order_add order k) k = order_add order k.
Proof.
  unfold order_add at 1. destruct (existsb (String.eqb k) (order_add order k)) eqn:E;
    auto.
  exfalso. unfold order_add in E.
  destruct (existsb (String.eqb k) order) eqn:E'; simpl in E; [congruence|].
  rewrite existsb_app in E. simpl in E. rewrite String.eqb_refl in E.
  rewrite orb_true_r in E. discriminate.
Qed.

Lemma last_error_app {A} (l : list A) x : last_error (l ++ [x]) = Some x.
Proof. unfold last_error. now rewrite fold_left_app. Qed.

Lemma last_error_from {A} (l : list A) : forall n,
  fold_left (fun _ x => Some x) l n
  = match last_error l with Some y => Some y | None => n end.
Proof.
  unfold last_error. induction l as [|y l IH]; intros n; simpl; auto.
  rewrite (IH (Some y)). now destruct (fold_left _ l None).
Qed.

Lemma last_error_cons {A} (x : A) l :
  last_error (x :: l) = match last_error l with Some y => Some y | None => Some x end.
Proof. unfold last_error at 1. simpl. apply last_error_from. Qed.

(** The state of the three collections after more beads, from any state. *)
Lemma classify_more l : forall e sub sa,
  let '(e', sub', sa') := fold_left classify_step l (e, sub, sa) in
  sa' = (sa ++ filter goes_standalone l)%list
  /\ keys sub' = fold_left order_add (map (fun b => parent_of (id b)) (filter dotted l))
                   (keys sub)
  /\ keys e' = fold_left order_add
                 (map id (filter (fun b => negb (dotted b) && is_epic b) l)) (keys e)
  /\ (forall p, get sub' p
                = match filter (goes_under p) l with
                  | [] => get sub p
                  | g => Some (get_or (get sub p) [] ++ g)%list
                  end)
  /\ (forall k, get e' k
                = match last_error (filter (goes_epic k) l) with
                  | Some b => Some b
                  | None => get e k
                  end).
Proof.
  induction l as [|b l IH]; intros e sub sa.
  - simpl. rewrite app_nil_r. repeat split; auto.
  - change (fold_left classify_step (b :: l) (e, sub, sa))
      with (fold_left classify_step l (classify_step (e, sub, sa) b)).
    destruct (PyStr.contains "." (id b)) eqn:Hdot.
    + destruct (classify_step_get e sub sa b Hdot) as (sub1 & Hstep & Hsame & Hother & _).
      assert (Hk1 : keys sub1 = order_add (keys sub) (parent_of (id b))).
      { destruct (classify_step_subtasks e sub sa b Hdot) as [H|[H _]];
          rewrite H in Hstep; injection Hstep as <-.
        - apply keys_set_order_add.
        - now rewrite !keys_set_order_add, order_add_idem. }
      rewrite Hstep. specialize (IH e sub1 sa).
      destruct (fold_left classify_step l (e, sub1, sa)) as [[e' sub'] sa'].
      destruct IH as (Hsa & Hks & Hke & Hg & He).
      unfold goes_standalone, goes_under, goes_epic, dotted in *. simpl.
      rewrite Hdot. simpl. rewrite Hk1 in Hks.
      repeat split; auto.
      * intros p. rewrite Hg. destruct (String.eqb_spec (parent_of (id b)) p) as [<-|Hne].
        -- rewrite Hsame. simpl.
           destruct (filter (fun b0 => PyStr.contains "." (id b0)
                                       && (parent_of (id b0) =? parent_of (id b))) l)
             as [|b0 l0]; [reflexivity|].
           f_equal. symmetry. apply (app_assoc _ [b] (b0 :: l0)).
        -- now rewrite Hother by auto.
    + destruct (is_epic b) eqn:Hepic.
      * assert (Hstep : classify_step (e, sub, sa) b = (set e (id b) b, sub, sa)).
        { unfold classify_step. now rewrite Hdot, Hepic. }
        rewrite Hstep. specialize (IH (set e (id b) b) sub sa).
        destruct (fold_left classify_step l (set e (id b) b, sub, sa)) as [[e' sub'] sa'].
        destruct IH as (Hsa & Hks & Hke & Hg & He).
        unfold goes_standalone, goes_under, goes_epic, dotted in *. simpl.
        rewrite Hdot, Hepic. simpl. rewrite keys_set_order_add in Hke.
        repeat split; auto.
        intros k. rewrite He. destruct (String.eqb_spec (id b) k) as [<-|Hne].
        -- rewrite last_error_cons, get_set_same. now destruct (last_error _).
        -- now rewrite get_set_other by auto.
      * assert (Hstep : classify_step (e, sub, sa) b = (e, sub, (sa ++ [b])%list)).
        { unfold classify_step. now rewrite Hdot, Hepic. }
        rewrite Hstep. specialize (IH e sub (sa ++ [b])%list).
        destruct (fold_left classify_step l (e, sub, (sa ++ [b])%list))
          as [[e' sub'] sa'].
        destruct IH as (Hsa & Hks & Hke & Hg & He).
        unfold goes_standalone, goes_under, goes_epic, dotted in *. simpl.
        rewrite Hdot, Hepic. simpl. rewrite Hsa, <- app_assoc.
        repeat split; auto.
Qed.

End Collections.

(** X1.  The standalone list holds the fetched beads that have no dot in
    their id and are not epics, in the order in which they were fetched. *)
Theorem classify_standalone_is_filter (beads : list Bead) :
  snd (classify beads) = filter goes_standalone beads.
Proof.
  pose proof (classify_more beads [] [] []) as H.
  change (fold_left classify_step beads ([], [], [])) with (classify beads) in H.
  destruct (classify beads) as [[e sub] sa].
  cbv iota beta in H. now destruct H as (-> & _).
Qed.

(** X2.  The group of a parent id holds the fetched beads whose id has a
    dot and that parent as prefix, in the order in which they were fetched;
    there is no group for a parent without such a bead, and the groups come
    in the order in which their parents first occur. *)
Theorem classify_groups_are_filters (beads : list Bead) :
  (forall parent,
     Dict.get (snd (fst (classify beads))) parent
     = match filter (goes_under parent) beads with
       | [] => None
       | g => Some g
       end)
  /\ Dict.keys (snd (fst (classify beads)))
     = firsts (map (fun b => parent_of (id b)) (filter dotted beads)).
Proof.
  unfold firsts. pose proof (classify_more beads [] [] []) as H.
  change (fold_left classify_step beads ([], [], [])) with (classify beads) in H.
  destruct (classify beads) as [[e sub] sa].
  cbv iota beta in H. destruct H as (_ & Hk & _ & Hg & _). simpl. split; [|exact Hk].
  intros p. rewrite Hg. simpl. now destruct (filter (goes_under p) beads).
Qed.

(** X3.  The epics dictionary has, under an id, the last fetched bead
    without a dot, of type epic, with that id; its keys come in the order
    in which such ids first occur. *)
Theorem classify_epics_last_wins (beads : list Bead) :
  (forall k, Dict.get (fst (fst (classify beads))) k
             = last_error (filter (goes_epic k) beads))
  /\ Dict.keys (fst (fst (classify beads)))
     = firsts (map id (filter (fun b => negb (dotted b) && is_epic b) beads)).
Proof.
  unfold firsts. pose proof (classify_more beads [] [] []) as H.
  change (fold_left classify_step beads ([], [], [])) with (classify beads) in H.
  destruct (classify beads) as [[e sub] sa].
  cbv iota beta in H. destruct H as (_ & _ & Hk & _ & He). simpl. split; [|exact Hk].
  intros k. rewrite He. simpl. now destruct (last_error (filter (goes_epic k) beads)).
Qed.

(** ** The order of the epics (lines 77-97) *)

Section EpicOrderMore.

Import Dict DictFacts.

Lemma order_fold_nodup l : forall init,
  NoDup l ->
  fold_left order_add l init
  = (init ++ filter (fun k => negb (existsb (String.eqb k) init)) l)%list.
Proof.
  induction l as [|k l IH]; intros init Hnd; simpl.
  - now rewrite app_nil_r.
  - inversion Hnd as [|? ? Hk Hl]; subst. rewrite IH by auto.
    unfold order_add. destruct (existsb (String.eqb k) init) eqn:E; simpl; auto.
    rewrite <- app_assoc. simpl. do 2 f_equal.
    apply filter_ext_in. intros x Hx. rewrite existsb_app. simpl.
    destruct (String.eqb_spec x k) as [->|]; [contradiction|].
    now rewrite orb_false_r.
Qed.

Variable env : Env.

(** The epics that discovery returns have distinct keys. *)
Lemma discover_nodup st epics subtasks standalone st1 :
  discover env st = (Ok (epics, subtasks, standalone), st1) ->
  NoDup (keys epics) /\ NoDup (keys subtasks).
Proof.
  intros H. destruct (discover_Ok_inv env _ _ _ _ _ H) as (beads & _ & -> & Hfind).
  pose proof (classify_classified beads) as Hcl.
  pose proof (cl_subtasks_nodup _ _ Hcl) as Hnd.
  unfold find_implicit_epics in Hfind.
  destruct (find_implicit_Ok env _ _ _ _ _ _ _ Hnd Hfind) as (_ & _ & _ & _ & He & _).
  split; auto. apply He, (cl_epics_nodup _ _ Hcl).
Qed.

Lemma epic_cmds_app epics l1 l2 :
  epic_cmds epics (l1 ++ l2) = (epic_cmds epics l1 ++ epic_cmds epics l2)%list.
Proof. unfold epic_cmds. apply flat_map_app. Qed.

(** The commands of the epic loop: those of the ids gone through, which
    are all the ids unless the loop raised [KeyError]. *)
Lemma create_epics_calls epics order : forall m st r st',
  create_epics env epics order m st = (r, st') ->
  exists done rest,
    order = (done ++ rest)%list
    /\ calls st' = (calls st ++ epic_cmds epics done)%list
    /\ Forall (fun k => k = "gno-ub9" \/ In k (keys epics)) done
    /\ (rest = [] \/ exists k, r = Raise (KeyError k)).
Proof.
  unfold create_epics.
  induction order as [|eid order IH]; intros m st r st' Hrun.
  - injection Hrun as <- <-. exists [], []. simpl. rewrite app_nil_r. auto.
  - rewrite for_each_cons in Hrun.
    assert (Hcons : forall m1 st1,
              for_each (epic_step env epics) order m1 st1 = (r, st') ->
              (eid = "gno-ub9" \/ In eid (keys epics)) ->
              calls st1 = (calls st ++ epic_cmds epics [eid])%list ->
              exists done rest,
                eid :: order = (done ++ rest)%list
                /\ calls st' = (calls st ++ epic_cmds epics done)%list
                /\ Forall (fun k => k = "gno-ub9" \/ In k (keys epics)) done
                /\ (rest = [] \/ exists k, r = Raise (KeyError k))).
    { intros m1 st1 H1 Hin Hc. apply IH in H1.
      destruct H1 as (done & rest & -> & Hcalls & Hall & Hr).
      exists (eid :: done), rest. repeat split; auto.
      rewrite Hcalls, Hc. change (eid :: done) with ([eid] ++ done)%list.
      now rewrite epic_cmds_app, app_assoc. }
    destruct (epic_step_cases env epics eid m st)
      as [[Hstep ->] | [(Hstep & Hne & Hget) | (epic & Hne & Hget & Hcases)]].
    + rewrite Hstep in Hrun. eapply Hcons; eauto. simpl. now rewrite app_nil_r.
    + rewrite Hstep in Hrun. injection Hrun as <- <-.
      exists [], (eid :: order). simpl. rewrite app_nil_r. eauto 6.
    + assert (Hin : In eid (keys epics)) by (apply get_In_keys; congruence).
      assert (Hcmd : epic_cmds epics [eid] = [flowctl_cmd (epic_create_args (title epic))]).
      { unfold epic_cmds. simpl. destruct (String.eqb_spec eid "gno-ub9"); [contradiction|].
        now rewrite Hget. }
      simpl in Hcases.
      destruct Hcases as [[Hstep _] | [[Hstep _] | (fid & _ & Hstep)]];
        rewrite Hstep in Hrun.
      * eapply Hcons; eauto. now rewrite Hcmd.
      * injection Hrun as <- <-. exists [eid], order. rewrite Hcmd. simpl.
        repeat split; eauto.
      * eapply Hcons; eauto. now rewrite Hcmd.
Qed.

End EpicOrderMore.

(** X4.  After a discovery that ends, the epic order is the four preferred
    ids, in the order of the script, followed by the other epic ids in the
    order of the epics dictionary, each once. *)
Theorem epic_order_is_preferred_then_discovered
    (env : Env) (epics : Dict.t Bead) (subtasks : Dict.t (list Bead))
    (standalone : list Bead) (st1 : State) :
  discover env initial = (Ok (epics, subtasks, standalone), st1) ->
  epic_order_of epics
  = (["gno-ub9"; "gno-65x"; "gno-2yb"; "gno-b0n"]
     ++ filter not_preferred (Dict.keys epics))%list
  /\ NoDup (epic_order_of epics).
Proof.
  intros H. destruct (discover_nodup env _ _ _ _ _ H) as [Hnd _].
  assert (Heq : epic_order_of epics = (preferred ++ filter not_preferred (Dict.keys epics))%list).
  { unfold epic_order_of. now rewrite order_fold_nodup. }
  split; [exact Heq|]. rewrite Heq.
  apply NoDup_app.
  - unfold preferred. repeat constructor; simpl; intuition discriminate.
  - now apply NoDup_filter.
  - intros k Hk Hin. apply filter_In in Hin. destruct Hin as [_ Hin].
    unfold not_preferred in Hin. apply negb_true_iff in Hin.
    assert (existsb (String.eqb k) preferred = true); [|congruence].
    apply existsb_exists. exists k. split; auto. apply String.eqb_refl.
Qed.

Lemma epic_order_is_preferred_then_discovered_witness :
  let beads := [Sim.epic "gno-z" "Zeta"; Sim.epic "gno-b0n" "Sync"; Sim.epic "gno-a" "Alpha"] in
  let epics := map (fun b => (id b, b)) beads in
  epic_order_of epics
  = (["gno-ub9"; "gno-65x"; "gno-2yb"; "gno-b0n"]
     ++ filter not_preferred (Dict.keys epics))%list
  /\ NoDup (epic_order_of epics).
Proof.
  intros beads epics.
  apply (epic_order_is_preferred_then_discovered (Sim.env beads []) epics [] []
           (mkState [bd_list_cmd] [] [] [])).
  reflexivity.
Defined.

(** X5.  In a run that ends normally, the commands of discovery are
    followed by one epic-creation command for each id of the epic order
    other than [gno-ub9], in that order and with the title of that epic;
    none is issued for [gno-ub9], and every id of the order other than
    [gno-ub9] is a key of the epics. *)
Theorem epics_created_in_order (env : Env) (st : State) :
  main env initial = (Ok tt, st) ->
  exists epics subtasks standalone st1 later,
    discover env initial = (Ok (epics, subtasks, standalone), st1)
    /\ calls st = (calls st1 ++ epic_cmds epics (epic_order_of epics) ++ later)%list
    /\ Forall (fun k => k = "gno-ub9" \/ In k (Dict.keys epics)) (epic_order_of epics)
    /\ epic_cmds epics (epic_order_of epics)
       = map (fun k => flowctl_cmd
                         (epic_create_args
                            (match Dict.get epics k with
                             | Some epic => title epic
                             | None => ""
                             end)))
           (filter (fun k => negb (k =? "gno-ub9")) (epic_order_of epics)).
Proof.
  intros Hmain.
  destruct (main_Ok_inv env st Hmain)
    as (beads & e & sub & sa & st1 & m1 & s1 & m2 & s2 & m & s3 & earlier
        & _ & _ & _ & Hdisc & H1 & H2 & H3 & _ & _).
  destruct (create_epics_calls env _ _ _ _ _ _ H1)
    as (done & rest & Horder & Hcalls & Hall & [->|(k & Hk)]); [|discriminate].
  rewrite app_nil_r in Horder. subst done.
  destruct (logs_create_standalone env sa m1
              (printed (PyStr.nl ++ "=== Creating Standalone Epics ===") s1))
    as (c2 & _ & Hc2 & _). rewrite H2 in Hc2. simpl in Hc2.
  destruct (logs_create_tasks env sub m2
              (printed (PyStr.nl ++ "=== Creating Tasks Under Epics ===") s2))
    as (c3 & _ & Hc3 & _). rewrite H3 in Hc3. simpl in Hc3.
  unfold main in Hmain. rewrite (bind_Ok _ _ _ _ _ Hdisc) in Hmain.
  destruct (migrate_Ok_inv env _ _ _ _ _ Hmain)
    as (m1' & s1' & m2' & s2' & m3' & s3' & H1' & H2' & H3' & _ & Hlast).
  rewrite H1 in H1'. injection H1' as <- <-.
  rewrite H2 in H2'. injection H2' as <- <-.
  rewrite H3 in H3'. injection H3' as <- <-.
  exists e, sub, sa, st1, (c2 ++ c3)%list. repeat split; auto.
  - rewrite Hlast, Hc3, Hc2, Hcalls. simpl. now rewrite !app_assoc.
  - clear -Hall. induction Hall as [|k l Hk Hl IH]; simpl; auto.
    unfold epic_cmds in *. simpl. destruct (String.eqb_spec k "gno-ub9"); simpl; auto.
    destruct Hk as [|Hk]; [contradiction|]. apply DictFacts.get_In_keys in Hk.
    destruct (Dict.get e k); [|congruence]. simpl. now rewrite IH.
Qed.

Lemma epics_created_in_order_witness :
  let env := Sim.env (Sim.epic "gno-z" "Zeta" :: Sim.named) [] in
  exists epics subtasks standalone st1 later,
    discover env initial = (Ok (epics, subtasks, standalone), st1)
    /\ calls (snd (main env initial))
       = (calls st1 ++ epic_cmds epics (epic_order_of epics) ++ later)%list
    /\ Forall (fun k => k = "gno-ub9" \/ In k (Dict.keys epics)) (epic_order_of epics)
    /\ epic_cmds epics (epic_order_of epics)
       = map (fun k => flowctl_cmd
                         (epic_create_args
                            (match Dict.get epics k with
                             | Some epic => title epic
                             | None => ""
                             end)))
           (filter (fun k => negb (k =? "gno-ub9")) (epic_order_of epics)).
Proof.
  intros env. apply (epics_created_in_order env (snd (main env initial))).
  vm_compute. reflexivity.
Defined.

(** ** The entries of the mapping (lines 87, 100, 124, 185) *)

Section Keeps.

Variable env : Env.
Import Dict DictFacts.

Lemma keeps_refl key m : keeps key m m.
Proof. now intros k _. Qed.

Lemma keeps_trans key m1 m2 m3 : keeps key m1 m2 -> keeps key m2 m3 -> keeps key m1 m3.
Proof. intros H1 H2 k Hk. now rewrite H2, H1. Qed.

Lemma keeps_weaken (key key' : string -> Prop) m m' :
  (forall k, key k -> key' k) -> keeps key m m' -> keeps key' m m'.
Proof. intros H Hk k Hn. apply Hk. auto. Qed.

Lemma assigned_keeps (key : string -> Prop) m k hist args m' :
  key k -> assigned env m k hist args m' -> keeps key m m'.
Proof.
  intros Hk (fid & _ & ->) k' Hn. apply get_set_other. intros ->. contradiction.
Qed.

Lemma rounds_keep {X} (body : X -> Dict.t string -> M (Dict.t string))
    (key : X -> string -> Prop) l :
  (forall x m st m' st', In x l -> body x m st = (Ok m', st') -> keeps (key x) m m') ->
  forall m st m' st',
    for_each body l m st = (Ok m', st') ->
    keeps (fun k => exists x, In x l /\ key x k) m m'.
Proof.
  induction l as [|x l IH]; intros Hround m st m' st' Hrun.
  - injection Hrun as <- _. apply keeps_refl.
  - simpl in Hrun. apply bind_Ok_inv in Hrun. destruct Hrun as (m1 & st1 & H1 & H2).
    eapply keeps_trans.
    + eapply keeps_weaken; [|eapply Hround; [now left|exact H1]].
      intros k Hk. exists x. split; auto. now left.
    + eapply keeps_weaken; [|eapply IH; [|exact H2]].
      * intros k (y & Hy & Hk). exists y. split; auto. now right.
      * intros; eapply Hround; eauto. now right.
Qed.

Lemma create_epics_keeps epics order m st m' st' :
  create_epics env epics order m st = (Ok m', st') ->
  keeps (fun k => In k order /\ k <> "gno-ub9") m m'.
Proof.
  intros H. unfold create_epics in H.
  eapply keeps_weaken;
    [|apply (rounds_keep (epic_step env epics) (fun eid k => k = eid /\ eid <> "gno-ub9")
               order) with (2 := H)].
  - intros k (x & Hx & -> & Hne). auto.
  - intros x m0 st0 m1 st1 _ Hstep. apply epic_step_Ok in Hstep.
    destruct Hstep as [[-> _]|(epic & Hne & _ & [[-> _]|Ha])]; try apply keeps_refl.
    eapply assigned_keeps; [|exact Ha]. auto.
Qed.

Lemma create_standalone_keeps standalone m st m' st' :
  create_standalone env standalone m st = (Ok m', st') ->
  keeps (fun k => In k (map id standalone)) m m'.
Proof.
  intros H. unfold create_standalone in H.
  eapply keeps_weaken;
    [|apply (rounds_keep (standalone_step env) (fun s k => k = id s) standalone)
        with (2 := H)].
  - intros k (s & Hs & ->). now apply in_map.
  - intros x m0 st0 m1 st1 _ Hstep. apply standalone_step_Ok in Hstep.
    destruct Hstep as [[-> _]|Ha]; [apply keeps_refl|].
    eapply assigned_keeps; [|exact Ha]. reflexivity.
Qed.

Lemma task_loop_keeps fe l m st m' st' :
  for_each (task_step env fe) l m st = (Ok m', st') ->
  keeps (fun k => In k (map id l)) m m'.
Proof.
  intros H.
  eapply keeps_weaken;
    [|apply (rounds_keep (task_step env fe) (fun t k => k = id t) l) with (2 := H)].
  - intros k (t & Ht & ->). now apply in_map.
  - intros x m0 st0 m1 st1 _ Hstep. apply task_step_Ok in Hstep.
    destruct Hstep as [[-> _]|Ha]; [apply keeps_refl|].
    eapply assigned_keeps; [|exact Ha]. reflexivity.
Qed.

Lemma create_tasks_keeps subtasks m st m' st' :
  create_tasks env subtasks m st = (Ok m', st') ->
  keeps (is_subtask_id subtasks) m m'.
Proof.
  intros H. unfold create_tasks, items in H.
  eapply keeps_weaken;
    [|apply (rounds_keep (group_step env) (fun g k => In k (map id (snd g))) subtasks)
        with (2 := H)].
  - intros k ([p ts] & Hg & Hk). simpl in Hk. apply in_map_iff in Hk.
    destruct Hk as (t & <- & Ht). exists p, ts, t. auto.
  - intros [p ts] m0 st0 m1 st1 _ Hstep. apply group_step_Ok in Hstep.
    destruct Hstep as [[-> _]|(fe & sorted & s1 & _ & _ & Hsort & Hloop)];
      [apply keeps_refl|].
    apply task_loop_keeps in Hloop. eapply keeps_weaken; [|exact Hloop].
    simpl. intros k Hk. apply in_map_iff in Hk. destruct Hk as (t & <- & Ht).
    apply in_map. eapply Permutation_in; [|exact Ht].
    apply Permutation_sym. now apply sort_tasks_perm.
Qed.

End Keeps.

(** X6.  In a run that ends normally in which every fetched bead named
    [gno-ub9] is an epic, the mapping that is written gives [fn-1] for
    [gno-ub9]: no loop assigns that key. *)
Theorem premapped_epic_keeps_its_id (env : Env) (beads : list Bead) (st : State) :
  stdout (bd env [] bd_list_cmd) = Json beads ->
  (forall b, In b beads -> id b = "gno-ub9" -> is_epic b = true) ->
  main env initial = (Ok tt, st) ->
  exists earlier m,
    files st = (earlier ++ [(mapping_path, JsonDump m)])%list
    /\ Dict.get m "gno-ub9" = Some "fn-1".
Proof.
  intros Hjson Hub Hmain.
  destruct (main_Ok_inv env st Hmain)
    as (beads' & e & sub & sa & st1 & m1 & s1 & m2 & s2 & m & s3 & earlier
        & Hjson' & -> & Hfind & _ & H1 & H2 & H3 & Hfiles & _).
  rewrite Hjson in Hjson'. injection Hjson' as <-.
  exists earlier, m. split; auto.
  pose proof (classify_classified beads) as Hcl.
  unfold find_implicit_epics in Hfind.
  destruct (find_implicit_Ok env _ _ _ _ _ _ _ (cl_subtasks_nodup _ _ Hcl) Hfind)
    as (_ & _ & _ & _ & _ & Hsa & _).
  rewrite (create_tasks_keeps env _ _ _ _ _ H3).
  - rewrite (create_standalone_keeps env _ _ _ _ _ H2).
    + rewrite (create_epics_keeps env _ _ _ _ _ _ H1); [reflexivity|].
      intros [_ Hne]. now apply Hne.
    + intros Hin. apply in_map_iff in Hin. destruct Hin as (s & Hid & Hs).
      destruct (cl_standalone _ _ Hcl s (Hsa s Hs)) as (Hb & _ & Hne).
      rewrite (Hub s Hb Hid) in Hne. discriminate.
  - intros (p & ts & t & Hg & Ht & Hid).
    apply DictFacts.In_get in Hg; [|apply (cl_subtasks_nodup _ _ Hcl)].
    destruct (cl_subtasks _ _ Hcl _ _ _ Hg Ht) as (_ & Hdot & _).
    rewrite Hid in Hdot. discriminate.
Qed.

Lemma premapped_epic_keeps_its_id_witness :
  let env := Sim.env (Sim.named ++ Sim.auth) [] in
  exists earlier m,
    files (snd (main env initial)) = (earlier ++ [(mapping_path, JsonDump m)])%list
    /\ Dict.get m "gno-ub9" = Some "fn-1".
Proof.
  intros env.
  apply (premapped_epic_keeps_its_id env (Sim.named ++ Sim.auth) (snd (main env initial))).
  - reflexivity.
  - intros b Hin Hid. simpl in Hin.
    repeat (destruct Hin as [<-|Hin]; [try discriminate Hid; try reflexivity|]).
    destruct Hin.
  - vm_compute. reflexivity.
Defined.

(** ** The effects of a whole run *)

Section Effects.

Variable env : Env.
Import Dict DictFacts.

(** Two descriptions of the effects of a computation hold together. *)
Lemma logs_and {A} (P1 P2 : Cmd -> Prop) (Q1 Q2 : string * Content -> Prop) (m : M A) :
  logs P1 Q1 m -> logs P2 Q2 m ->
  logs (fun c => P1 c /\ P2 c) (fun f => Q1 f /\ Q2 f) m.
Proof.
  intros H1 H2 st.
  destruct (H1 st) as (cs & fs & Hc & Hf & HP & HQ).
  destruct (H2 st) as (cs' & fs' & Hc' & Hf' & HP' & HQ').
  rewrite Hc in Hc'. apply app_inv_head in Hc'. subst cs'.
  rewrite Hf in Hf'. apply app_inv_head in Hf'. subst fs'.
  exists cs, fs. repeat split; auto.
  - rewrite Forall_forall in *. auto.
  - rewrite Forall_forall in *. auto.
Qed.

Lemma spec_file_is path s fid : path = ".flow/specs/" ++ fid ++ ".md" ->
  is_spec_file (path, Text s).
Proof. intros ->. now exists fid, s. Qed.

Lemma writes_epic_step epics eid m :
  logs (fun _ => True) is_spec_file (epic_step env epics eid m).
Proof.
  unfold epic_step. repeat logs_step; auto. now eexists _, _.
Qed.

Lemma writes_standalone_step s m :
  logs (fun _ => True) (fun f => is_spec_file f \/ is_task_file f)
    (standalone_step env s m).
Proof.
  unfold standalone_step. repeat logs_step; auto.
  - left. now eexists _, _.
  - right. now eexists _, _.
Qed.

Lemma writes_task_step fe t m :
  logs (fun _ => True) is_task_file (task_step env fe t m).
Proof.
  unfold task_step. repeat logs_step; auto. now eexists _, _.
Qed.

Lemma writes_group_step g m :
  logs (fun _ => True) is_task_file (group_step env g m).
Proof.
  destruct g as [parent ts]. unfold group_step.
  destruct (get m parent) as [[|a fe]|]; repeat logs_step.
  apply logs_for_each. intros; apply writes_task_step.
Qed.

(** The three loops: what they run and what they write. *)
Lemma effects_create_epics epics order m :
  logs is_epic_cmd is_spec_file (create_epics env epics order m).
Proof.
  eapply logs_weaken; [| |apply logs_and;
    [apply logs_create_epics
    |apply logs_for_each; intros; apply writes_epic_step]]; cbv beta; tauto.
Qed.

Lemma effects_create_standalone standalone m :
  logs (fun c => is_epic_cmd c \/ is_standalone_task_form c)
    (fun f => is_spec_file f \/ is_task_file f)
    (create_standalone env standalone m).
Proof.
  eapply logs_weaken; [| |apply logs_and;
    [apply logs_create_standalone
    |apply logs_for_each; intros; apply writes_standalone_step]]; cbv beta.
  - intros c [[H|(fe & s & _ & ->)] _]; [now left|right]. now eexists _, _.
  - tauto.
Qed.

Lemma effects_group_step g m :
  logs is_subtask_form is_task_file (group_step env g m).
Proof.
  destruct g as [parent ts]. unfold group_step.
  destruct (get m parent) as [[|a fe]|]; repeat logs_step.
  apply logs_for_each. intros t acc _.
  eapply logs_weaken; [| |apply logs_and;
    [apply logs_task_step|apply writes_task_step]]; cbv beta.
  - intros c [-> _]. eexists _, _. split; [|reflexivity]. discriminate.
  - tauto.
Qed.

Lemma effects_create_tasks subtasks m :
  logs is_subtask_form is_task_file (create_tasks env subtasks m).
Proof.
  apply logs_for_each. intros; apply effects_group_step.
Qed.

(** *** What a loop that raises has raised *)

Lemma for_each_Raise {X A} (body : X -> A -> M A) l : forall acc st x st',
  for_each body l acc st = (Raise x, st') ->
  exists y acc0 st0, In y l /\ body y acc0 st0 = (Raise x, st').
Proof.
  induction l as [|y l IH]; intros acc st x st' Hrun; [discriminate|].
  rewrite for_each_cons in Hrun.
  destruct (body y acc st) as [[acc1|x1] st1] eqn:Hstep.
  - apply IH in Hrun. destruct Hrun as (z & a0 & s0 & Hz & Hb).
    exists z, a0, s0. split; auto. now right.
  - injection Hrun as <- <-. exists y, acc, st. split; auto. now left.
Qed.

Lemma sort_key_Raise t x :
  sort_key t = Raise x -> exists q, PyStr.int q = None /\ x = ValueError q.
Proof.
  unfold sort_key. destruct (PyStr.contains "." (id t)) eqn:Hdot; [|discriminate].
  destruct (PyStrFacts.contains_rcut _ _ Hdot) as (p & q & E).
  unfold PyStr.rsplit1. rewrite E. simpl.
  destruct (PyStr.int q) eqn:Hq; [discriminate|]. intros [= <-]. eauto.
Qed.

Lemma standalone_step_Raise s m st x st' :
  standalone_step env s m st = (Raise x, st') -> x = KeyError "id".
Proof.
  intros Hrun.
  destruct (succeeded (flowctl_returns env (calls st) (epic_create_args (title s))))
    eqn:Hs.
  - destruct (succeeded_answered _ Hs) as [(fid & Hfid)|(r & Hr & Hsu & Hid)].
    + pose proof (standalone_step_record env s m st fid Hfid) as Hstep.
      cbv zeta in Hstep. rewrite Hstep in Hrun.
      repeat match type of Hrun with
             | (if ?b then _ else _) = _ => destruct b
             | match ?y with _ => _ end = _ => destruct y
             end; try discriminate; now injection Hrun as <- _.
    + unfold standalone_step in Hrun.
      rewrite (bind_Ok _ _ _ _ _ (flowctl_run env _ st)), Hr in Hrun.
      rewrite Hr in Hs. rewrite Hs in Hrun. unfold result_id in Hrun.
      rewrite Hid in Hrun. now injection Hrun as <- _.
  - rewrite standalone_step_skip in Hrun by auto. discriminate.
Qed.

Lemma group_step_Raise g m st x st' :
  group_step env g m st = (Raise x, st') ->
  x = KeyError "id" \/ exists q, PyStr.int q = None /\ x = ValueError q.
Proof.
  destruct g as [parent ts]. intros Hrun.
  destruct (get m parent) as [fe|] eqn:Hget.
  - destruct (string_dec fe "") as [->|Hne].
    + rewrite group_step_warn in Hrun by auto. discriminate.
    + rewrite (group_step_run env _ _ _ _ _ Hget Hne) in Hrun. cbv zeta in Hrun.
      unfold sort_tasks in Hrun. destruct (keyed ts) as [kts|x0] eqn:Hk.
      * left. apply for_each_Raise in Hrun.
        destruct Hrun as (t & m0 & s0 & _ & Hstep).
        destruct (task_step_cases env fe t m0 s0)
          as [[H _]|[[H _]|(fid & _ & H)]]; simpl in H; rewrite H in Hstep;
          try discriminate. now injection Hstep as <- _.
      * right. injection Hrun as <- _. apply keyed_Raise in Hk.
        destruct Hk as (t & _ & Hraise). now apply sort_key_Raise in Hraise.
  - rewrite group_step_warn in Hrun by auto. discriminate.
Qed.

Lemma create_epics_Raise epics order m st x st' :
  create_epics env epics order m st = (Raise x, st') ->
  x = KeyError "id"
  \/ exists k, In k order /\ k <> "gno-ub9" /\ get epics k = None /\ x = KeyError k.
Proof.
  intros Hrun. apply for_each_Raise in Hrun.
  destruct Hrun as (eid & m0 & s0 & Hin & Hstep).
  destruct (epic_step_cases env epics eid m0 s0)
    as [[H _] | [(H & Hne & Hget) | (epic & _ & _ & Hcases)]].
  - rewrite H in Hstep. discriminate.
  - rewrite H in Hstep. injection Hstep as <- _. right. exists eid. auto.
  - simpl in Hcases. destruct Hcases as [[H _] | [[H _] | (fid & _ & H)]];
      rewrite H in Hstep; try discriminate. injection Hstep as <- _. now left.
Qed.

Lemma implicit_step_Raise parent acc st x st' :
  implicit_step env parent acc st = (Raise x, st') ->
  exists raw, x = JSONDecodeError raw /\ files st' = files st.
Proof.
  destruct acc as [e sa]. destruct (mem e parent) eqn:Hmem.
  - rewrite implicit_step_known by auto. discriminate.
  - rewrite implicit_step_fetch by auto.
    destruct (stdout (bd env (calls st) (bd_show_cmd parent))) as [raw|[|pb data]];
      try discriminate.
    intros [= <- <-]. eauto.
Qed.

(** Discovery raises only when an output of the source does not parse. *)
Lemma discover_Raise st x st' :
  discover env st = (Raise x, st') -> exists raw, x = JSONDecodeError raw.
Proof.
  intros Hrun. unfold discover in Hrun. apply bind_inv in Hrun.
  destruct Hrun as [(beads & s0 & Hget & Hrun)|(x0 & Hget & [= <-])].
  - destruct (classify beads) as [[e sub] sa]. apply bind_inv in Hrun.
    destruct Hrun as [([e' sa'] & s1 & _ & Hret)|(x0 & Hfind & [= <-])];
      [discriminate|].
    unfold find_implicit_epics in Hfind. apply for_each_Raise in Hfind.
    destruct Hfind as (p & a0 & s2 & _ & Hstep).
    apply implicit_step_Raise in Hstep. destruct Hstep as (raw & -> & _). eauto.
  - rewrite get_beads_run in Hget.
    destruct (stdout (bd env (calls st) bd_list_cmd)); [|discriminate].
    injection Hget as <- _. eauto.
Qed.

(** The effects of the creation phases, whatever the outcome. *)
Lemma migrate_effects epics subtasks standalone st r st' :
  migrate env (epics, subtasks, standalone) st = (r, st') ->
  exists c1 c2 c3 f1 f2 f3 tail,
    calls st' = (calls st ++ c1 ++ c2 ++ c3)%list
    /\ files st' = (files st ++ f1 ++ f2 ++ f3 ++ tail)%list
    /\ Forall is_epic_cmd c1
    /\ Forall (fun c => is_epic_cmd c \/ is_standalone_task_form c) c2
    /\ Forall is_subtask_form c3
    /\ Forall is_spec_file f1
    /\ Forall (fun f => is_spec_file f \/ is_task_file f) f2
    /\ Forall is_task_file f3
    /\ (r = Ok tt /\ (exists m, tail = [(mapping_path, JsonDump m)])
        \/ (exists x, r = Raise x /\ raised_by_migrate x) /\ tail = []).
Proof.
  rewrite migrate_unfold.
  destruct (effects_create_epics epics (epic_order_of epics) (set [] "gno-ub9" "fn-1")
              (announced st)) as (c1 & f1 & Hc1 & Hf1 & HP1 & HQ1).
  destruct (create_epics env epics (epic_order_of epics) _ (announced st))
    as [[m1|x] s1] eqn:E1; simpl in Hc1, Hf1.
  - destruct (effects_create_standalone standalone m1
                (printed (PyStr.nl ++ "=== Creating Standalone Epics ===") s1))
      as (c2 & f2 & Hc2 & Hf2 & HP2 & HQ2).
    destruct (create_standalone env standalone m1 _) as [[m2|x] s2] eqn:E2;
      simpl in Hc2, Hf2.
    + destruct (effects_create_tasks subtasks m2
                  (printed (PyStr.nl ++ "=== Creating Tasks Under Epics ===") s2))
        as (c3 & f3 & Hc3 & Hf3 & HP3 & HQ3).
      destruct (create_tasks env subtasks m2 _) as [[m3|x] s3] eqn:E3;
        simpl in Hc3, Hf3; intros [= <- <-].
      * exists c1, c2, c3, f1, f2, f3, [(mapping_path, JsonDump m3)]. simpl.
        rewrite Hc3, Hc2, Hc1, Hf3, Hf2, Hf1, <- !app_assoc.
        repeat split; auto. left. eauto.
      * exists c1, c2, c3, f1, f2, f3, []. simpl.
        rewrite Hc3, Hc2, Hc1, Hf3, Hf2, Hf1, <- !app_assoc, !app_nil_r.
        repeat split; auto. right. split; auto. exists x. split; auto.
        unfold create_tasks, items in E3. apply for_each_Raise in E3.
        destruct E3 as (g & m0 & s0 & _ & Hstep). apply group_step_Raise in Hstep.
        destruct Hstep as [->|(q & Hq & ->)]; [now left|right; right; eauto].
    + intros [= <- <-]. exists c1, c2, [], f1, f2, [], []. simpl.
      rewrite Hc2, Hc1, Hf2, Hf1, <- !app_assoc, !app_nil_r.
      repeat split; auto. right. split; auto. exists x. split; auto.
      unfold create_standalone in E2. apply for_each_Raise in E2.
      destruct E2 as (s & m0 & s0 & _ & Hstep). apply standalone_step_Raise in Hstep.
      subst x. now left.
  - intros [= <- <-]. exists c1, [], [], f1, [], [], []. simpl.
    rewrite Hc1, Hf1, !app_nil_r.
    repeat split; auto. right. split; auto. exists x. split; auto.
    apply create_epics_Raise in E1.
    destruct E1 as [->|(k & Hin & Hne & Hget & ->)]; [now left|right; left].
    exists k. split; auto. apply epic_order_sound in Hin. destruct Hin as [Hin|Hin].
    + simpl in Hin. simpl. intuition congruence.
    + apply get_In_keys in Hin. congruence.
Qed.

End Effects.

Section RunEffects.

Variable env : Env.

Lemma logs_shows l acc :
  logs is_show (fun _ => False) (for_each (implicit_step env) l acc).
Proof.
  apply logs_for_each. intros parent [e sa] _. unfold implicit_step.
  destruct (negb (Dict.mem e parent)); [|apply logs_ret].
  logs_step; [|repeat logs_step].
  unfold get_bead. repeat logs_step. apply logs_run_bd. now eexists.
Qed.

(** Discovery lists the open beads, then only shows records; it writes
    nothing. *)
Lemma discover_calls st :
  exists shows,
    calls (snd (discover env st)) = (calls st ++ bd_list_cmd :: shows)%list
    /\ Forall is_show shows
    /\ files (snd (discover env st)) = files st.
Proof.
  assert (Hcalls : exists shows,
            calls (snd (discover env st)) = (calls st ++ bd_list_cmd :: shows)%list
            /\ Forall is_show shows).
  { unfold discover. unfold bind at 1. rewrite get_beads_run.
    destruct (json_loads (stdout (bd env (calls st) bd_list_cmd))) as [beads|x].
    - destruct (classify beads) as [[e sub] sa].
      unfold find_implicit_epics. unfold bind.
      destruct (logs_shows (Dict.keys sub) (e, sa)
                  (mkState (calls st ++ [bd_list_cmd]) (files st) (out st) (err st)))
        as (cs & fs & Hc & _ & HP & _).
      destruct (for_each (implicit_step env) (Dict.keys sub) (e, sa) _)
        as [[[e' sa']|x] s1]; simpl in *;
        exists cs; rewrite Hc, <- app_assoc; auto.
    - exists []. simpl. auto. }
  destruct Hcalls as (shows & Hc & HP). exists shows. repeat split; auto.
  apply discover_files.
Qed.

(** The loop over the parents, when it raises: the last command is the
    fetch whose output did not parse. *)
Lemma find_implicit_Raise_inv l : forall acc st x st',
  for_each (implicit_step env) l acc st = (Raise x, st') ->
  exists p raw shows,
    x = JSONDecodeError raw
    /\ calls st' = ((calls st ++ shows) ++ [bd_show_cmd p])%list
    /\ Forall is_show shows
    /\ stdout (bd env (calls st ++ shows) (bd_show_cmd p)) = NotJson raw
    /\ files st' = files st /\ out st' = out st /\ err st' = err st.
Proof.
  induction l as [|q l IH]; intros [e sa] st x st' Hrun; [discriminate|].
  rewrite for_each_cons in Hrun.
  destruct (Dict.mem e q) eqn:Hmem.
  - rewrite implicit_step_known in Hrun by auto.
    destruct (IH _ _ _ _ Hrun) as (p & raw & shows & H). now exists p, raw, shows.
  - rewrite implicit_step_fetch in Hrun by auto.
    destruct (stdout (bd env (calls st) (bd_show_cmd q))) as [raw|[|pb data]] eqn:Hout.
    + injection Hrun as <- <-. exists q, raw, []. simpl. rewrite app_nil_r.
      repeat split; auto.
    + destruct (IH _ _ _ _ Hrun) as (p & raw & shows & -> & Hc & Hs & Ho & Hf & Hp & He).
      simpl in Hc, Ho, Hf, Hp, He.
      assert (Heq : ((calls st ++ [bd_show_cmd q]) ++ shows
                     = calls st ++ bd_show_cmd q :: shows)%list)
        by now rewrite <- app_assoc.
      rewrite Heq in Hc, Ho. exists p, raw, (bd_show_cmd q :: shows).
      repeat split; auto. constructor; auto. now exists q.
    + destruct (IH _ _ _ _ Hrun) as (p & raw & shows & -> & Hc & Hs & Ho & Hf & Hp & He).
      simpl in Hc, Ho, Hf, Hp, He.
      assert (Heq : ((calls st ++ [bd_show_cmd q]) ++ shows
                     = calls st ++ bd_show_cmd q :: shows)%list)
        by now rewrite <- app_assoc.
      rewrite Heq in Hc, Ho. exists p, raw, (bd_show_cmd q :: shows).
      repeat split; auto. constructor; auto. now exists q.
Qed.

(** Discovery, when it raises. *)
Lemma discover_Raise_inv st x st' :
  discover env st = (Raise x, st') ->
  exists hist cmd raw shows,
    x = JSONDecodeError raw
    /\ calls st' = (hist ++ [cmd])%list
    /\ hist = (calls st ++ shows)%list
    /\ Forall (fun c => c = bd_list_cmd \/ is_show c) shows
    /\ is_bd cmd
    /\ stdout (bd env hist cmd) = NotJson raw
    /\ files st' = files st /\ out st' = out st /\ err st' = err st.
Proof.
  intros Hrun. unfold discover in Hrun. apply bind_inv in Hrun.
  destruct Hrun as [(beads & s0 & Hget & Hrun)|(x0 & Hget & [= <-])].
  - rewrite get_beads_run in Hget. injection Hget as _ <-.
    destruct (classify beads) as [[e sub] sa]. apply bind_inv in Hrun.
    destruct Hrun as [([e' sa'] & s1 & _ & Hret)|(x0 & Hfind & [= <-])];
      [discriminate|].
    unfold find_implicit_epics in Hfind.
    destruct (find_implicit_Raise_inv _ _ _ _ _ Hfind)
      as (p & raw & shows & -> & Hc & Hs & Ho & Hf & Hp & He).
    simpl in Hc, Ho, Hf, Hp, He.
    assert (Heq : ((calls st ++ [bd_list_cmd]) ++ shows
                   = calls st ++ bd_list_cmd :: shows)%list)
      by now rewrite <- app_assoc.
    rewrite Heq in Hc, Ho.
    exists (calls st ++ bd_list_cmd :: shows)%list, (bd_show_cmd p), raw,
      (bd_list_cmd :: shows).
    repeat split; auto.
    + constructor; [now left|]. eapply Forall_impl; [|exact Hs]. now right.
    + right. now exists p.
  - rewrite get_beads_run in Hget.
    destruct (stdout (bd env (calls st) bd_list_cmd)) as [raw|beads] eqn:Hout;
      [|discriminate].
    injection Hget as <- <-. exists (calls st), bd_list_cmd, raw, []. simpl.
    rewrite app_nil_r. repeat split; auto. now left.
Qed.

(** The effects of a run, whatever its outcome. *)
Lemma main_effects :
  exists shows c1 c2 c3 f1 f2 f3 tail,
    calls (snd (main env initial)) = (bd_list_cmd :: shows ++ c1 ++ c2 ++ c3)%list
    /\ files (snd (main env initial)) = (f1 ++ f2 ++ f3 ++ tail)%list
    /\ Forall is_show shows
    /\ Forall is_epic_cmd c1
    /\ Forall (fun c => is_epic_cmd c \/ is_standalone_task_form c) c2
    /\ Forall is_subtask_form c3
    /\ Forall is_spec_file f1
    /\ Forall (fun f => is_spec_file f \/ is_task_file f) f2
    /\ Forall is_task_file f3
    /\ (fst (main env initial) = Ok tt
          /\ (exists m, tail = [(mapping_path, JsonDump m)])
        \/ (exists x, fst (main env initial) = Raise x /\ raised_by_migrate x)
           /\ tail = []
        \/ (exists raw, fst (main env initial) = Raise (JSONDecodeError raw))
           /\ c1 = [] /\ c2 = [] /\ c3 = []
           /\ f1 = [] /\ f2 = [] /\ f3 = [] /\ tail = []).
Proof.
  destruct (discover_calls initial) as (shows & Hc0 & Hshows & Hf0).
  unfold main, bind.
  destruct (discover env initial) as [[[[e sub] sa]|x] st1] eqn:Hdisc;
    simpl in Hc0, Hf0.
  - destruct (migrate env (e, sub, sa) st1) as [r st] eqn:Hmig.
    destruct (migrate_effects env _ _ _ _ _ _ Hmig)
      as (c1 & c2 & c3 & f1 & f2 & f3 & tail & Hc & Hf & H1 & H2 & H3 & H4 & H5 & H6 & Hr).
    exists shows, c1, c2, c3, f1, f2, f3, tail. simpl.
    rewrite Hc, Hc0, Hf, Hf0. simpl. repeat split; auto.
    destruct Hr as [[-> Hm]|[(x & -> & Hx) ->]]; [left|right; left]; eauto.
  - exists shows, [], [], [], [], [], [], []. simpl.
    rewrite Hc0, Hf0, app_nil_r. repeat split; auto.
    right. right. apply discover_Raise in Hdisc. destruct Hdisc as (raw & ->).
    repeat split; eauto.
Qed.

End RunEffects.

(** X7.  The commands of any run come in phases: the listing of the open
    beads, then the fetches of single records, then the creations of the
    epics, then the creations for the standalone beads (an epic and its
    task each), then the creations of the tasks of the subtasks.  No record
    is fetched once the first creation has been requested. *)
Theorem commands_come_in_phases (env : Env) :
  exists shows epic_calls standalone_calls task_calls,
    calls (snd (main env initial))
    = (bd_list_cmd :: shows ++ epic_calls ++ standalone_calls ++ task_calls)%list
    /\ Forall is_show shows
    /\ Forall is_epic_cmd epic_calls
    /\ Forall (fun c => is_epic_cmd c \/ is_standalone_task_form c) standalone_calls
    /\ Forall is_subtask_form task_calls.
Proof.
  destruct (main_effects env)
    as (shows & c1 & c2 & c3 & _ & _ & _ & _ & Hc & _ & H0 & H1 & H2 & H3 & _).
  exists shows, c1, c2, c3. auto.
Qed.

(** X8.  A run writes the mapping file if and only if it ends normally: a
    run that ends with an exception leaves the spec files it has written
    and no mapping. *)
Theorem mapping_file_iff_normal_end (env : Env) :
  fst (main env initial) = Ok tt
  <-> In mapping_path (map fst (files (snd (main env initial)))).
Proof.
  destruct (main_effects env)
    as (shows & c1 & c2 & c3 & f1 & f2 & f3 & tail
        & _ & Hf & _ & _ & _ & _ & H1 & H2 & H3 & Hr).
  assert (Hnot : ~ In mapping_path (map fst (f1 ++ f2 ++ f3))).
  { intros Hin. apply in_map_iff in Hin. destruct Hin as ([p c] & Hp & Hin).
    simpl in Hp. subst p. rewrite Forall_forall in H1, H2, H3.
    repeat (apply in_app_or in Hin; destruct Hin as [Hin|Hin]).
    - destruct (H1 _ Hin) as (fid & s & H). discriminate H.
    - destruct (H2 _ Hin) as [(fid & s & H)|(fid & s & H)]; discriminate H.
    - destruct (H3 _ Hin) as (fid & s & H). discriminate H. }
  rewrite Hf.
  destruct Hr as [[Hok (m & ->)]|[[(x & Hx & _) ->]|[(raw & Hx) (_ & _ & _ & _ & _ & _ & ->)]]].
  - split; auto. intros _. rewrite !app_assoc, map_app. apply in_or_app. right.
    simpl. auto.
  - rewrite Hx. split; [discriminate|]. intros Hin. exfalso. apply Hnot.
    rewrite !app_nil_r in Hin. exact Hin.
  - rewrite Hx. split; [discriminate|]. intros Hin. exfalso. apply Hnot.
    rewrite !app_nil_r in Hin. exact Hin.
Qed.

(** X9.  A run ends with [JSONDecodeError] only through the source tool:
    the exception carries the output of the last command of the log, which
    is a command of the source tool and is preceded by such commands only,
    and by then the run has written no file and printed nothing.  Output
    of the destination tool that does not parse never ends a run. *)
Theorem json_error_comes_from_the_source (env : Env) (raw : string) (st : State) :
  main env initial = (Raise (JSONDecodeError raw), st) ->
  exists hist cmd,
    calls st = (hist ++ [cmd])%list
    /\ Forall is_bd hist /\ is_bd cmd
    /\ stdout (bd env hist cmd) = NotJson raw
    /\ files st = [] /\ out st = [] /\ err st = [].
Proof.
  intros Hmain. unfold main in Hmain. apply bind_inv in Hmain.
  destruct Hmain as [([[e sub] sa] & st1 & _ & Hmig)|(x & Hdisc & [= <-])].
  - exfalso. destruct (migrate_effects env _ _ _ _ _ _ Hmig)
      as (c1 & c2 & c3 & f1 & f2 & f3 & tail & _ & _ & _ & _ & _ & _ & _ & _ & Hr).
    destruct Hr as [[Hok _]|[(x & Heq & Hx) _]]; [discriminate|].
    injection Heq as Heq. subst x.
    destruct Hx as [Hx|[(k & _ & Hx)|(q & _ & Hx)]]; discriminate.
  - destruct (discover_Raise_inv env _ _ _ Hdisc)
      as (hist & cmd & raw' & shows & [= <-] & Hc & Hh & Hshows & Hcmd & Hout & Hf & Ho & He).
    exists hist, cmd. simpl in Hh. subst hist.
    repeat split; auto.
Qed.

Lemma json_error_comes_from_the_source_witness :
  let env := mkEnv (fun h c =>
                      match c with
                      | ["bd"; "list"; _; _] => mkCompleted 0 (Json Sim.orphan) ""
                      | _ => mkCompleted 1 (NotJson "no such bead") ""
                      end) Sim.dest in
  let st := snd (main env initial) in
  exists hist cmd,
    calls st = (hist ++ [cmd])%list
    /\ Forall is_bd hist /\ is_bd cmd
    /\ stdout (bd env hist cmd) = NotJson "no such bead"
    /\ files st = [] /\ out st = [] /\ err st = [].
Proof.
  intros env st.
  apply (json_error_comes_from_the_source env "no such bead" st).
  reflexivity.
Defined.

(** X11.  A task for a subtask is never created under an empty epic id:
    the group of a parent that has no entry in the mapping, or an empty
    one, is passed over (lines 164-167). *)
Theorem subtasks_never_go_under_an_empty_epic (env : Env) (fe : string) (t : Bead) :
  In (flowctl_cmd (task_create_args fe t)) (calls (snd (main env initial))) ->
  fe <> "".
Proof.
  intros Hin.
  destruct (main_effects env)
    as (shows & c1 & c2 & c3 & _ & _ & _ & _ & Hc & _ & H0 & H1 & H2 & H3 & _).
  rewrite Hc in Hin. rewrite Forall_forall in H0, H1, H2, H3.
  destruct Hin as [Hin|Hin]; [discriminate|].
  repeat (apply in_app_or in Hin; destruct Hin as [Hin|Hin]).
  - destruct (H0 _ Hin) as (bid & H). discriminate.
  - destruct (H1 _ Hin) as (ttl & H). discriminate.
  - destruct (H2 _ Hin) as [(ttl & H)|(fe' & ttl & H)]; discriminate.
  - destruct (H3 _ Hin) as (fe' & t' & Hne & H).
    unfold flowctl_cmd, task_create_args in H. simpl in H.
    injection H as -> _. exact Hne.
Qed.

Lemma subtasks_never_go_under_an_empty_epic_witness : "fn-1" <> "".
Proof.
  apply (subtasks_never_go_under_an_empty_epic
           (Sim.env (Sim.named ++ Sim.auth) []) "fn-1"
           (mkBead "gno-ub9.1" "Login" None None None)).
  vm_compute. tauto.
Defined.

(** ** The records that discovery fetches (lines 65-72) *)

Section Fetched.

Variable env : Env.
Import Dict DictFacts.

(** The loop over parents without repetition fetches, in order, the parents
    that were not epics at the start, up to the first output that does not
    parse. *)
Lemma find_implicit_fetches l : forall e sa st,
  NoDup l ->
  exists fetched rest,
    filter (fun p => negb (mem e p)) l = (fetched ++ rest)%list
    /\ calls (snd (for_each (implicit_step env) l (e, sa) st))
       = (calls st ++ map bd_show_cmd fetched)%list
    /\ match fst (for_each (implicit_step env) l (e, sa) st) with
       | Ok _ => rest = []
       | Raise _ => True
       end.
Proof.
  induction l as [|p l IH]; intros e sa st Hnd.
  - exists [], []. simpl. rewrite app_nil_r. auto.
  - inversion Hnd as [|? ? Hnotin Hnd']; subst.
    rewrite for_each_cons. simpl filter.
    destruct (mem e p) eqn:Hmem.
    + rewrite implicit_step_known by auto. simpl. now apply IH.
    + rewrite implicit_step_fetch by auto. simpl negb. cbv iota.
      assert (Hsame : forall e1, (forall k, k <> p -> get e1 k = get e k) ->
                filter (fun q => negb (mem e1 q)) l
                = filter (fun q => negb (mem e q)) l).
      { intros e1 He1. apply filter_ext_in. intros q Hq. unfold mem.
        rewrite He1; auto. intros ->. contradiction. }
      destruct (stdout (bd env (calls st) (bd_show_cmd p))) as [raw|[|pb data]].
      * exists [p], (filter (fun q => negb (mem e q)) l). simpl. auto.
      * destruct (IH e sa (after_bd (bd_show_cmd p) st) Hnd')
          as (fetched & rest & Hfilter & Hcalls & Hrest).
        exists (p :: fetched), rest. rewrite Hfilter, Hcalls. simpl.
        rewrite <- app_assoc. auto.
      * destruct (IH (set e p pb) (filter (fun s => negb (id s =? p)) sa)
                    (after_bd (bd_show_cmd p) st) Hnd')
          as (fetched & rest & Hfilter & Hcalls & Hrest).
        rewrite Hsame in Hfilter by (intros k Hk; apply get_set_other; auto).
        exists (p :: fetched), rest. rewrite Hfilter, Hcalls. simpl.
        rewrite <- app_assoc. auto.
Qed.

End Fetched.

Lemma existsb_last_error {A} (f : A -> bool) l :
  existsb f l = match last_error (filter f l) with Some _ => true | None => false end.
Proof.
  induction l as [|x l IH]; simpl; auto.
  destruct (f x); simpl; auto.
  rewrite last_error_cons. now destruct (last_error (filter f l)).
Qed.

(** The open epics and the parents of the listed beads, in terms of the
    listing. *)
Lemma classify_missing_parents beads :
  filter (fun p => negb (Dict.mem (fst (fst (classify beads))) p))
    (Dict.keys (snd (fst (classify beads))))
  = filter (fun p => negb (existsb (goes_epic p) beads))
      (firsts (map (fun b => parent_of (id b)) (filter dotted beads))).
Proof.
  unfold firsts. pose proof (classify_more beads [] [] []) as H.
  change (fold_left classify_step beads ([], [], [])) with (classify beads) in H.
  destruct (classify beads) as [[e sub] sa].
  cbv iota beta in H. destruct H as (_ & Hk & _ & _ & He). simpl.
  rewrite Hk. apply filter_ext. intros p. f_equal.
  unfold Dict.mem. rewrite He, existsb_last_error. simpl.
  now destruct (last_error (filter (goes_epic p) beads)).
Qed.

Lemma flowctl_forms c :
  is_epic_cmd c \/ is_standalone_task_form c \/ is_subtask_form c -> is_flowctl c.
Proof.
  intros [(ttl & ->)|[(fe & ttl & ->)|(fe & t & _ & ->)]]; eexists; reflexivity.
Qed.

(** X12.  After the listing, a run fetches one record for each parent id of
    a listed subtask that no listed bead gives as an open epic: each such
    parent once, in the order in which the parents first occur in the
    listing, and no other record.  The fetches stop short only when an
    output of the source does not parse, which ends the run; otherwise
    only commands of the destination tool follow. *)
Theorem missing_parents_are_fetched_in_order (env : Env) (beads : list Bead) :
  stdout (bd env [] bd_list_cmd) = Json beads ->
  exists fetched rest later,
    calls (snd (main env initial))
    = (bd_list_cmd :: map bd_show_cmd fetched ++ later)%list
    /\ (fetched ++ rest)%list
       = filter (fun p => negb (existsb (goes_epic p) beads))
           (firsts (map (fun b => parent_of (id b)) (filter dotted beads)))
    /\ Forall is_flowctl later
    /\ (rest = []
        \/ (exists raw, fst (main env initial) = Raise (JSONDecodeError raw))
           /\ later = []).
Proof.
  intros Hjson.
  destruct (find_implicit_fetches env (Dict.keys (snd (fst (classify beads))))
              (fst (fst (classify beads))) (snd (classify beads))
              (mkState (calls initial ++ [bd_list_cmd]) (files initial)
                 (out initial) (err initial))
              (cl_subtasks_nodup _ _ (classify_classified beads)))
    as (fetched & rest & Hfilter & Hcalls & Hrest).
  rewrite classify_missing_parents in Hfilter.
  exists fetched, rest. unfold main, bind.
  rewrite (discover_Json env initial beads Hjson).
  unfold find_implicit_epics.
  destruct (for_each (implicit_step env) _ _ _) as [[[e' sa']|x] st1] eqn:Hfind;
    simpl in Hcalls, Hrest.
  - destruct (migrate env (e', snd (fst (classify beads)), sa') st1) as [r st] eqn:Hmig.
    destruct (migrate_effects env _ _ _ _ _ _ Hmig)
      as (c1 & c2 & c3 & _ & _ & _ & _ & Hc & _ & H1 & H2 & H3 & _).
    exists (c1 ++ c2 ++ c3)%list. simpl. rewrite Hc, Hcalls. simpl.
    rewrite <- ?app_assoc. split; [reflexivity|]. split; [now symmetry|].
    split; [|now left].
    repeat (apply Forall_app; split).
    + eapply Forall_impl; [|exact H1]. intros c Hform. apply flowctl_forms.
      cbv beta in Hform. tauto.
    + eapply Forall_impl; [|exact H2]. intros c Hform. apply flowctl_forms.
      cbv beta in Hform. tauto.
    + eapply Forall_impl; [|exact H3]. intros c Hform. apply flowctl_forms.
      cbv beta in Hform. tauto.
  - exists []. simpl. rewrite Hcalls, app_nil_r.
    split; [reflexivity|]. split; [now symmetry|]. split; [constructor|].
    right. split; auto.
    apply for_each_Raise in Hfind. destruct Hfind as (p & a0 & s0 & _ & Hstep).
    apply implicit_step_Raise in Hstep. destruct Hstep as (raw & -> & _). eauto.
Qed.

Lemma missing_parents_are_fetched_in_order_witness :
  exists fetched rest later,
    calls (snd (main (Sim.env Sim.orphan Sim.orphan) initial))
    = (bd_list_cmd :: map bd_show_cmd fetched ++ later)%list
    /\ (fetched ++ rest)%list
       = filter (fun p => negb (existsb (goes_epic p) Sim.orphan))
           (firsts (map (fun b => parent_of (id b)) (filter dotted Sim.orphan)))
    /\ Forall is_flowctl later
    /\ (rest = []
        \/ (exists raw, fst (main (Sim.env Sim.orphan Sim.orphan) initial)
                        = Raise (JSONDecodeError raw))
           /\ later = []).
Proof.
  apply (missing_parents_are_fetched_in_order (Sim.env Sim.orphan Sim.orphan) Sim.orphan).
  reflexivity.
Defined.

(** ** The error stream (lines 11-22 within a run) *)

Section Stderr.

Variable env : Env.

Lemma stderr_of_app cs : forall hist cs',
  stderr_of env hist (cs ++ cs')
  = (stderr_of env hist cs ++ stderr_of env (hist ++ cs) cs')%list.
Proof.
  induction cs as [|c cs IH]; intros hist cs'; simpl.
  - now rewrite app_nil_r.
  - rewrite IH, <- !app_assoc. reflexivity.
Qed.

Lemma tracked_silent {A} (m : M A) :
  (forall st, calls (snd (m st)) = calls st /\ err (snd (m st)) = err st) ->
  tracked env m.
Proof.
  intros H st. exists []. destruct (H st) as [-> ->]. simpl.
  now rewrite !app_nil_r.
Qed.

Lemma tracked_ret {A} (a : A) : tracked env (ret a).
Proof. apply tracked_silent. now intros st. Qed.

Lemma tracked_raise {A} e : tracked env (@raise A e).
Proof. apply tracked_silent. now intros st. Qed.

Lemma tracked_lift {A} (o : outcome A) : tracked env (lift o).
Proof. apply tracked_silent. now intros st. Qed.

Lemma tracked_print s : tracked env (print s).
Proof. apply tracked_silent. now intros st. Qed.

Lemma tracked_write_text path c : tracked env (write_text path c).
Proof. apply tracked_silent. now intros st. Qed.

Lemma tracked_bind {A B} (m : M A) (k : A -> M B) :
  tracked env m -> (forall a, tracked env (k a)) -> tracked env (bind m k).
Proof.
  intros Hm Hk st. unfold bind.
  destruct (Hm st) as (cs & Hc & He).
  destruct (m st) as [[a|e] st1]; simpl in *.
  - destruct (Hk a st1) as (cs' & Hc' & He').
    exists (cs ++ cs')%list.
    rewrite Hc', He', Hc, He, stderr_of_app, !app_assoc. auto.
  - exists cs. auto.
Qed.

Lemma tracked_for_each {X A} (body : X -> A -> M A) l :
  (forall x acc, tracked env (body x acc)) ->
  forall acc, tracked env (for_each body l acc).
Proof.
  intros Hbody. induction l as [|x l IH]; intros acc; simpl.
  - apply tracked_ret.
  - apply tracked_bind; auto.
Qed.

Lemma tracked_run_bd cmd : is_source_cmd cmd = true -> tracked env (run_bd env cmd).
Proof.
  intros H st. exists [cmd]. simpl. rewrite H. simpl. now rewrite app_nil_r.
Qed.

Lemma tracked_flowctl args : tracked env (flowctl env args).
Proof.
  intros st. rewrite flowctl_run. exists [flowctl_cmd args].
  unfold after_flowctl, flowctl_report, report_of. simpl.
  now rewrite app_nil_r.
Qed.

Ltac tracked_step :=
  match goal with
  | |- tracked _ (bind _ _) => apply tracked_bind; [|intros ?]
  | |- tracked _ (ret _) => apply tracked_ret
  | |- tracked _ (raise _) => apply tracked_raise
  | |- tracked _ (lift _) => apply tracked_lift
  | |- tracked _ (print _) => apply tracked_print
  | |- tracked _ (write_spec _ _) => apply tracked_write_text
  | |- tracked _ (write_text _ _) => apply tracked_write_text
  | |- tracked _ (flowctl _ _) => apply tracked_flowctl
  | |- tracked _ (run_bd _ _) => apply tracked_run_bd; reflexivity
  | |- tracked _ (for_each _ _ _) => apply tracked_for_each; intros ? ?
  | |- tracked _ (match ?x with _ => _ end) => destruct x
  end.

Lemma tracked_discover : tracked env (discover env).
Proof.
  unfold discover, get_beads, find_implicit_epics, implicit_step, get_bead.
  repeat tracked_step.
Qed.

Lemma tracked_migrate found : tracked env (migrate env found).
Proof.
  unfold migrate, create_epics, create_standalone, create_tasks, epic_step,
    standalone_step, group_step, task_step.
  repeat tracked_step.
Qed.

Lemma tracked_main : tracked env (main env).
Proof.
  unfold main. apply tracked_bind; [apply tracked_discover|apply tracked_migrate].
Qed.

End Stderr.

(** X13.  The error stream of a run is determined by its commands and the
    answers of the destination tool: in the order of the commands, one line
    [Error: ...] for each destination command that exited with a status
    other than 0, one line [Invalid JSON: ...] for each that exited with 0
    and an output that does not parse, and nothing else; in particular
    nothing for a command of the source tool, whatever it answered. *)
Theorem stderr_follows_the_destination (env : Env) :
  err (snd (main env initial)) = stderr_of env [] (calls (snd (main env initial))).
Proof.
  destruct (tracked_main env initial) as (cs & Hc & He).
  rewrite He, Hc. reflexivity.
Qed.

(** ** The summary (lines 207-213) *)

Section SummaryLines.

Variable env : Env.
Import Dict DictFacts.

(** The output of the creation phases when they end normally: the last
    four lines, with the counts taken from the mapping that is written. *)
Lemma migrate_Ok_out epics subtasks standalone st st' :
  migrate env (epics, subtasks, standalone) st = (Ok tt, st') ->
  exists m earlier_files earlier_out,
    files st' = (earlier_files ++ [(mapping_path, JsonDump m)])%list
    /\ out st'
       = (earlier_out ++
            [(PyStr.nl ++ "=== Migration complete ===")%string;
             ("Mapping saved to " ++ mapping_path)%string;
             ("Epics: " ++ PyStr.str
                (count_keys (fun k => negb (PyStr.contains "." k)) m))%string;
             ("Tasks: " ++ PyStr.str (count_keys (PyStr.contains ".") m))%string])%list
    /\ In "gno-ub9" (keys m).
Proof.
  intros Hmig.
  destruct (migrate_Ok_inv env _ _ _ _ _ Hmig)
    as (m1 & s1 & m2 & s2 & m3 & s3 & H1 & H2 & H3 & _).
  destruct (loops_grow env _ _ _ _ _ _ _ _ _ _ _ _ _ _ H1 H2 H3)
    as (E1 & E2 & E3 & _).
  rewrite migrate_unfold in Hmig.
  change (set [] "gno-ub9" "fn-1") with [("gno-ub9", "fn-1")] in Hmig.
  rewrite H1, H2, H3 in Hmig. injection Hmig as <-.
  exists m3, (files s3), (out s3). simpl. repeat split.
  apply (extends_incl _ _ _ E3), (extends_incl _ _ _ E2), (extends_incl _ _ _ E1).
  simpl. auto.
Qed.

End SummaryLines.

(** X14.  A run that ends normally prints, as its last two lines, the
    number of keys of the written mapping without a dot as [Epics:] and the
    number of those with a dot as [Tasks:].  The two numbers add up to the
    number of entries of the mapping, and the first is at least 1, because
    [gno-ub9] is always a key. *)
Theorem summary_counts_the_mapping (env : Env) (st : State) :
  main env initial = (Ok tt, st) ->
  exists m earlier_files earlier_out a b,
    files st = (earlier_files ++ [(mapping_path, JsonDump m)])%list
    /\ out st
       = (earlier_out ++
            [(PyStr.nl ++ "=== Migration complete ===")%string;
             "Mapping saved to .flow/bead-mapping.json";
             ("Epics: " ++ PyStr.str a)%string;
             ("Tasks: " ++ PyStr.str b)%string])%list
    /\ a = Z.of_nat (length (filter (fun k => negb (PyStr.contains "." k)) (Dict.keys m)))
    /\ b = Z.of_nat (length (filter (PyStr.contains ".") (Dict.keys m)))
    /\ (a + b = Z.of_nat (length (Dict.items m)))%Z
    /\ (1 <= a)%Z.
Proof.
  intros Hmain. unfold main in Hmain. apply bind_Ok_inv in Hmain.
  destruct Hmain as ([[e sub] sa] & st1 & _ & Hmig).
  destruct (migrate_Ok_out env _ _ _ _ _ Hmig) as (m & ef & eo & Hf & Ho & Hub).
  exists m, ef, eo. eexists. eexists.
  split; [exact Hf|]. split; [exact Ho|]. split; [reflexivity|]. split; [reflexivity|].
  split.
  - unfold count_keys. rewrite <- Nat2Z.inj_add, Nat.add_comm, filter_length.
    unfold Dict.keys, Dict.items. now rewrite length_map.
  - unfold count_keys.
    assert (Hin : In "gno-ub9" (filter (fun k => negb (PyStr.contains "." k)) (Dict.keys m))).
    { apply filter_In. split; auto. }
    destruct (filter _ (Dict.keys m)); [destruct Hin|]. simpl length. lia.
Qed.

Lemma summary_counts_the_mapping_witness :
  let st := snd (main (Sim.env (Sim.named ++ Sim.auth) []) initial) in
  exists m earlier_files earlier_out a b,
    files st = (earlier_files ++ [(mapping_path, JsonDump m)])%list
    /\ out st
       = (earlier_out ++
            [(PyStr.nl ++ "=== Migration complete ===")%string;
             "Mapping saved to .flow/bead-mapping.json";
             ("Epics: " ++ PyStr.str a)%string;
             ("Tasks: " ++ PyStr.str b)%string])%list
    /\ a = Z.of_nat (length (filter (fun k => negb (PyStr.contains "." k)) (Dict.keys m)))
    /\ b = Z.of_nat (length (filter (PyStr.contains ".") (Dict.keys m)))
    /\ (a + b = Z.of_nat (length (Dict.items m)))%Z
    /\ (1 <= a)%Z.
Proof.
  intros st.
  apply (summary_counts_the_mapping (Sim.env (Sim.named ++ Sim.auth) []) st).
  vm_compute. reflexivity.
Defined.

(** ** Where the destination ids of the mapping come from *)

Section Sourced.

Variable env : Env.
Variable made : string -> list string -> Prop.
Import Dict DictFacts.

Lemma answered_in_more log cs args v :
  answered_in env log args v -> answered_in env (log ++ cs) args v.
Proof.
  intros (hist & later & -> & Ha). exists hist, (later ++ cs)%list.
  split; auto. now rewrite <- app_assoc.
Qed.

Lemma sourced_more m log cs : sourced env made m log -> sourced env made m (log ++ cs).
Proof.
  intros H k v Hget. destruct (H k v Hget) as [?|(args & Hm & Ha)]; auto.
  right. exists args. split; auto. now apply answered_in_more.
Qed.

Lemma sourced_set m log k args fid more :
  sourced env made m log -> made k args ->
  answered (flowctl_returns env log args) fid ->
  sourced env made (set m k fid) (log ++ flowctl_cmd args :: more).
Proof.
  intros H Hm Ha k' v Hget. destruct (string_dec k k') as [<-|Hne].
  - rewrite get_set_same in Hget. injection Hget as <-.
    right. exists args. split; auto. now exists log, more.
  - rewrite get_set_other in Hget by auto.
    now apply (sourced_more m log (flowctl_cmd args :: more) H).
Qed.

Lemma rounds_sourced {X} (body : X -> Dict.t string -> M (Dict.t string)) l :
  (forall x m st m' st', In x l -> body x m st = (Ok m', st') ->
     sourced env made m (calls st) -> sourced env made m' (calls st')) ->
  forall m st m' st',
    for_each body l m st = (Ok m', st') ->
    sourced env made m (calls st) -> sourced env made m' (calls st').
Proof.
  induction l as [|x l IH]; intros Hround m st m' st' Hrun Hs.
  - now injection Hrun as <- <-.
  - simpl in Hrun. apply bind_Ok_inv in Hrun. destruct Hrun as (m1 & st1 & H1 & H2).
    eapply IH; [|exact H2|].
    + intros; eapply Hround; eauto. now right.
    + eapply Hround; eauto. now left.
Qed.

Lemma epic_step_sourced epics eid m st m' st' :
  (forall b, get epics eid = Some b -> made eid (epic_create_args (title b))) ->
  epic_step env epics eid m st = (Ok m', st') ->
  sourced env made m (calls st) -> sourced env made m' (calls st').
Proof.
  intros Hmade Hrun Hs.
  destruct (epic_step_cases env epics eid m st)
    as [[Hstep _]|[[Hstep _]|(epic & _ & Hget & Hcases)]].
  - rewrite Hstep in Hrun. now injection Hrun as <- <-.
  - rewrite Hstep in Hrun. discriminate.
  - simpl in Hcases.
    destruct Hcases as [[Hstep _]|[[Hstep _]|(fid & Hfid & Hstep)]];
      rewrite Hstep in Hrun.
    + injection Hrun as <- <-. now apply sourced_more.
    + discriminate.
    + injection Hrun as <- <-. simpl. apply sourced_set; auto.
Qed.

Lemma standalone_step_sourced s m st m' st' :
  made (id s) (epic_create_args (title s)) ->
  standalone_step env s m st = (Ok m', st') ->
  sourced env made m (calls st) -> sourced env made m' (calls st').
Proof.
  intros Hmade Hrun Hs.
  destruct (succeeded (flowctl_returns env (calls st) (epic_create_args (title s))))
    eqn:Hsucc.
  - destruct (succeeded_answered _ Hsucc) as [(fid & Hfid)|(r & Hr & Hsu & Hid)].
    + pose proof (standalone_step_record env s m st fid Hfid) as Hstep.
      cbv zeta in Hstep. rewrite Hstep in Hrun.
      assert (Hgoal : sourced env made (set m (id s) fid)
                        (calls st ++ flowctl_cmd (epic_create_args (title s))
                           :: [flowctl_cmd (standalone_task_args fid (title s))])).
      { apply sourced_set; auto. }
      repeat match type of Hrun with
             | (if ?b then _ else _) = _ => destruct b
             | match ?x with _ => _ end = _ => destruct x
             end; try discriminate; injection Hrun as <- <-; simpl;
        rewrite <- app_assoc; exact Hgoal.
    + exfalso. unfold standalone_step in Hrun.
      rewrite (bind_Ok _ _ _ _ _ (flowctl_run env _ st)), Hr in Hrun.
      rewrite Hr in Hsucc. rewrite Hsucc in Hrun. unfold result_id in Hrun.
      rewrite Hid in Hrun. discriminate.
  - rewrite standalone_step_skip in Hrun by auto. injection Hrun as <- <-.
    now apply sourced_more.
Qed.

Lemma task_step_sourced fe t m st m' st' :
  made (id t) (task_create_args fe t) ->
  task_step env fe t m st = (Ok m', st') ->
  sourced env made m (calls st) -> sourced env made m' (calls st').
Proof.
  intros Hmade Hrun Hs.
  destruct (task_step_cases env fe t m st)
    as [[Hstep _]|[[Hstep _]|(fid & Hfid & Hstep)]]; simpl in Hstep;
    rewrite Hstep in Hrun.
  - injection Hrun as <- <-. now apply sourced_more.
  - discriminate.
  - injection Hrun as <- <-. simpl. apply sourced_set; auto.
Qed.

Lemma group_step_sourced parent ts m st m' st' :
  (forall fe t, In t ts -> made (id t) (task_create_args fe t)) ->
  group_step env (parent, ts) m st = (Ok m', st') ->
  sourced env made m (calls st) -> sourced env made m' (calls st').
Proof.
  intros Hmade Hrun Hs. destruct (get m parent) as [fe|] eqn:Hget.
  - destruct (string_dec fe "") as [->|Hne].
    + rewrite group_step_warn in Hrun by auto. now injection Hrun as <- <-.
    + rewrite (group_step_run env _ _ _ _ _ Hget Hne) in Hrun. cbv zeta in Hrun.
      destruct (sort_tasks ts) as [sorted|x] eqn:Hsort; [|discriminate].
      eapply (rounds_sourced (task_step env fe) sorted); [|exact Hrun|exact Hs].
      intros t m0 st0 m1 st1 Ht. apply task_step_sourced, Hmade.
      eapply Permutation_in; [|exact Ht].
      apply Permutation_sym. now apply sort_tasks_perm.
  - rewrite group_step_warn in Hrun by auto. now injection Hrun as <- <-.
Qed.

End Sourced.

Section SourcedPhases.

Variable env : Env.

(** The mapping at the start of the task phase, and at the end of it. *)
Lemma phases_sourced epics subtasks standalone st1 a2 a3 m1 s1 m2 s2 :
  create_epics env epics (epic_order_of epics) [("gno-ub9", "fn-1")] st1 = (Ok m1, s1) ->
  calls a2 = calls s1 ->
  create_standalone env standalone m1 a2 = (Ok m2, s2) ->
  calls a3 = calls s2 ->
  sourced env (made_for epics subtasks standalone) m2 (calls a3)
  /\ forall m3 s3, create_tasks env subtasks m2 a3 = (Ok m3, s3) ->
       sourced env (made_for epics subtasks standalone) m3 (calls s3).
Proof.
  intros H1 E2 H2 E3. set (made := made_for epics subtasks standalone).
  assert (S0 : sourced env made [("gno-ub9", "fn-1")] (calls st1)).
  { intros k v Hget. left.
    change (Dict.get [("gno-ub9", "fn-1")] k)
      with (if "gno-ub9" =? k then Some "fn-1" else None) in Hget.
    destruct (String.eqb_spec "gno-ub9" k); [|discriminate].
    injection Hget as <-. auto. }
  assert (S1 : sourced env made m1 (calls a2)).
  { rewrite E2. unfold create_epics in H1.
    eapply (rounds_sourced env made (epic_step env epics)); [|exact H1|exact S0].
    intros eid m0 st0 m' st' _. apply epic_step_sourced.
    intros b Hb. left. exists b. auto. }
  assert (S2 : sourced env made m2 (calls a3)).
  { rewrite E3. unfold create_standalone in H2.
    eapply (rounds_sourced env made (standalone_step env)); [|exact H2|exact S1].
    intros s m0 st0 m' st' Hin. apply standalone_step_sourced.
    left. exists s. auto. }
  split; [exact S2|]. intros m3 s3 H3.
  unfold create_tasks, Dict.items in H3.
  eapply (rounds_sourced env made (group_step env)); [|exact H3|exact S2].
  intros [p ts] m0 st0 m' st' Hin. apply group_step_sourced.
  intros fe t Ht. right. exists p, ts, t, fe. auto.
Qed.

End SourcedPhases.

(** X15.  In a run that ends normally every entry of the written mapping
    is [gno-ub9 -> fn-1] or gives, for a bead id, a destination id that the
    destination tool answered, with a true [success] flag, to a creation
    command of this run made for that id: the creation of an epic with the
    title of the epic or of the standalone bead of that id, or the creation
    of a task with the title and the priority of a subtask of that id.  For
    a standalone bead it is the id of its epic, not of its task. *)
Theorem mapping_values_come_from_the_destination (env : Env) (st : State) :
  main env initial = (Ok tt, st) ->
  exists epics subtasks standalone st1 m earlier,
    discover env initial = (Ok (epics, subtasks, standalone), st1)
    /\ files st = (earlier ++ [(mapping_path, JsonDump m)])%list
    /\ sourced env (made_for epics subtasks standalone) m (calls st).
Proof.
  intros Hmain.
  destruct (main_Ok_inv env st Hmain)
    as (beads & e & sub & sa & st1 & m1 & s1 & m2 & s2 & m & s3 & earlier
        & _ & _ & _ & Hdisc & H1 & H2 & H3 & Hfiles & _).
  exists e, sub, sa, st1, m, earlier. split; [exact Hdisc|]. split; [exact Hfiles|].
  assert (Hcalls : calls st = calls s3).
  { unfold main in Hmain. rewrite (bind_Ok _ _ _ _ _ Hdisc) in Hmain.
    now destruct (migrate_Ok_inv env _ _ _ _ _ Hmain)
      as (m1' & s1' & m2' & s2' & m3' & s3' & H1' & H2' & H3' & _ & Hc);
      rewrite H1 in H1'; injection H1' as <- <-;
      rewrite H2 in H2'; injection H2' as <- <-;
      rewrite H3 in H3'; injection H3' as <- <-. }
  rewrite Hcalls.
  refine (proj2 (phases_sourced env e sub sa _
                   (printed (PyStr.nl ++ "=== Creating Standalone Epics ===") s1)
                   (printed (PyStr.nl ++ "=== Creating Tasks Under Epics ===") s2)
                   _ _ _ _ H1 eq_refl H2 eq_refl) _ _ H3).
Qed.

Lemma mapping_values_come_from_the_destination_witness :
  let env := Sim.env (Sim.named ++ Sim.auth) [] in
  exists epics subtasks standalone st1 m earlier,
    discover env initial = (Ok (epics, subtasks, standalone), st1)
    /\ files (snd (main env initial)) = (earlier ++ [(mapping_path, JsonDump m)])%list
    /\ sourced env (made_for epics subtasks standalone) m
         (calls (snd (main env initial))).
Proof.
  intros env.
  apply (mapping_values_come_from_the_destination env (snd (main env initial))).
  vm_compute. reflexivity.
Defined.

(** ** What discovery hands over (lines 65-72) *)


(** X16.  When the listing parses and discovery ends, it hands over: the
    groups of subtasks as categorised; for an id that a listed bead gives
    as an open epic, that bead (the last such one), never a fetched record;
    for any other id of an epic, the first record that the source showed
    for it, the id being the parent of a listed subtask; and the
    standalone beads as categorised, without those whose id became an epic
    through a fetch. *)
Theorem discovery_hands_over (env : Env) (beads : list Bead) :
  stdout (bd env [] bd_list_cmd) = Json beads ->
  match fst (discover env initial) with
  | Ok (epics, subtasks, standalone) =>
      subtasks = snd (fst (classify beads))
      /\ (forall k, existsb (goes_epic k) beads = true ->
            Dict.get epics k = last_error (filter (goes_epic k) beads))
      /\ (forall k b, Dict.get epics k = Some b ->
            existsb (goes_epic k) beads = false ->
            shown_first env k b
            /\ exists t, In t beads /\ dotted t = true /\ parent_of (id t) = k)
      /\ standalone
         = filter (fun s => negb (Dict.mem epics (id s))
                            || existsb (goes_epic (id s)) beads)
             (filter goes_standalone beads)
  | Raise _ => True
  end.
Proof.
  intros Hjson.
  destruct (discover env initial) as [[[[e sub] sa]|x] st1] eqn:Hdisc; simpl; auto.
  destruct (discover_Ok_inv env _ _ _ _ _ Hdisc) as (beads' & Hjson' & -> & Hfind).
  simpl in Hjson'. rewrite Hjson in Hjson'. injection Hjson' as <-.
  unfold find_implicit_epics in Hfind.
  apply find_implicit_result in Hfind. destruct Hfind as (Ha & Hb & Hc).
  pose proof (classify_more beads [] [] []) as H.
  change (fold_left classify_step beads ([], [], [])) with (classify beads) in H.
  pose proof (classify_classified beads) as Hcl.
  destruct (classify beads) as [[e0 sub0] sa0].
  cbv iota beta in H. destruct H as (Hsa & _ & _ & _ & He). simpl in *.
  assert (Hget : forall k, Dict.get e0 k = last_error (filter (goes_epic k) beads)).
  { intros k. rewrite He. now destruct (last_error (filter (goes_epic k) beads)). }
  assert (Hmem : forall k, Dict.mem e0 k = existsb (goes_epic k) beads).
  { intros k. unfold Dict.mem. now rewrite Hget, existsb_last_error. }
  split; [reflexivity|]. split; [|split].
  - intros k Hk. rewrite Ha; [apply Hget|]. now rewrite Hmem.
  - intros k b Hk Hno. rewrite <- Hmem in Hno.
    destruct (Hb k b Hk Hno) as [Hin Hshown]. split; auto.
    apply DictFacts.get_In_keys in Hin.
    destruct (Dict.get sub0 k) as [ts|] eqn:Hts; [|congruence].
    destruct ts as [|t ts]; [now apply (cl_nonempty _ _ Hcl) in Hts|].
    destruct (cl_subtasks _ _ Hcl k (t :: ts) t Hts (or_introl eq_refl))
      as (Ht & Hdot & Hpar).
    exists t. auto.
  - rewrite Hc, Hsa. apply filter_ext. intros s. now rewrite Hmem.
Qed.

Lemma discovery_hands_over_witness :
  let q := Sim.task "gno-q" "Queue" None in
  let q1 := Sim.task "gno-q.1" "Push" None in
  let beads := (Sim.named ++ [q; q1])%list in
  let env := Sim.env beads beads in
  match fst (discover env initial) with
  | Ok (epics, subtasks, standalone) =>
      subtasks = snd (fst (classify beads))
      /\ (forall k, existsb (goes_epic k) beads = true ->
            Dict.get epics k = last_error (filter (goes_epic k) beads))
      /\ (forall k b, Dict.get epics k = Some b ->
            existsb (goes_epic k) beads = false ->
            shown_first env k b
            /\ exists t, In t beads /\ dotted t = true /\ parent_of (id t) = k)
      /\ standalone
         = filter (fun s => negb (Dict.mem epics (id s))
                            || existsb (goes_epic (id s)) beads)
             (filter goes_standalone beads)
  | Raise _ => True
  end.
Proof.
  intros q q1 beads env.
  apply (discovery_hands_over env beads). reflexivity.
Defined.

(** ** Under which epic a task is created (lines 143, 164, 178-181) *)

Section PlacedFacts.

Variable ok : list Cmd -> Cmd -> Prop.

Lemma placed_app cs : forall hist cs',
  placed ok hist cs -> placed ok (hist ++ cs) cs' -> placed ok hist (cs ++ cs').
Proof.
  induction cs as [|c cs IH]; intros hist cs' H1 H2; simpl in *.
  - now rewrite app_nil_r in H2.
  - destruct H1 as [Hc H1]. split; auto. apply IH; auto.
    now rewrite <- app_assoc.
Qed.

Lemma placed_spec cs : forall hist,
  placed ok hist cs ->
  forall pre c post, cs = (pre ++ c :: post)%list -> ok (hist ++ pre) c.
Proof.
  induction cs as [|c0 cs IH]; intros hist H pre c post Heq.
  - destruct pre; discriminate.
  - destruct H as [Hc H]. destruct pre as [|c1 pre]; simpl in Heq.
    + injection Heq as <- _. now rewrite app_nil_r.
    + injection Heq as <- ->. specialize (IH _ H pre c post eq_refl).
      now rewrite <- app_assoc in IH.
Qed.

Lemma placed_vacuous (P : Cmd -> Prop) cs :
  (forall hist c, P c -> ok hist c) ->
  Forall P cs -> forall hist, placed ok hist cs.
Proof.
  intros Hok H. induction H as [|c cs Hc _ IH]; intros hist; simpl; auto.
Qed.

End PlacedFacts.

Section Placed.

Variable env : Env.
Variable subtasks : Dict.t (list Bead).
Variable made : string -> list string -> Prop.
Import Dict DictFacts.

Local Abbreviation ok := (task_placed env subtasks made).

Lemma parent_id_of_more p fe log cs :
  parent_id_of env made p fe log -> parent_id_of env made p fe (log ++ cs).
Proof.
  intros [H|(args & Hm & Ha)]; [now left|right].
  exists args. split; auto. now apply answered_in_more.
Qed.

Lemma no_task_placed hist c :
  is_bd c \/ is_epic_cmd c -> ok hist c.
Proof.
  intros [[->|(bid & ->)]|(ttl0 & ->)]; split; intros; discriminate.
Qed.

(** A loop of rounds that keep [Inv] while they end normally. *)
Lemma rounds_placed {X} (body : X -> Dict.t string -> M (Dict.t string))
    (Inv : Dict.t string -> list Cmd -> Prop) l :
  (forall x m st, In x l -> Inv m (calls st) ->
     exists cs,
       calls (snd (body x m st)) = (calls st ++ cs)%list
       /\ placed ok (calls st) cs
       /\ forall m', fst (body x m st) = Ok m' -> Inv m' (calls (snd (body x m st)))) ->
  forall m st, Inv m (calls st) ->
    exists cs,
      calls (snd (for_each body l m st)) = (calls st ++ cs)%list
      /\ placed ok (calls st) cs.
Proof.
  induction l as [|x l IH]; intros Hround m st HI.
  - exists []. simpl. now rewrite app_nil_r.
  - rewrite for_each_cons.
    destruct (Hround x m st (or_introl eq_refl) HI) as (cs & Hc & Hp & Hnext).
    destruct (body x m st) as [[m1|e] st1]; simpl in Hc, Hnext.
    + destruct (IH (fun y m0 st0 Hy => Hround y m0 st0 (or_intror Hy)) m1 st1
                  (Hnext m1 eq_refl)) as (cs' & Hc' & Hp').
      exists (cs ++ cs')%list. rewrite Hc', Hc, app_assoc. split; auto.
      apply placed_app; auto. now rewrite <- Hc.
    + exists cs. auto.
Qed.

(** *** Standalone beads *)

Lemma standalone_task_ok hist ttl0 fid :
  answered (flowctl_returns env hist (epic_create_args ttl0)) fid ->
  ok (hist ++ [flowctl_cmd (epic_create_args ttl0)])
    (flowctl_cmd (standalone_task_args fid ttl0)).
Proof.
  intros Ha. split.
  - intros fe ttl H. exists hist, ttl0.
    unfold flowctl_cmd, standalone_task_args in H. simpl in H.
    split; [reflexivity|]. split.
    + assert (Hfe : fid = fe) by congruence. now subst.
    + congruence.
  - intros fe t H. discriminate.
Qed.

Lemma standalone_step_placed s m st :
  exists cs,
    calls (snd (standalone_step env s m st)) = (calls st ++ cs)%list
    /\ placed ok (calls st) cs.
Proof.
  assert (Hepic : ok (calls st) (flowctl_cmd (epic_create_args (title s)))).
  { apply no_task_placed. right. now eexists. }
  destruct (succeeded (flowctl_returns env (calls st) (epic_create_args (title s))))
    eqn:Hsucc.
  - destruct (succeeded_answered _ Hsucc) as [(fid & Hfid)|(r & Hr & Hsu & Hid)].
    + pose proof (standalone_step_record env s m st fid Hfid) as Hstep.
      cbv zeta in Hstep. rewrite Hstep.
      exists [flowctl_cmd (epic_create_args (title s));
              flowctl_cmd (standalone_task_args fid (title s))].
      split.
      * repeat match goal with
               | |- context [if ?b then _ else _] => destruct b
               | |- context [match ?x with _ => _ end] => destruct x
               end; simpl; now rewrite <- app_assoc.
      * simpl. split; [exact Hepic|]. split; [|exact I].
        now apply standalone_task_ok.
    + exists [flowctl_cmd (epic_create_args (title s))].
      unfold standalone_step.
      rewrite (bind_Ok _ _ _ _ _ (flowctl_run env _ st)), Hr.
      rewrite Hr in Hsucc. rewrite Hsucc. unfold result_id. rewrite Hid.
      simpl. auto.
  - rewrite standalone_step_skip by auto.
    exists [flowctl_cmd (epic_create_args (title s))]. simpl. auto.
Qed.

Lemma create_standalone_placed standalone m st :
  exists cs,
    calls (snd (create_standalone env standalone m st)) = (calls st ++ cs)%list
    /\ placed ok (calls st) cs.
Proof.
  unfold create_standalone.
  apply (rounds_placed (standalone_step env) (fun _ _ => True)); auto.
  intros s m0 st0 _ _. destruct (standalone_step_placed s m0 st0) as (cs & Hc & Hp).
  exists cs. auto.
Qed.

(** *** Subtasks *)

Lemma task_step_calls fe t m st :
  calls (snd (task_step env fe t m st))
  = (calls st ++ [flowctl_cmd (task_create_args fe t)])%list.
Proof.
  destruct (task_step_cases env fe t m st)
    as [[Hstep _]|[[Hstep _]|(fid & _ & Hstep)]]; simpl in Hstep; now rewrite Hstep.
Qed.

Lemma subtask_ok p ts t fe hist :
  In (p, ts) subtasks -> In t ts -> parent_id_of env made p fe hist ->
  ok hist (flowctl_cmd (task_create_args fe t)).
Proof.
  intros Hg Ht Hp. split.
  - intros fe' ttl H. discriminate.
  - intros fe' t' H. exists p, ts, t.
    unfold flowctl_cmd, task_create_args in H. simpl in H.
    assert (Hfe : fe = fe') by congruence. subst fe'.
    repeat split; auto. unfold task_create_args. congruence.
Qed.

Lemma task_loop_placed p ts fe l m st :
  In (p, ts) subtasks -> (forall t, In t l -> In t ts) ->
  parent_id_of env made p fe (calls st) ->
  exists cs,
    calls (snd (for_each (task_step env fe) l m st)) = (calls st ++ cs)%list
    /\ placed ok (calls st) cs.
Proof.
  intros Hg Hl Hp.
  apply (rounds_placed (task_step env fe)
           (fun _ log => parent_id_of env made p fe log)); auto.
  intros t m0 st0 Ht Hp0. exists [flowctl_cmd (task_create_args fe t)].
  rewrite task_step_calls. split; auto. split.
  - simpl. split; auto. eapply subtask_ok; eauto.
  - intros _ _. now apply parent_id_of_more.
Qed.

Lemma group_step_placed p ts m st :
  In (p, ts) subtasks ->
  sourced env made m (calls st) ->
  exists cs,
    calls (snd (group_step env (p, ts) m st)) = (calls st ++ cs)%list
    /\ placed ok (calls st) cs.
Proof.
  intros Hg Hs. destruct (get m p) as [fe|] eqn:Hget.
  - destruct (string_dec fe "") as [->|Hne].
    + rewrite group_step_warn by auto. exists []. simpl. now rewrite app_nil_r.
    + rewrite (group_step_run env _ _ _ _ _ Hget Hne). cbv zeta.
      destruct (sort_tasks ts) as [sorted|x] eqn:Hsort.
      * match goal with
        | |- context [for_each _ sorted m ?s] =>
            destruct (task_loop_placed p ts fe sorted m s) as (cs & Hc & Hp)
        end; auto.
        -- intros t Ht. eapply Permutation_in; [|exact Ht].
           apply Permutation_sym. now apply sort_tasks_perm.
        -- exact (Hs p fe Hget).
        -- exists cs. auto.
      * exists []. simpl. now rewrite app_nil_r.
  - rewrite group_step_warn by auto. exists []. simpl. now rewrite app_nil_r.
Qed.

Lemma create_tasks_placed m st :
  (forall p ts fe t, In (p, ts) subtasks -> In t ts ->
     made (id t) (task_create_args fe t)) ->
  sourced env made m (calls st) ->
  exists cs,
    calls (snd (create_tasks env subtasks m st)) = (calls st ++ cs)%list
    /\ placed ok (calls st) cs.
Proof.
  intros Hmade Hs. unfold create_tasks, items.
  apply (rounds_placed (group_step env) (sourced env made)); auto.
  intros [p ts] m0 st0 Hg Hs0.
  destruct (group_step_placed p ts m0 st0 Hg Hs0) as (cs & Hc & Hp).
  exists cs. split; auto. split; auto.
  intros m' Hok.
  destruct (group_step env (p, ts) m0 st0) as [r st'] eqn:Hstep. simpl in Hok.
  subst r. simpl. eapply group_step_sourced; eauto.
Qed.

End Placed.

Section PlacedRun.

Variable env : Env.

(** Every task-creation command of a run whose discovery ends is placed as
    [task_placed] says. *)
Lemma main_placed epics subtasks standalone st1 :
  discover env initial = (Ok (epics, subtasks, standalone), st1) ->
  placed (task_placed env subtasks (made_for epics subtasks standalone)) []
    (calls (snd (main env initial))).
Proof.
  intros Hdisc. set (made := made_for epics subtasks standalone).
  set (ok := task_placed env subtasks made).
  destruct (discover_calls env initial) as (shows & Hc0 & Hshows & _).
  rewrite Hdisc in Hc0. simpl in Hc0.
  assert (P0 : placed ok [] (calls st1)).
  { rewrite Hc0. apply (placed_vacuous ok is_bd).
    - intros hist c Hc. apply no_task_placed. now left.
    - constructor; [now left|]. eapply Forall_impl; [|exact Hshows].
      intros c Hc. now right. }
  unfold main. rewrite (bind_Ok _ _ _ _ _ Hdisc), migrate_unfold.
  change (Dict.set [] "gno-ub9" "fn-1") with [("gno-ub9", "fn-1")].
  destruct (effects_create_epics env epics (epic_order_of epics) [("gno-ub9", "fn-1")]
              (announced st1)) as (c1 & f1 & Hc1 & _ & HP1 & _).
  assert (P1 : placed ok (calls st1) c1).
  { apply (placed_vacuous ok is_epic_cmd); auto.
    intros hist c Hc. apply no_task_placed. now right. }
  destruct (create_epics env epics (epic_order_of epics) _ (announced st1))
    as [[m1|x] s1] eqn:E1; simpl in Hc1.
  - destruct (create_standalone_placed env subtasks made standalone m1
                (printed (PyStr.nl ++ "=== Creating Standalone Epics ===") s1))
      as (c2 & Hc2 & P2).
    destruct (create_standalone env standalone m1 _) as [[m2|x] s2] eqn:E2;
      simpl in Hc2, P2.
    + destruct (phases_sourced env epics subtasks standalone _
                  (printed (PyStr.nl ++ "=== Creating Standalone Epics ===") s1)
                  (printed (PyStr.nl ++ "=== Creating Tasks Under Epics ===") s2)
                  _ _ _ _ E1 eq_refl E2 eq_refl) as [S2 _].
      destruct (create_tasks_placed env subtasks made m2
                  (printed (PyStr.nl ++ "=== Creating Tasks Under Epics ===") s2))
        as (c3 & Hc3 & P3); auto.
      { intros p ts fe t Hg Ht. right. exists p, ts, t, fe. auto. }
      assert (Hall : placed ok [] (calls st1 ++ c1 ++ c2 ++ c3)).
      { apply placed_app; auto. simpl.
        apply placed_app; auto. rewrite <- Hc1.
        apply placed_app; auto. now rewrite <- Hc2. }
      simpl in Hc3.
      destruct (create_tasks env subtasks m2 _) as [[m3|x] s3]; simpl in Hc3 |- *;
        rewrite Hc3, Hc2, Hc1, <- !app_assoc; exact Hall.
    + simpl. rewrite Hc2, Hc1, <- app_assoc. apply placed_app; auto. simpl.
      apply placed_app; auto. now rewrite <- Hc1.
  - simpl. rewrite Hc1. apply placed_app; auto.
Qed.

End PlacedRun.

(** X17.  The single task of a standalone bead is created right after the
    epic of that bead and under it: a command [task create --epic fe
    --title Implement: ...] without priority comes, in the log of any run,
    right after a command [epic create --title ttl0] that the destination
    answered with a true [success] flag and the id [fe], and its title is
    [Implement:] followed by the first 50 characters of [ttl0]. *)
Theorem standalone_task_goes_under_its_epic
    (env : Env) (hist later : list Cmd) (fe ttl : string) :
  calls (snd (main env initial))
  = (hist ++ flowctl_cmd (standalone_task_args fe ttl) :: later)%list ->
  exists hist0 ttl0,
    hist = (hist0 ++ [flowctl_cmd (epic_create_args ttl0)])%list
    /\ answered (flowctl_returns env hist0 (epic_create_args ttl0)) fe
    /\ PyStr.take 50 ttl = PyStr.take 50 ttl0.
Proof.
  intros Hcalls.
  destruct (discover env initial) as [[[[e sub] sa]|x] st1] eqn:Hdisc.
  - pose proof (main_placed env e sub sa st1 Hdisc) as Hp.
    destruct (placed_spec _ _ _ Hp _ _ _ Hcalls) as [Hs _].
    exact (Hs fe ttl eq_refl).
  - exfalso. destruct (discover_calls env initial) as (shows & Hc0 & Hshows & _).
    unfold main, bind in Hcalls. rewrite Hdisc in Hcalls, Hc0. simpl in Hcalls, Hc0.
    assert (Hin : In (flowctl_cmd (standalone_task_args fe ttl))
                    (bd_list_cmd :: shows)).
    { rewrite <- Hc0, Hcalls. apply in_or_app. right. now left. }
    destruct Hin as [Hin|Hin]; [discriminate|].
    rewrite Forall_forall in Hshows. destruct (Hshows _ Hin) as (bid & H).
    discriminate.
Qed.

Lemma standalone_task_goes_under_its_epic_witness :
  let env := Sim.env (Sim.named ++ [Sim.task "gno-s" "Solo" None]) [] in
  let hist := bd_list_cmd
              :: map (fun ttl => flowctl_cmd (epic_create_args ttl))
                   ["Search"; "Index"; "Sync"; "Solo"] in
  exists hist0 ttl0,
    hist = (hist0 ++ [flowctl_cmd (epic_create_args ttl0)])%list
    /\ answered (flowctl_returns env hist0 (epic_create_args ttl0)) "fn-5"
    /\ PyStr.take 50 "Solo" = PyStr.take 50 ttl0.
Proof.
  intros env hist.
  apply (standalone_task_goes_under_its_epic env hist [] "fn-5" "Solo").
  vm_compute. reflexivity.
Defined.

(** X18.  The task of a subtask is created under the destination id of its
    parent.  In the log of a run, a command [task create --epic fe --title
    ... --priority ...] is that of a subtask [t'] of a group of parent [p],
    and [fe] is [fn-1] with [p] being [gno-ub9], or the id that the
    destination answered, with a true [success] flag, to an earlier
    creation command of this run made for [p]. *)
Theorem subtask_goes_under_its_parent
    (env : Env) (hist later : list Cmd) (fe : string) (t : Bead) :
  calls (snd (main env initial))
  = (hist ++ flowctl_cmd (task_create_args fe t) :: later)%list ->
  exists epics subtasks standalone st1 p ts t',
    discover env initial = (Ok (epics, subtasks, standalone), st1)
    /\ In (p, ts) subtasks /\ In t' ts
    /\ task_create_args fe t' = task_create_args fe t
    /\ parent_id_of env (made_for epics subtasks standalone) p fe hist.
Proof.
  intros Hcalls.
  destruct (discover env initial) as [[[[e sub] sa]|x] st1] eqn:Hdisc.
  - pose proof (main_placed env e sub sa st1 Hdisc) as Hp.
    destruct (placed_spec _ _ _ Hp _ _ _ Hcalls) as [_ Hs].
    destruct (Hs fe t eq_refl) as (p & ts & t' & Hg & Ht & Heq & Hpar).
    exists e, sub, sa, st1, p, ts, t'. auto.
  - exfalso. destruct (discover_calls env initial) as (shows & Hc0 & Hshows & _).
    unfold main, bind in Hcalls. rewrite Hdisc in Hcalls, Hc0. simpl in Hcalls, Hc0.
    assert (Hin : In (flowctl_cmd (task_create_args fe t)) (bd_list_cmd :: shows)).
    { rewrite <- Hc0, Hcalls. apply in_or_app. right. now left. }
    destruct Hin as [Hin|Hin]; [discriminate|].
    rewrite Forall_forall in Hshows. destruct (Hshows _ Hin) as (bid & H).
    discriminate.
Qed.


Lemma subtask_goes_under_its_parent_witness :
  let env := Sim.env (Sim.named ++ Sim.auth) [] in
  let login := mkBead "gno-ub9.1" "Login" None None None in
  let logout := mkBead "gno-ub9.2" "Logout" None None None in
  let hist := bd_list_cmd
              :: map (fun ttl => flowctl_cmd (epic_create_args ttl))
                   ["Search"; "Index"; "Sync"] in
  exists epics subtasks standalone st1 p ts t',
    discover env initial = (Ok (epics, subtasks, standalone), st1)
    /\ In (p, ts) subtasks /\ In t' ts
    /\ task_create_args "fn-1" t' = task_create_args "fn-1" login
    /\ parent_id_of env (made_for epics subtasks standalone) p "fn-1" hist.
Proof.
  intros env login logout hist.
  apply (subtask_goes_under_its_parent env hist
           [flowctl_cmd (task_create_args "fn-1" logout)] "fn-1" login).
  vm_compute. reflexivity.
Defined.

(** ** How the files are named (lines 104, 128, 146, 189, 208) *)

Section Names.

Variable env : Env.
Import Dict DictFacts.

Lemma file_from_more log cs f : file_from env log f -> file_from env (log ++ cs) f.
Proof.
  intros [H|[(ttl & fid & s & Ha & ->)|(args & fid & s & Ht & Ha & ->)]].
  - now left.
  - right. left. exists ttl, fid, s. split; auto. now apply answered_in_more.
  - right. right. exists args, fid, s. repeat split; auto. now apply answered_in_more.
Qed.

Lemma answered_in_last hist args fid :
  answered (flowctl_returns env hist args) fid ->
  answered_in env (hist ++ [flowctl_cmd args]) args fid.
Proof. intros H. now exists hist, []. Qed.

(** A computation that writes no file. *)
Lemma names_logs {A} (P : Cmd -> Prop) (m : M A) :
  logs P (fun _ => False) m -> names env m.
Proof.
  intros H st. destruct (H st) as (cs & fs & Hc & Hf & _ & HQ).
  destruct fs as [|f fs]; [|inversion HQ; contradiction].
  exists cs, []. auto.
Qed.

Lemma names_ret {A} (a : A) : names env (ret a).
Proof. apply (names_logs (fun _ => True)), logs_ret. Qed.

Lemma names_raise {A} e : names env (@raise A e).
Proof. apply (names_logs (fun _ => True)), logs_raise. Qed.

Lemma names_lift {A} (o : outcome A) : names env (lift o).
Proof. apply (names_logs (fun _ => True)), logs_lift. Qed.

Lemma names_print s : names env (print s).
Proof. apply (names_logs (fun _ => True)), logs_print. Qed.

Lemma names_mapping m : names env (write_text mapping_path (JsonDump m)).
Proof.
  intros st. exists [], [(mapping_path, JsonDump m)]. simpl.
  rewrite app_nil_r. repeat split; auto. constructor; auto. left. now exists m.
Qed.

Lemma names_bind {A B} (m : M A) (k : A -> M B) :
  names env m -> (forall a, names env (k a)) -> names env (bind m k).
Proof.
  intros Hm Hk st. unfold bind.
  destruct (Hm st) as (cs & fs & Hc & Hf & HQ).
  destruct (m st) as [[a|e] st1]; simpl in *.
  - destruct (Hk a st1) as (cs' & fs' & Hc' & Hf' & HQ').
    exists (cs ++ cs')%list, (fs ++ fs')%list.
    rewrite Hc', Hf', Hc, Hf, !app_assoc. repeat split; auto.
    apply Forall_app. split.
    + eapply Forall_impl; [|exact HQ]. intros f. apply file_from_more.
    + now rewrite <- Hc.
  - exists cs, fs. auto.
Qed.

Lemma names_for_each {X A} (body : X -> A -> M A) l :
  (forall x acc, names env (body x acc)) ->
  forall acc, names env (for_each body l acc).
Proof.
  intros Hbody. induction l as [|x l IH]; intros acc; simpl.
  - apply names_ret.
  - apply names_bind; auto.
Qed.

(** A state that differs from [st] by one command and the files [fs]. *)
Lemma names_one {A} (r : outcome A) st st' c fs :
  calls st' = (calls st ++ [c])%list ->
  files st' = (files st ++ fs)%list ->
  Forall (file_from env (calls st ++ [c])) fs ->
  exists cs fs',
    calls (snd (r, st')) = (calls st ++ cs)%list
    /\ files (snd (r, st')) = (files st ++ fs')%list
    /\ Forall (file_from env (calls st ++ cs)) fs'.
Proof. intros Hc Hf HQ. exists [c], fs. auto. Qed.

Lemma names_epic_step epics eid m : names env (epic_step env epics eid m).
Proof.
  intros st.
  destruct (epic_step_cases env epics eid m st)
    as [[Hstep _]|[[Hstep _]|(epic & _ & Hget & Hcases)]].
  - rewrite Hstep. exists [], []. simpl. now rewrite !app_nil_r.
  - rewrite Hstep. exists [], []. simpl. now rewrite !app_nil_r.
  - simpl in Hcases.
    destruct Hcases as [[Hstep _]|[[Hstep _]|(fid & Hfid & Hstep)]]; rewrite Hstep.
    + eapply names_one with (fs := []);
        [reflexivity|simpl; now rewrite app_nil_r|constructor].
    + eapply names_one with (fs := []);
        [reflexivity|simpl; now rewrite app_nil_r|constructor].
    + eapply names_one; simpl; [reflexivity|reflexivity|].
      constructor; auto. right. left. eexists _, fid, _. split; [|reflexivity].
      now apply answered_in_last.
Qed.

Lemma names_task_step fe t m : names env (task_step env fe t m).
Proof.
  intros st.
  destruct (task_step_cases env fe t m st)
    as [[Hstep _]|[[Hstep _]|(fid & Hfid & Hstep)]]; simpl in Hstep; rewrite Hstep.
  - eapply names_one with (fs := []);
        [reflexivity|simpl; now rewrite app_nil_r|constructor].
  - eapply names_one with (fs := []);
        [reflexivity|simpl; now rewrite app_nil_r|constructor].
  - eapply names_one; simpl; [reflexivity|reflexivity|].
    constructor; auto. right. right. eexists _, fid, _. split; [|split; [|reflexivity]].
    + right. now exists fe, t.
    + now apply answered_in_last.
Qed.

Lemma names_standalone_step s m : names env (standalone_step env s m).
Proof.
  intros st.
  destruct (succeeded (flowctl_returns env (calls st) (epic_create_args (title s))))
    eqn:Hsucc.
  - destruct (succeeded_answered _ Hsucc) as [(fid & Hfid)|(r & Hr & Hsu & Hid)].
    + pose proof (standalone_step_record env s m st fid Hfid) as Hstep.
      cbv zeta in Hstep. rewrite Hstep. clear Hstep.
      set (epic_cmd := flowctl_cmd (epic_create_args (title s))).
      set (targs := standalone_task_args fid (title s)).
      set (st1 := standalone_recorded s fid
                    (after_flowctl env (epic_create_args (title s)) st)).
      assert (Hc1 : calls st1 = (calls st ++ [epic_cmd])%list) by reflexivity.
      assert (Hspec : file_from env (calls st ++ [epic_cmd; flowctl_cmd targs])
                        (".flow/specs/" ++ fid ++ ".md",
                         Text (epic_spec (title s) (id s)
                                 (get_or (issue_type s) "task")
                                 (get_or (priority s) 2%Z)
                                 (get_or (description s) ("# " ++ title s))))).
      { right. left. eexists _, fid, _. split; [|reflexivity].
        exists (calls st), [flowctl_cmd targs]. split; [reflexivity|exact Hfid]. }
      destruct (flowctl_returns env (calls st1) targs) as [tr|] eqn:Etres.
      * destruct (succeeded (Some tr)) eqn:Hs2.
        -- destruct (flow_id tr) as [task_id|] eqn:Htid.
           ++ exists [epic_cmd; flowctl_cmd targs]. eexists. simpl.
              rewrite <- !app_assoc. split; [reflexivity|]. split; [reflexivity|].
              constructor; auto. constructor; auto.
              right. right. eexists targs, task_id, _.
              split; [left; now exists fid, (title s)|]. split; [|reflexivity].
              exists (calls st1), []. split.
              ** rewrite Hc1, <- app_assoc. reflexivity.
              ** exists tr. repeat split; auto. simpl in Hs2.
                 destruct (success tr) as [[]|]; auto; discriminate.
           ++ exists [epic_cmd; flowctl_cmd targs]. eexists. simpl.
              rewrite <- !app_assoc. split; [reflexivity|]. split; [reflexivity|].
              constructor; auto.
        -- exists [epic_cmd; flowctl_cmd targs]. eexists. simpl.
           rewrite <- !app_assoc. split; [reflexivity|]. split; [reflexivity|].
           constructor; auto.
      * simpl. exists [epic_cmd; flowctl_cmd targs]. eexists. simpl.
        rewrite <- !app_assoc. split; [reflexivity|]. split; [reflexivity|].
        constructor; auto.
    + unfold standalone_step.
      rewrite (bind_Ok _ _ _ _ _ (flowctl_run env _ st)), Hr.
      rewrite Hr in Hsucc. rewrite Hsucc. unfold result_id. rewrite Hid.
      eapply names_one with (fs := []);
        [reflexivity|simpl; now rewrite app_nil_r|constructor].
  - rewrite standalone_step_skip by auto.
    eapply names_one with (fs := []);
        [reflexivity|simpl; now rewrite app_nil_r|constructor].
Qed.

Lemma names_group_step g m : names env (group_step env g m).
Proof.
  destruct g as [p ts]. intros st. destruct (get m p) as [fe|] eqn:Hget.
  - destruct (string_dec fe "") as [->|Hne].
    + rewrite group_step_warn by auto. exists [], []. simpl. now rewrite !app_nil_r.
    + rewrite (group_step_run env _ _ _ _ _ Hget Hne). cbv zeta.
      destruct (sort_tasks ts) as [sorted|x].
      * match goal with
        | |- context [for_each _ sorted m ?s] =>
            destruct (names_for_each (task_step env fe) sorted
                        (names_task_step fe) m s) as (cs & fs & Hc & Hf & HQ)
        end.
        exists cs, fs. auto.
      * exists [], []. simpl. now rewrite !app_nil_r.
  - rewrite group_step_warn by auto. exists [], []. simpl. now rewrite !app_nil_r.
Qed.

Ltac names_step :=
  match goal with
  | |- names _ (bind _ _) => apply names_bind; [|intros ?]
  | |- names _ (ret _) => apply names_ret
  | |- names _ (print _) => apply names_print
  | |- names _ (write_text mapping_path _) => apply names_mapping
  | |- names _ (for_each (epic_step _ _) _ _) =>
      apply names_for_each; intros; apply names_epic_step
  | |- names _ (for_each (standalone_step _) _ _) =>
      apply names_for_each; intros; apply names_standalone_step
  | |- names _ (for_each (group_step _) _ _) =>
      apply names_for_each; intros; apply names_group_step
  end.

Lemma names_migrate found : names env (migrate env found).
Proof.
  destruct found as [[epics subtasks] standalone].
  unfold migrate, create_epics, create_standalone, create_tasks.
  repeat names_step.
Qed.

Lemma names_main : names env (main env).
Proof.
  unfold main. apply names_bind.
  - apply (names_logs is_bd), logs_discover.
  - apply names_migrate.
Qed.

End Names.

(** X10.  The script chooses no file name but that of the mapping.  Every
    other file that a run writes, whatever its outcome, is
    [.flow/specs/<id>.md] for an id that the destination tool answered,
    with a true [success] flag, to an epic-creation command of the run, or
    [.flow/tasks/<id>.md] for an id that it answered to a task-creation
    command of the run.  The id goes into the path as it was answered. *)
Theorem files_are_named_by_the_destination (env : Env) :
  Forall (file_from env (calls (snd (main env initial))))
    (files (snd (main env initial))).
Proof.
  destruct (names_main env initial) as (cs & fs & Hc & Hf & HQ).
  rewrite Hc, Hf. exact HQ.
Qed.
